(** * Dutch Blitz game engine (dutchBlitzGame.js): model and properties

    A shallow embedding of the engine: cards, a player's piles, the bot's
    move selection, and the round driver [playTurn], together with the
    control state of the simulator page that runs it from a timer, followed
    by the properties established about them.

    Conventions of the embedding.
    - A JS array is a [list] whose head is index 0; [push] appends at the
      end, [pop] removes the last element, so the top of a pile is the last
      element, as in the source.
    - JS numbers that hold integers (ranks, counters, milliseconds) are [Z];
      numbers that may carry a fraction (a move priority, the quotient given
      to [Math.round]) are exact rationals [Q].
    - [Math.random()] reads the next value of a stream [nat -> Q]; the
      stream and the read position are threaded as [Rng].  Values of the
      stream are meant to lie in the unit interval ([unit_stream]).
    - [Date.now()] is a parameter [now] of the operations that read the clock.
    - A [TypeError] raised by the source (a property read on [undefined]) is
      the result [None]; console output is not modelled. *)

From Stdlib Require Import ZArith QArith Qround Lia Lqa.
From stdpp Require Import gmap strings list fin_maps pretty.

Local Open Scope Z_scope.

(** ** Cards *)

Inductive Color := red | blue | green | yellow.

#[global] Instance Color_eq_dec : EqDecision Color.
Proof. solve_decision. Defined.

Record Card := mkCard { value : Z; color : Color }.

#[global] Instance Card_eq_dec : EqDecision Card.
Proof. solve_decision. Defined.

(** [targetCard] is [None] for the JS [null] of an empty pile. *)
Definition canPlayOn (c : Card) (targetCard : option Card) : bool :=
  match targetCard with
  | None => value c =? 1
  | Some t => bool_decide (color c = color t) && (value c =? value t + 1)
  end.

Definition canPostOn (c : Card) (targetCard : option Card) : bool :=
  match targetCard with
  | None => true
  | Some t => value c =? value t - 1
  end.

(** [pile.length > 0 ? pile[pile.length - 1] : null] *)
Definition top (pile : list Card) : option Card := last pile.

(** [pile.push(c)] *)
Definition push (pile : list Card) (c : Card) : list Card := pile ++ [c].

(** ** The shared Dutch piles: an object with the four colour keys *)

Record DutchPiles := mkDutch {
  pile_red : list Card;
  pile_blue : list Card;
  pile_green : list Card;
  pile_yellow : list Card
}.

Definition noDutch : DutchPiles := mkDutch [] [] [] [].

(** [dutchPiles[color]] *)
Definition dutchPile (d : DutchPiles) (k : Color) : list Card :=
  match k with
  | red => pile_red d
  | blue => pile_blue d
  | green => pile_green d
  | yellow => pile_yellow d
  end.

Definition setDutchPile (d : DutchPiles) (k : Color) (pile : list Card) : DutchPiles :=
  match k with
  | red => mkDutch pile (pile_blue d) (pile_green d) (pile_yellow d)
  | blue => mkDutch (pile_red d) pile (pile_green d) (pile_yellow d)
  | green => mkDutch (pile_red d) (pile_blue d) pile (pile_yellow d)
  | yellow => mkDutch (pile_red d) (pile_blue d) (pile_green d) pile
  end.

(** ** Randomness *)

Record Rng := mkRng { stream : nat -> Q; pos : nat }.

Definition Math_random (g : Rng) : Q * Rng :=
  (stream g (pos g), mkRng (stream g) (S (pos g))).

Definition unit_stream (s : nat -> Q) : Prop :=
  forall k, (0 <= s k)%Q /\ (s k < 1)%Q.

(** [Math.floor] and [Math.round] (ties go up) on exact rationals. *)
Definition Math_floor (x : Q) : Z := Qfloor x.
Definition Math_round (x : Q) : Z := Qfloor (x + (1 # 2)).

(** ** Players *)

Inductive Strategy := aggressive | balanced.

(** The strings ['blitz'], ['post'], ['draw']. *)
Inductive SourceTag := blitz | post | draw.

#[global] Instance SourceTag_eq_dec : EqDecision SourceTag.
Proof. solve_decision. Defined.

(** An entry of [getAvailableCards()]: the object
    [{card, source, pileIndex, drawIndex}]; an absent property is [None]. *)
Record Available := mkAvailable {
  av_card : Card;
  av_source : SourceTag;
  av_pileIndex : option nat;
  av_drawIndex : option nat
}.

(** The JS value received in a parameter named [source]: either an entry
    object, or the bare string held in an entry's [source] property. *)
Inductive SourceArg :=
| SrcObject (a : Available)
| SrcString (t : SourceTag).

(** [source.source]: a string primitive has no such property. *)
Definition prop_source (s : SourceArg) : option SourceTag :=
  match s with
  | SrcObject a => Some (av_source a)
  | SrcString _ => None
  end.

Definition prop_pileIndex (s : SourceArg) : option nat :=
  match s with
  | SrcObject a => av_pileIndex a
  | SrcString _ => None
  end.

Definition prop_drawIndex (s : SourceArg) : option nat :=
  match s with
  | SrcObject a => av_drawIndex a
  | SrcString _ => None
  end.

Record Player := mkPlayer {
  name : string;
  isBot : bool;
  blitzPile : list Card;
  postPiles : list (list Card);
  drawPile : list Card;
  drawRevealed : list Card;
  playsThisRound : Z;
  totalPlays : Z;
  wins : Z;
  strategy : Strategy
}.

Definition set_blitzPile (p : Player) (x : list Card) : Player :=
  mkPlayer (name p) (isBot p) x (postPiles p) (drawPile p) (drawRevealed p)
           (playsThisRound p) (totalPlays p) (wins p) (strategy p).

Definition set_postPiles (p : Player) (x : list (list Card)) : Player :=
  mkPlayer (name p) (isBot p) (blitzPile p) x (drawPile p) (drawRevealed p)
           (playsThisRound p) (totalPlays p) (wins p) (strategy p).

Definition set_draw (p : Player) (dp rv : list Card) : Player :=
  mkPlayer (name p) (isBot p) (blitzPile p) (postPiles p) dp rv
           (playsThisRound p) (totalPlays p) (wins p) (strategy p).

Definition set_drawRevealed (p : Player) (rv : list Card) : Player :=
  set_draw p (drawPile p) rv.

(** [this.playsThisRound++; this.totalPlays++] *)
Definition countPlay (p : Player) : Player :=
  mkPlayer (name p) (isBot p) (blitzPile p) (postPiles p) (drawPile p) (drawRevealed p)
           (playsThisRound p + 1) (totalPlays p + 1) (wins p) (strategy p).

(** [winner.wins++] *)
Definition countWin (p : Player) : Player :=
  mkPlayer (name p) (isBot p) (blitzPile p) (postPiles p) (drawPile p) (drawRevealed p)
           (playsThisRound p) (totalPlays p) (wins p + 1) (strategy p).

Definition getTopBlitzCard (p : Player) : option Card := top (blitzPile p).

(** The tops of the post piles, in pile order, each with its index. *)
Fixpoint postTops (i : nat) (piles : list (list Card)) : list Available :=
  match piles with
  | [] => []
  | pile :: rest =>
      match top pile with
      | Some c => mkAvailable c post (Some i) None :: postTops (S i) rest
      | None => postTops (S i) rest
      end
  end.

Fixpoint revealedFrom (i : nat) (rv : list Card) : list Available :=
  match rv with
  | [] => []
  | c :: rest => mkAvailable c draw None (Some i) :: revealedFrom (S i) rest
  end.

Definition getAvailableCards (p : Player) : list Available :=
  match getTopBlitzCard p with
  | Some c => [mkAvailable c blitz None None]
  | None => []
  end ++ postTops 0 (postPiles p) ++ revealedFrom 0 (drawRevealed p).

(** [for (i = 0; i < 3 && drawPile.length > 0; i++) drawRevealed.push(drawPile.pop())],
    with [n] the iterations left. *)
Fixpoint revealLoop (n : nat) (dp rv : list Card) : list Card * list Card :=
  match n with
  | O => (dp, rv)
  | S n' =>
      match last dp with
      | Some c => revealLoop n' (removelast dp) (push rv c)
      | None => (dp, rv)
      end
  end.

Definition drawCards (p : Player) : bool * Player :=
  let dp := drawPile p in
  let rv := drawRevealed p in
  if (length dp =? 0)%nat && (length rv =? 0)%nat then (false, p)
  else if (length rv =? 0)%nat && (0 <? length dp)%nat then
    let '(dp', rv') := revealLoop 3 dp rv in (true, set_draw p dp' rv')
  else if (0 <? length dp)%nat then
    (* drawPile.unshift(...drawRevealed.reverse()); drawRevealed = [] *)
    let '(dp', rv') := revealLoop 3 (reverse rv ++ dp) [] in (true, set_draw p dp' rv')
  else (false, p).

(** [removeCardFromSource].  [postPiles[i].pop()] raises when [i] is not an
    index of a pile; [splice(i, 1)] takes an absent index as 0 and removes
    nothing past the end. *)
Definition removeCardFromSource (p : Player) (c : Card) (src : SourceArg) : option Player :=
  match prop_source src with
  | Some blitz => Some (set_blitzPile p (removelast (blitzPile p)))
  | Some post =>
      i ← prop_pileIndex src;
      pile ← postPiles p !! i;
      Some (set_postPiles p (<[i := removelast pile]> (postPiles p)))
  | Some draw =>
      Some (set_drawRevealed p (delete (default 0%nat (prop_drawIndex src)) (drawRevealed p)))
  | None => Some p
  end.

Definition playCard (p : Player) (c : Card) (src : SourceArg) (d : DutchPiles)
    (targetPostPile : option nat) : option (bool * Player * DutchPiles) :=
  match targetPostPile with
  | Some i =>
      targetPile ← postPiles p !! i;
      if negb (canPostOn c (top targetPile)) then Some (false, p, d)
      else
        p' ← removeCardFromSource
               (set_postPiles p (<[i := push targetPile c]> (postPiles p))) c src;
        Some (true, countPlay p', d)
  | None =>
      let pile := dutchPile d (color c) in
      if negb (canPlayOn c (top pile)) then Some (false, p, d)
      else
        p' ← removeCardFromSource p c src;
        Some (true, countPlay p', setDutchPile d (color c) (push pile c))
  end.

Definition hasWon (p : Player) : bool := (length (blitzPile p) =? 0)%nat.

(** ** SimpleBot *)

Inductive Target := dutch | toPost.

(** An entry of [moves]: [{card, source, target, postPile, priority}].  The
    [source] stored is whatever value [makeMove] holds in its variable
    [source]. *)
Record Move := mkMove {
  mv_card : Card;
  mv_source : SourceArg;
  mv_target : Target;
  mv_postPile : option nat;
  mv_priority : Q
}.

Definition fromBlitz (src : SourceArg) : bool :=
  bool_decide (prop_source src = Some blitz).

Definition isDutch (t : Target) : bool :=
  match t with dutch => true | toPost => false end.

Definition getMovePriority (p : Player) (c : Card) (src : SourceArg) (t : Target)
    (g : Rng) : Q * Rng :=
  let priority := 0%Q in
  let priority := if isDutch t && (value c =? 1) then (priority + 200)%Q else priority in
  let priority := if fromBlitz src then (priority + 100)%Q else priority in
  let priority := if isDutch t then (priority + 50)%Q else priority in
  let priority := (priority + inject_Z ((11 - value c) * 5))%Q in
  match strategy p with
  | aggressive =>
      let priority := if fromBlitz src then (priority + 50)%Q else priority in
      let priority := if isDutch t then (priority + 30)%Q else priority in
      (priority, g)
  | balanced =>
      let '(r, g') := Math_random g in
      ((priority + r * 20)%Q, g')
  end.

(** The inner loop of [makeMove] over the post piles, from index [i]. *)
Fixpoint postMoves (p : Player) (c : Card) (src : SourceArg) (i : nat)
    (piles : list (list Card)) (g : Rng) : list Move * Rng :=
  match piles with
  | [] => ([], g)
  | postPile :: rest =>
      let topPostCard := top postPile in
      if canPostOn c topPostCard
         && match topPostCard with
            | None => true
            | Some t => (value c <? 8) || (2 <=? value t - value c)
            end
      then
        let '(pr, g1) := getMovePriority p c src toPost g in
        let '(ms, g2) := postMoves p c src (S i) rest g1 in
        (mkMove c src toPost (Some i) pr :: ms, g2)
      else postMoves p c src (S i) rest g
  end.

(** The outer loop of [makeMove] over the available cards.  The loop
    variable [source] is the entry's [source] property, a string. *)
Fixpoint collectMoves (p : Player) (d : DutchPiles) (available : list Available)
    (g : Rng) : list Move * Rng :=
  match available with
  | [] => ([], g)
  | availableCard :: rest =>
      let c := av_card availableCard in
      let src := SrcString (av_source availableCard) in
      let '(dm, g1) :=
        if canPlayOn c (top (dutchPile d (color c))) then
          let '(pr, g1) := getMovePriority p c src dutch g in
          ([mkMove c src dutch None pr], g1)
        else ([], g) in
      let '(pm, g2) := postMoves p c src 0 (postPiles p) g1 in
      let '(ms, g3) := collectMoves p d rest g2 in
      (dm ++ pm ++ ms, g3)
  end.

(** [moves.sort((a, b) => b.priority - a.priority)]: the sort is stable, so
    the result is the stable arrangement by decreasing priority. *)
Fixpoint insertMove (m : Move) (sorted : list Move) : list Move :=
  match sorted with
  | [] => [m]
  | x :: rest =>
      if Qle_bool (mv_priority x) (mv_priority m) then m :: sorted
      else x :: insertMove m rest
  end.

Fixpoint sortMoves (moves : list Move) : list Move :=
  match moves with
  | [] => []
  | m :: rest => insertMove m (sortMoves rest)
  end.

(** The hand as [makeMove] evaluates it: after the refresh of an empty
    revealed buffer. *)
Definition refreshed (p : Player) : Player :=
  if (length (drawRevealed p) =? 0)%nat && (0 <? length (drawPile p))%nat
  then (drawCards p).2 else p.

Definition makeMove (p : Player) (d : DutchPiles) (g : Rng)
    : option (bool * Player * DutchPiles * Rng) :=
  let p := refreshed p in
  let '(moves, g) := collectMoves p d (getAvailableCards p) g in
  if (length moves =? 0)%nat then
    let '(drewCards, p') := drawCards p in Some (drewCards, p', d, g)
  else
    bestMove ← head (sortMoves moves);
    '(ok, p', d') ← match mv_target bestMove with
                    | dutch => playCard p (mv_card bestMove) (mv_source bestMove) d None
                    | toPost =>
                        (* an absent [postPile] is not [null]: the post branch
                           of [playCard] would index with [undefined] *)
                        i ← mv_postPile bestMove;
                        playCard p (mv_card bestMove) (mv_source bestMove) d (Some i)
                    end;
    Some (ok, p', d', g).

(** ** Dealing *)

Definition colors : list Color := [red; blue; green; yellow].

(** [for (value = 1; value <= 10; value++) deck.push(new Card(value, color))] *)
Definition suit (k : Color) : list Card :=
  map (fun v => mkCard (Z.of_nat v) k) (seq 1 10).

Definition freshDeck : list Card := concat (map suit colors).

(** [[deck[i], deck[j]] = [deck[j], deck[i]]].  Both indices are in range
    when the random stream is a [unit_stream]; the model leaves the deck as
    it is otherwise. *)
Definition swap (deck : list Card) (i j : nat) : list Card :=
  match deck !! i, deck !! j with
  | Some a, Some b => <[j := a]> (<[i := b]> deck)
  | _, _ => deck
  end.

(** [for (i = deck.length - 1; i > 0; i--)], entered with [i] = the argument. *)
Fixpoint shuffleFrom (i : nat) (deck : list Card) (g : Rng) : list Card * Rng :=
  match i with
  | O => (deck, g)
  | S i' =>
      let '(r, g1) := Math_random g in
      let j := Z.to_nat (Math_floor (r * inject_Z (Z.of_nat i + 1))) in
      shuffleFrom i' (swap deck i j) g1
  end.

Definition shuffle (deck : list Card) (g : Rng) : list Card * Rng :=
  shuffleFrom (length deck - 1) deck g.

Definition initializeCards (p : Player) (g : Rng) : Player * Rng :=
  let '(deck, g') := shuffle freshDeck g in
  let dealt :=
    mkPlayer (name p) (isBot p) (take 10 deck) [[]; []; []] (drop 10 deck) []
             0 (totalPlays p) (wins p) (strategy p) in
  ((drawCards dealt).2, g').

(** ** The game *)

Record PlayerStats := mkPlayerStats {
  st_wins : Z;
  st_totalPlays : Z;
  st_averagePlaysPerGame : Z
}.

Record GameStats := mkGameStats {
  totalGames : Z;
  averageRoundDuration : Z;
  playerStats : gmap string PlayerStats
}.

(** [winner] refers to a player object of [players]; it is held as the
    player's index.  [roundStartTime] is [null] before the first round. *)
Record Game := mkGame {
  players : list Player;
  dutchPiles : DutchPiles;
  gameActive : bool;
  winner : option nat;
  roundStartTime : option Z;
  roundDuration : Z;
  roundNumber : Z;
  moveCount : Z;
  gameStats : GameStats
}.

Definition set_players (s : Game) (ps : list Player) : Game :=
  mkGame ps (dutchPiles s) (gameActive s) (winner s) (roundStartTime s)
         (roundDuration s) (roundNumber s) (moveCount s) (gameStats s).

Definition set_table (s : Game) (ps : list Player) (d : DutchPiles) : Game :=
  mkGame ps d (gameActive s) (winner s) (roundStartTime s)
         (roundDuration s) (roundNumber s) (moveCount s) (gameStats s).

Definition set_moveCount (s : Game) (n : Z) : Game :=
  mkGame (players s) (dutchPiles s) (gameActive s) (winner s) (roundStartTime s)
         (roundDuration s) (roundNumber s) n (gameStats s).

Definition set_roundDuration (s : Game) (n : Z) : Game :=
  mkGame (players s) (dutchPiles s) (gameActive s) (winner s) (roundStartTime s)
         n (roundNumber s) (moveCount s) (gameStats s).

Definition set_gameStats (s : Game) (st : GameStats) : Game :=
  mkGame (players s) (dutchPiles s) (gameActive s) (winner s) (roundStartTime s)
         (roundDuration s) (roundNumber s) (moveCount s) st.

(** [new SimpleBot(name)] *)
Definition newSimpleBot (nm : string) (g : Rng) : Player * Rng :=
  let '(r, g') := Math_random g in
  (mkPlayer nm true [] [[]; []; []] [] [] 0 0 0
            (if Qlt_le_dec r (1 # 2) then aggressive else balanced), g').

(** The constructor's loop, entered at index [i] with [n] players to go. *)
Fixpoint createPlayers (n i : nat) (ps : list Player)
    (stats : gmap string PlayerStats) (g : Rng)
    : list Player * gmap string PlayerStats * Rng :=
  match n with
  | O => (ps, stats, g)
  | S n' =>
      let '(bot, g') := newSimpleBot ("Bot " +:+ pretty (i + 1)%nat) g in
      createPlayers n' (S i) (ps ++ [bot])
                    (<[name bot := mkPlayerStats 0 0 0]> stats) g'
  end.

(** [new DutchBlitzGame(playerCount)] *)
Definition newGame (playerCount : nat) (g : Rng) : Game * Rng :=
  let '(ps, stats, g') := createPlayers playerCount 0 [] ∅ g in
  (mkGame ps noDutch false None None 0 0 0 (mkGameStats 0 0 stats), g').

Fixpoint initializeAll (ps : list Player) (g : Rng) : list Player * Rng :=
  match ps with
  | [] => ([], g)
  | p :: rest =>
      let '(p', g1) := initializeCards p g in
      let '(rest', g2) := initializeAll rest g1 in
      (p' :: rest', g2)
  end.

Definition startNewRound (now : Z) (s : Game) (g : Rng) : Game * Rng :=
  let '(ps, g') := initializeAll (players s) g in
  (mkGame ps noDutch true None (Some now) 0 (roundNumber s + 1) 0 (gameStats s), g').

(** The loop of [updateStats] over the players: each player's entry is
    looked up by name and overwritten; a missing entry raises. *)
Fixpoint updatePlayerStats (ps : list Player) (games : Z)
    (stats : gmap string PlayerStats) : option (gmap string PlayerStats) :=
  match ps with
  | [] => Some stats
  | p :: rest =>
      _ ← stats !! name p;
      updatePlayerStats rest games
        (<[name p := mkPlayerStats (wins p) (totalPlays p)
                       (Math_round (inject_Z (totalPlays p) / inject_Z games))]> stats)
  end.

Definition updateStats (s : Game) : option Game :=
  let games := totalGames (gameStats s) + 1 in
  let totalDuration := averageRoundDuration (gameStats s) * (games - 1) + roundDuration s in
  let average := Math_round (inject_Z totalDuration / inject_Z games) in
  stats ← updatePlayerStats (players s) games (playerStats (gameStats s));
  Some (set_gameStats s (mkGameStats games average stats)).

(** [Math.floor((Date.now() - this.roundStartTime) / 1000)]; [null] counts
    as 0 in the subtraction. *)
Definition elapsedSeconds (now : Z) (start : option Z) : Z :=
  (now - default 0 start) / 1000.

(** [endRound(winner)]; [w] is the winner's index, [None] for [null]. *)
Definition endRound (now : Z) (w : option nat) (s : Game) : option Game :=
  let ps := match w with
            | Some i => match players s !! i with
                        | Some p => <[i := countWin p]> (players s)
                        | None => players s
                        end
            | None => players s
            end in
  updateStats
    (mkGame ps (dutchPiles s) false w (roundStartTime s)
            (elapsedSeconds now (roundStartTime s)) (roundNumber s) (moveCount s)
            (gameStats s)).

(** ** The round driver *)

(** One invocation of [player.makeMove] during a [playTurn] call, kept for
    the statements below; nothing in the driver reads it.  [ev_game] is the
    game once the invocation and the counting that follows it are done. *)
Record Event := mkEvent {
  ev_player : nat;
  ev_result : bool;
  ev_before : Player;
  ev_game : Game
}.

(** The state of a [playTurn] call: the game, the random source, the locals
    [anyPlayerMoved] and [staleMateCounter], and the invocations so far. *)
Record Turn := mkTurn {
  t_game : Game;
  t_rng : Rng;
  anyPlayerMoved : bool;
  staleMateCounter : nat;
  t_log : list Event
}.

(** How a loop of [playTurn] is left: it falls through to the code after
    it, or [playTurn] returns from inside it. *)
Inductive Flow :=
| Next (t : Turn)
| Return (ret : bool) (t : Turn).

(** What a move attempt came to. *)
Inductive Step :=
| StepWon (t : Turn)
| StepMade (t : Turn)
| StepFailed (t : Turn).

Abbreviation Bot := (Player -> DutchPiles -> Rng -> option (bool * Player * DutchPiles * Rng)).

Section Round.

(** [player.makeMove] is dispatched on the player object; the driver is
    written against any such method. *)
Variable bot : Bot.
Variable now : Z.

(** The block that [playTurn] runs at both of its call sites of
    [makeMove], up to the increment of [movesMade], which is the caller's:
<<
    const made = player.makeMove(this.dutchPiles);
    if (made) {
        anyPlayerMoved = true; movesMade++; this.moveCount++;
        if (player.hasWon()) { this.endRound(player); return true; }
    }
>>  *)
Definition tryMove (i : nat) (t : Turn) : option Step :=
  let s := t_game t in
  p ← players s !! i;
  match bot p (dutchPiles s) (t_rng t) with
  | None => None
  | Some (made, p', d', g') =>
      let s1 := set_table s (<[i := p']> (players s)) d' in
      if made then
        let s2 := set_moveCount s1 (moveCount s1 + 1) in
        let log := t_log t ++ [mkEvent i true p s2] in
        if hasWon p' then
          s3 ← endRound now (Some i) s2;
          Some (StepWon (mkTurn s3 g' true (staleMateCounter t) log))
        else Some (StepMade (mkTurn s2 g' true (staleMateCounter t) log))
      else
        Some (StepFailed (mkTurn s1 g' (anyPlayerMoved t) (staleMateCounter t)
                                 (t_log t ++ [mkEvent i false p s1])))
  end.

(** [for (drawAttempts = 0; drawAttempts < 2; drawAttempts++)], with [n]
    iterations left.  The loop is followed by the [break] out of the
    enclosing [while]. *)
Fixpoint drawAttempts (n : nat) (i : nat) (t : Turn) : option Flow :=
  match n with
  | O => Some (Next t)
  | S n' =>
      let s := t_game t in
      p ← players s !! i;
      let '(drew, p') := drawCards p in
      let t1 := mkTurn (set_players s (<[i := p']> (players s))) (t_rng t)
                       (anyPlayerMoved t) (staleMateCounter t) (t_log t) in
      if drew then
        step ← tryMove i t1;
        match step with
        | StepWon t2 => Some (Return true t2)
        | StepMade t2 => Some (Next t2)
        | StepFailed t2 => drawAttempts n' i t2
        end
      else
        Some (Next (mkTurn (t_game t1) (t_rng t1) (anyPlayerMoved t1)
                           (S (staleMateCounter t1)) (t_log t1)))
  end.

Definition maxAttempts : nat := 5.

(** [while (movesMade < 3 && attempts < maxAttempts && this.gameActive)],
    with [rem = maxAttempts - attempts]. *)
Fixpoint moveLoop (rem : nat) (movesMade : nat) (i : nat) (t : Turn) : option Flow :=
  match rem with
  | O => Some (Next t)
  | S rem' =>
      if (movesMade <? 3)%nat && gameActive (t_game t) then
        step ← tryMove i t;
        match step with
        | StepWon t1 => Some (Return true t1)
        | StepMade t1 => moveLoop rem' (S movesMade) i t1
        | StepFailed t1 => drawAttempts 2 i t1
        end
      else Some (Next t)
  end.

(** [for (let player of this.players)], at index [i] with [n] players to go. *)
Fixpoint eachPlayer (n : nat) (i : nat) (t : Turn) : option Flow :=
  match n with
  | O => Some (Next t)
  | S n' =>
      p ← players (t_game t) !! i;
      if gameActive (t_game t) && negb (hasWon p) then
        f ← moveLoop maxAttempts 0 i t;
        match f with
        | Next t1 => eachPlayer n' (S i) t1
        | Return ret t1 => Some (Return ret t1)
        end
      else eachPlayer n' (S i) t
  end.

Definition playTurn (s : Game) (g : Rng) : option (bool * Turn) :=
  if negb (gameActive s) then Some (false, mkTurn s g false 0 [])
  else
    f ← eachPlayer (length (players s)) 0 (mkTurn s g false 0 []);
    match f with
    | Return ret t => Some (ret, t)
    | Next t =>
        let s1 := set_roundDuration (t_game t)
                    (elapsedSeconds now (roundStartTime (t_game t))) in
        if negb (anyPlayerMoved t)
           && (length (players s1) <=? staleMateCounter t)%nat then
          s2 ← endRound now None s1;
          Some (true, mkTurn s2 (t_rng t) (anyPlayerMoved t) (staleMateCounter t) (t_log t))
        else
          Some (anyPlayerMoved t,
                mkTurn s1 (t_rng t) (anyPlayerMoved t) (staleMateCounter t) (t_log t))
    end.

End Round.


(** ** The engine's bots, rounds in sequence *)

(** [playTurn] as the engine runs it: every player is a [SimpleBot]. *)
Abbreviation botTurn := (playTurn makeMove).

(** [n] successive calls of [playTurn], the clock reading [now] at each. *)
Fixpoint botTurns (n : nat) (now : Z) (s : Game) (g : Rng) : option (Game * Rng) :=
  match n with
  | O => Some (s, g)
  | S n' =>
      match botTurn now s g with
      | Some (_, t) => botTurns n' now (t_game t) (t_rng t)
      | None => None
      end
  end.

(** A player object whose [makeMove] plays its first available card on the
    Dutch piles and hands the entry object itself to [playCard], the value
    [removeCardFromSource] reads its properties from. *)
Definition entryBot : Bot :=
  fun p d g =>
    match getAvailableCards p with
    | a :: _ =>
        match playCard p (av_card a) (SrcObject a) d None with
        | Some (ok, p', d') => Some (ok, p', d', g)
        | None => None
        end
    | [] => Some (false, p, d, g)
    end.

(** ** Vocabulary of the properties *)

(** All the cards a hand holds in its own piles. *)
Definition handCards (p : Player) : list Card :=
  blitzPile p ++ drawPile p ++ drawRevealed p ++ concat (postPiles p).

Definition dutchCards (d : DutchPiles) : list Card :=
  pile_red d ++ pile_blue d ++ pile_green d ++ pile_yellow d.

Definition validCard (c : Card) : Prop := 1 <= value c <= 10.

Definition validHand (p : Player) : Prop := Forall validCard (handCards p).

(** The ranks 1..k of colour [c], bottom first. *)
Definition run (c : Color) (k : nat) : list Card :=
  map (fun v => mkCard (Z.of_nat v) c) (seq 1 k).

Definition foundationOk (d : DutchPiles) : Prop :=
  forall c, exists k, (k <= 10)%nat /\ dutchPile d c = run c k.

(** The states of the engine: a game as constructed, then any sequence of
    rounds started, turns played, and single bot moves. *)
Inductive reachable : Game -> Prop :=
| reach_new n g :
    reachable (newGame n g).1
| reach_start now s g :
    reachable s -> unit_stream (stream g) ->
    reachable (startNewRound now s g).1
| reach_turn now s g ret t :
    reachable s -> botTurn now s g = Some (ret, t) ->
    reachable (t_game t)
| reach_move s i p g ok p' d' g' :
    reachable s -> players s !! i = Some p ->
    makeMove p (dutchPiles s) g = Some (ok, p', d', g') ->
    reachable (set_table s (<[i := p']> (players s)) d').

(** Every player's statistics entry exists, as the constructor arranges. *)
Definition registered (s : Game) : Prop :=
  forall p, p ∈ players s -> is_Some (playerStats (gameStats s) !! name p).

(** An invocation that returned true and left its player's Blitz pile empty. *)
Definition ev_won (ev : Event) : bool :=
  ev_result ev
  && match players (ev_game ev) !! ev_player ev with
     | Some p => hasWon p
     | None => false
     end.

(** An invocation in which a card was placed: [playCard] counts every
    placement in [playsThisRound]. *)
Definition ev_placed (ev : Event) : bool :=
  match players (ev_game ev) !! ev_player ev with
  | Some p => negb (playsThisRound p =? playsThisRound (ev_before ev))
  | None => false
  end.

Definition placements (log : list Event) : nat :=
  length (filter (fun ev => ev_placed ev = true) log).

(** What stays fixed in the game while a turn is in progress. *)
Definition sameRound (s s' : Game) : Prop :=
  gameActive s' = gameActive s /\ winner s' = winner s
  /\ roundStartTime s' = roundStartTime s /\ gameStats s' = gameStats s
  /\ length (players s') = length (players s).

(** ** Concrete hands and games used below *)

Definition hand (nm : string) (st : Strategy) (bz : list Card)
    (posts : list (list Card)) (dp rv : list Card) : Player :=
  mkPlayer nm true bz posts dp rv 0 0 0 st.

(** An active round over the given players, each with a statistics entry. *)
Definition table (ps : list Player) : Game :=
  mkGame ps noDutch true None (Some 0) 0 1 0
         (mkGameStats 0 0 (list_to_map (map (fun p => (name p, mkPlayerStats 0 0 0)) ps))).

Definition constantStream (q : Q) : nat -> Q := fun _ => q.

(** The ranks [hi] down to [hi - n + 1] of colour [c], bottom first: a post
    pile built down from [hi]. *)
Definition descent (c : Color) (hi : Z) (n : nat) : list Card :=
  map (fun k => mkCard (hi - Z.of_nat k) c) (seq 0 n).

(** A hand of all 40 cards with no legal move over empty Dutch piles: the
    post piles run from 10 down to 2, the 1s lie under the Blitz pile, whose
    top is the yellow 10, and the yellow 7, 8, 9 are what is left to draw. *)
Definition blockedPosts : list (list Card) :=
  [descent red 10 9; descent blue 10 9; descent green 10 9].

Definition blockedBlitz : list Card :=
  [mkCard 1 red; mkCard 1 blue; mkCard 1 green] ++ run yellow 6 ++ [mkCard 10 yellow].

(** It can still cycle its draw pile once. *)
Definition cyclingHand (nm : string) : Player :=
  hand nm aggressive blockedBlitz blockedPosts [mkCard 9 yellow]
       [mkCard 7 yellow; mkCard 8 yellow].

(** It cannot: its draw pile is empty. *)
Definition exhaustedHand (nm : string) : Player :=
  hand nm aggressive blockedBlitz blockedPosts []
       [mkCard 7 yellow; mkCard 8 yellow; mkCard 9 yellow].

Definition cyclingTable : Game :=
  table [cyclingHand "Bot 1"; exhaustedHand "Bot 2"; exhaustedHand "Bot 3";
         exhaustedHand "Bot 4"].

(** The hand of the example: a single red 1 on the Blitz pile. *)
Definition lastCardHand (nm : string) (st : Strategy) (rv : list Card) : Player :=
  hand nm st [mkCard 1 red] [[]; []; []] [] rv.

Definition lastCardTable : Game :=
  table [lastCardHand "Bot 1" aggressive []; lastCardHand "Bot 2" aggressive []].

Definition exhaustedTable : Game :=
  table [exhaustedHand "Bot 1"; exhaustedHand "Bot 2"].

Definition zeroRng : Rng := mkRng (constantStream 0) 0.

(** A random stream whose fifth value is one half, the others zero. *)
Definition fifthHalf : nat -> Q := fun k => if (k =? 4)%nat then (1 # 2)%Q else 0%Q.

(** A stream for whole simulated games. *)
Definition lcg (k : nat) : Q := inject_Z ((Z.of_nat k * 37 + 11) mod 100) / 100.

(** A four-player game, constructed and started. *)
Definition freshRound : Game * Rng :=
  let '(s, g) := newGame 4 (mkRng lcg 0) in startNewRound 1000 s g.

(** The same game seventeen turns later. *)
Abbreviation lateRound := (botTurns 17 2000 freshRound.1 freshRound.2).

(** The priorities of a list of candidate moves, as reduced fractions. *)
Definition priorities (moves : list Move) : list (Z * positive) :=
  map (fun m => (Qnum (Qred (mv_priority m)), Qden (Qred (mv_priority m)))) moves.

(** The candidate moves of a hand that needs no refresh. *)
Definition candidates (p : Player) (d : DutchPiles) (g : Rng) : list Move :=
  (collectMoves p d (getAvailableCards p) g).1.

(** A hand as [initializeCards] leaves it: the 40 cards of the deck, ten on
    the Blitz pile, three revealed, 27 left to draw, nothing posted. *)
Definition dealt (p : Player) : Prop :=
  handCards p ≡ₚ freshDeck
  /\ length (blitzPile p) = 10%nat /\ length (drawPile p) = 27%nat
  /\ length (drawRevealed p) = 3%nat
  /\ postPiles p = [[]; []; []] /\ playsThisRound p = 0.

(** The name the constructor gives the player at index [i]. *)
Definition botName (i : nat) : string := "Bot " +:+ pretty (i + 1)%nat.

(** ** How a turn advances *)

(** [t'] follows [t] within one [playTurn] call that has not returned: the
    round is the same, the invocations added left nobody with an empty Blitz
    pile, [anyPlayerMoved] records whether one of them returned true, and at
    most [k] stalemate votes were added. *)
Definition Progress (k : nat) (t t' : Turn) : Prop :=
  sameRound (t_game t) (t_game t')
  /\ (exists evs,
        t_log t' = t_log t ++ evs
        /\ Forall (fun ev => ev_won ev = false) evs
        /\ anyPlayerMoved t' = anyPlayerMoved t || existsb ev_result evs)
  /\ (staleMateCounter t <= staleMateCounter t' <= staleMateCounter t + k)%nat.

(** [playTurn] returned from inside its loops at [t']: the last invocation
    emptied its player's Blitz pile, and the game is the one [endRound] made
    of the game as that invocation left it. *)
Definition Finish (now : Z) (t t' : Turn) : Prop :=
  exists evs ev,
    t_log t' = t_log t ++ evs ++ [ev]
    /\ Forall (fun ev => ev_won ev = false) evs
    /\ ev_won ev = true
    /\ endRound now (Some (ev_player ev)) (ev_game ev) = Some (t_game t').

Definition flowOk (now : Z) (k : nat) (t : Turn) (f : Flow) : Prop :=
  match f with
  | Next t' => Progress k t t'
  | Return ret t' => ret = true /\ Finish now t t'
  end.

(** Every card on the table is a card of the deck, and the Dutch piles
    are well built. *)
Definition tableOk (s : Game) : Prop :=
  Forall validHand (players s) /\ foundationOk (dutchPiles s).

(** The turn state a step or a flow carries. *)
Definition stepTurn (st : Step) : Turn :=
  match st with StepWon t | StepMade t | StepFailed t => t end.

Definition flowTurn (f : Flow) : Turn :=
  match f with Next t | Return _ t => t end.

(** The players of [s] carry the names, in order, of those of [s0], and the
    statistics are those of [s0]. *)
Definition sameNames (s0 s : Game) : Prop :=
  map name (players s) = map name (players s0) /\ gameStats s = gameStats s0.

Definition flowNames (s0 : Game) (f : Flow) : Prop :=
  match f with
  | Next t => sameNames s0 (t_game t)
  | Return _ _ => True
  end.

(** ** What a bot move comes to *)

(** The cards a hand can play from, as [getAvailableCards] lists them. *)
Definition availableCards (p : Player) : list Card := map av_card (getAvailableCards p).

(** The three outcomes of [makeMove] on hand [p] over Dutch piles [d], with
    [q] the hand after the refresh of the revealed buffer: a draw-cycle, a
    card pushed on its colour's Dutch pile, or a card pushed on a post pile.
    In the last two the card stays where it was. *)
Inductive MoveResult (p : Player) (d : DutchPiles) : bool -> Player -> DutchPiles -> Prop :=
| mr_draw :
    MoveResult p d (drawCards (refreshed p)).1 (drawCards (refreshed p)).2 d
| mr_dutch c :
    c ∈ availableCards (refreshed p) ->
    canPlayOn c (top (dutchPile d (color c))) = true ->
    MoveResult p d true (countPlay (refreshed p))
               (setDutchPile d (color c) (push (dutchPile d (color c)) c))
| mr_post c i pile :
    c ∈ availableCards (refreshed p) ->
    postPiles (refreshed p) !! i = Some pile ->
    canPostOn c (top pile) = true ->
    MoveResult p d true
               (countPlay (set_postPiles (refreshed p)
                             (<[i := push pile c]> (postPiles (refreshed p))))) d.

(** A candidate move as [makeMove] collects them. *)
Definition candidateOk (p : Player) (d : DutchPiles) (m : Move) : Prop :=
  (exists t, mv_source m = SrcString t)
  /\ mv_card m ∈ availableCards p
  /\ match mv_target m with
     | dutch => canPlayOn (mv_card m) (top (dutchPile d (color (mv_card m)))) = true
     | toPost => exists i pile, mv_postPile m = Some i /\ postPiles p !! i = Some pile
                                /\ canPostOn (mv_card m) (top pile) = true
     end.

(** Destinations that refuse card [c]: its colour's Dutch pile for [None],
    post pile [i] for [Some i]. *)
Definition refuses (p : Player) (d : DutchPiles) (c : Card) (dest : option nat) : Prop :=
  match dest with
  | None => canPlayOn c (top (dutchPile d (color c))) = false
  | Some i => exists pile, postPiles p !! i = Some pile /\ canPostOn c (top pile) = false
  end.

(** Where an entry points: at the top of the Blitz pile, at the top of a
    post pile, or at a revealed card. *)
Inductive EntryOf (p : Player) (a : Available) : Prop :=
| entry_blitz :
    av_source a = blitz -> last (blitzPile p) = Some (av_card a) -> EntryOf p a
| entry_post j pile :
    av_source a = post -> av_pileIndex a = Some j -> postPiles p !! j = Some pile ->
    last pile = Some (av_card a) -> EntryOf p a
| entry_draw k :
    av_source a = draw -> av_drawIndex a = Some k ->
    drawRevealed p !! k = Some (av_card a) -> EntryOf p a.

(** A [makeMove] method that returns normally and leaves its player's name
    alone. *)
Definition wellBehaved (bot : Bot) : Prop :=
  (forall p d g, is_Some (bot p d g))
  /\ (forall p d g b p' d' g', bot p d g = Some (b, p', d', g') -> name p' = name p).

(** The round is still active where a step or a flow goes on. *)
Definition stepActive (st : Step) : Prop :=
  match st with
  | StepWon _ => True
  | StepMade t | StepFailed t => gameActive (t_game t) = true
  end.

Definition flowActive (f : Flow) : Prop :=
  match f with
  | Next t => gameActive (t_game t) = true
  | Return _ _ => True
  end.

(** ** Hands and games in the middle of play *)

(** A post pile built down: every card is one rank under the card it lies on. *)
Definition builtDown (pile : list Card) : Prop :=
  forall i a b, pile !! i = Some a -> pile !! S i = Some b -> value b = value a - 1.

(** A hand whose Blitz pile, draw pile and revealed cards are still the 40
    cards that were dealt: ten, 27 and three of them. *)
Definition inPlay (p : Player) : Prop :=
  blitzPile p ++ drawPile p ++ drawRevealed p ≡ₚ freshDeck
  /\ length (blitzPile p) = 10%nat /\ length (drawPile p) = 27%nat
  /\ length (drawRevealed p) = 3%nat.

(** What holds of every game the engine reaches: the players are named by
    the constructor and have their statistics entries, nobody has a win on
    record, every hand has three post piles, each built down, and while a
    round is active every hand is [inPlay]. *)
Definition engineOk (s : Game) : Prop :=
  map name (players s) = map botName (seq 0 (length (players s)))
  /\ (forall i, (i < length (players s))%nat ->
        is_Some (playerStats (gameStats s) !! botName i))
  /\ (forall k st, playerStats (gameStats s) !! k = Some st -> st_wins st = 0)
  /\ winner s = None
  /\ Forall (fun p => wins p = 0 /\ length (postPiles p) = 3%nat
                      /\ Forall builtDown (postPiles p)) (players s)
  /\ (gameActive s = true -> Forall inPlay (players s)).

(** The number of invocations of a log that returned true. *)
Definition movesMadeIn (log : list Event) : nat :=
  length (filter (fun ev => ev_result ev = true) log).

(** [t'] is [t] after [k] more invocations, all of which returned true, in
    a round that goes on with every hand in play. *)
Definition Advanced (k : nat) (t t' : Turn) : Prop :=
  gameActive (t_game t') = true
  /\ Forall inPlay (players (t_game t'))
  /\ length (players (t_game t')) = length (players (t_game t))
  /\ moveCount (t_game t') = moveCount (t_game t) + Z.of_nat k
  /\ winner (t_game t') = winner (t_game t)
  /\ gameStats (t_game t') = gameStats (t_game t)
  /\ roundNumber (t_game t') = roundNumber (t_game t)
  /\ roundStartTime (t_game t') = roundStartTime (t_game t)
  /\ staleMateCounter t' = staleMateCounter t
  /\ anyPlayerMoved t' = anyPlayerMoved t || (0 <? k)%nat
  /\ exists evs, t_log t' = t_log t ++ evs /\ length evs = k
                 /\ Forall (fun ev => ev_result ev = true) evs.

(** ** The bot's candidate moves *)

(** The test under which [makeMove] lists a placement of card [c] on a post
    pile: [canPostOn], and the pile is empty, or the card is below 8, or it
    lies at least two ranks under the pile's top. *)
Definition botPosts (c : Card) (postPile : list Card) : bool :=
  canPostOn c (top postPile)
  && match top postPile with
     | None => true
     | Some t => (value c <? 8) || (2 <=? value t - value c)
     end.

(** [makeMove] lists at least one placement for the available card [a]. *)
Definition botWants (p : Player) (d : DutchPiles) (a : Available) : bool :=
  canPlayOn (av_card a) (top (dutchPile d (color (av_card a))))
  || existsb (botPosts (av_card a)) (postPiles p).

Definition hasCandidate (p : Player) (d : DutchPiles) : bool :=
  existsb (botWants p d) (getAvailableCards p).

(** The priorities an aggressive bot gives its candidates: at least 85 to a
    placement on a Dutch pile, at most 50 to one on a post pile. *)
Definition aggressiveRank (m : Move) : Prop :=
  match mv_target m with
  | dutch => (85 <= mv_priority m)%Q
  | toPost => (mv_priority m <= 50)%Q
  end.

(** ** Counting placements *)

(** The sum of [f] over the players. *)
Definition sumOf (f : Player -> Z) (ps : list Player) : Z :=
  foldr (fun p acc => f p + acc) 0 ps.

(** The number of cards lying on a hand's post piles. *)
Definition posted (p : Player) : Z := Z.of_nat (length (concat (postPiles p))).

(** The placements counted this round are the cards lying on the post piles
    and the Dutch piles, and no hand has counted more placements this round
    than in total. *)
Definition playsOk (s : Game) : Prop :=
  sumOf playsThisRound (players s)
  = sumOf posted (players s) + Z.of_nat (length (dutchCards (dutchPiles s)))
  /\ Forall (fun p => 0 <= playsThisRound p <= totalPlays p) (players s).

(** ** Card.toString *)

(** [this.color.charAt(0).toUpperCase()], for the four colour names. *)
Definition colorInitial (k : Color) : string :=
  match k with
  | red => "R"
  | blue => "B"
  | green => "G"
  | yellow => "Y"
  end.

(** The rank in decimal followed by the colour's initial, as in "10R". *)
Definition toString (c : Card) : string := pretty (value c) +:+ colorInitial (color c).

(** ** Player.canMakeMove *)

Definition canMakeMove (p : Player) (d : DutchPiles) : bool :=
  existsb (fun a =>
             let c := av_card a in
             canPlayOn c (top (dutchPile d (color c)))
             || existsb (fun postPile => canPostOn c (top postPile)) (postPiles p))
          (getAvailableCards p).

(** ** The win rate shown with the statistics

    [totalGames > 0 ? Math.round((wins / totalGames) * 100) : 0] *)
Definition winRate (w games : Z) : Z :=
  if 0 <? games then Math_round (inject_Z w / inject_Z games * 100) else 0.

(** ** The simulator page (DutchBlitzApp)

    The page drives the engine from a timer.  Of the page object the model
    keeps the game, whether the timer handle [gameInterval] is set, and
    [isPaused]; the random source is carried along.  What is written to the
    document is not modelled, except the status line. *)
Record App := mkApp {
  game : Game;
  app_rng : Rng;
  gameInterval : bool;
  isPaused : bool
}.

(** [new DutchBlitzApp()] *)
Definition newApp (g : Rng) : App :=
  let '(s, g') := newGame 4 g in mkApp s g' false false.

(** [if (this.gameInterval) { clearInterval(...); this.gameInterval = null }] *)
Definition stopGame (a : App) : App :=
  mkApp (game a) (app_rng a) false (isPaused a).

Definition pauseGame (a : App) : App :=
  mkApp (game a) (app_rng a) (gameInterval a) true.

Definition resumeGame (a : App) : App :=
  mkApp (game a) (app_rng a) (gameInterval a) false.

(** The lines shared by the timer callback and [stepGame]:
<<
    const gameEnded = this.game.playTurn();
    this.updateGameDisplay();
    if (gameEnded) { this.stopGame(); }
>>  *)
Definition turnAndStop (now : Z) (a : App) : option App :=
  match botTurn now (game a) (app_rng a) with
  | Some (gameEnded, t) =>
      let a' := mkApp (t_game t) (t_rng t) (gameInterval a) (isPaused a) in
      Some (if gameEnded then stopGame a' else a')
  | None => None
  end.

(** The callback given to [setInterval]. *)
Definition intervalCallback (now : Z) (a : App) : option App :=
  if negb (isPaused a) then turnAndStop now a else Some a.

(** The timer fires: the callback runs if the handle is still set. *)
Definition tick (now : Z) (a : App) : option App :=
  if gameInterval a then intervalCallback now a else Some a.

Definition startNewGame (now : Z) (a : App) : App :=
  let a := stopGame a in
  let '(s, g) := startNewRound now (game a) (app_rng a) in
  mkApp s g true false.

Definition stepGame (now : Z) (a : App) : option App :=
  if gameActive (game a) then turnAndStop now a else Some a.

(** The status line of [updateGameDisplay]. *)
Definition gameStatus (a : App) : string :=
  let state := game a in
  if gameActive state then (if isPaused a then "Paused" else "Running")
  else match winner state with
       | Some i => default "" (name <$> players state !! i) +:+ " Won!"
       | None => if 0 <? roundNumber state then "Round Ended" else "Ready to start"
       end.

(** * Properties *)

(** ** Drawing *)

Lemma revealLoop_perm n dp rv dp' rv' :
  revealLoop n dp rv = (dp', rv') -> dp' ++ rv' ≡ₚ dp ++ rv.
Proof.
  revert dp rv. induction n as [|n IH]; intros dp rv H; simpl in H.
  - by inversion H.
  - destruct (last dp) as [c|] eqn:E.
    + apply IH in H. rewrite H. unfold push.
      apply last_Some in E as [l ->]. rewrite removelast_last.
      rewrite <- !app_assoc. f_equiv. apply Permutation_app_comm.
    + by inversion H.
Qed.

Lemma drawCards_cases p :
  (drawPile p = [] /\ drawCards p = (false, p))
  \/ (drawPile p <> [] /\ exists dp' rv',
        drawCards p = (true, set_draw p dp' rv')
        /\ dp' ++ rv' ≡ₚ drawPile p ++ drawRevealed p).
Proof.
  unfold drawCards. destruct (drawPile p) as [|c dp] eqn:Edp.
  - left. split; [done|]. by destruct (drawRevealed p).
  - right. split; [done|]. destruct (drawRevealed p) as [|r rv] eqn:Erv.
    + destruct (revealLoop 3 (c :: dp) []) as [dp' rv'] eqn:E.
      exists dp', rv'. cbn [length Nat.eqb Nat.ltb Nat.leb andb]. split; [done|].
      by apply revealLoop_perm in E.
    + destruct (revealLoop 3 (reverse (r :: rv) ++ c :: dp) []) as [dp' rv'] eqn:E.
      exists dp', rv'. cbn [length Nat.eqb Nat.ltb Nat.leb andb]. split; [done|].
      apply revealLoop_perm in E.
      rewrite E, app_nil_r, reverse_Permutation. apply Permutation_app_comm.
Qed.

(** C4 as amended: [drawCards] returns false exactly when the draw pile is
    empty, whether or not revealed cards remain; it returns true exactly
    when the draw pile holds a card. *)
Theorem drawCards_false_iff p : (drawCards p).1 = false <-> drawPile p = [].
Proof.
  destruct (drawCards_cases p) as [[H ->]|[H (dp' & rv' & -> & _)]]; simpl; split; done.
Qed.

Lemma blocked_hands_full_deck nm :
  handCards (cyclingHand nm) ≡ₚ freshDeck /\ handCards (exhaustedHand nm) ≡ₚ freshDeck.
Proof.
  split.
  - apply (bool_decide_eq_true_1 (handCards (cyclingHand "") ≡ₚ freshDeck)).
    vm_compute. reflexivity.
  - apply (bool_decide_eq_true_1 (handCards (exhaustedHand "") ≡ₚ freshDeck)).
    vm_compute. reflexivity.
Qed.

(** C4 as stated fails: with an empty draw pile and three revealed cards the
    result is false although the two are not both empty. *)
Lemma drawCards_false_with_revealed :
  ~ ((drawCards (exhaustedHand "Bot 2")).1 = false
     <-> drawPile (exhaustedHand "Bot 2") = [] /\ drawRevealed (exhaustedHand "Bot 2") = []).
Proof. intros [H _]. by destruct (H eq_refl) as [_ ?]. Qed.

(** ** Placing a card *)

(** C6: a placement that the destination's predicate refuses returns false
    and leaves the hand (its piles and both play counters) and the Dutch
    piles exactly as they were. *)
Theorem playCard_refused p c src d dest :
  refuses p d c dest -> playCard p c src d dest = Some (false, p, d).
Proof.
  destruct dest as [i|]; simpl.
  - intros (pile & -> & H). simpl. by rewrite H.
  - intros H. by rewrite H.
Qed.

Lemma playCard_refused_witness :
  playCard (cyclingHand "Bot 1") (mkCard 10 yellow) (SrcString blitz) noDutch (Some 0%nat)
  = Some (false, cyclingHand "Bot 1", noDutch).
Proof. apply playCard_refused. exists (descent red 10 9). split; reflexivity. Defined.

Lemma removeCardFromSource_string p c t :
  removeCardFromSource p c (SrcString t) = Some p.
Proof. done. Qed.

Lemma postMoves_ok p d c src i piles g pre :
  postPiles p = pre ++ piles -> length pre = i ->
  (exists t, src = SrcString t) -> c ∈ availableCards p ->
  Forall (candidateOk p d) (postMoves p c src i piles g).1.
Proof.
  revert i g pre. induction piles as [|pile rest IH]; intros i g pre Hp Hi Hs Hc; simpl.
  - constructor.
  - assert (Hrest : forall g', Forall (candidateOk p d) (postMoves p c src (S i) rest g').1).
    { intros g'. apply (IH _ _ (pre ++ [pile])).
      - by rewrite <- app_assoc.
      - rewrite length_app. simpl. lia.
      - done.
      - done. }
    destruct (canPostOn c (top pile)) eqn:Ec; simpl; [|apply Hrest].
    destruct (match top pile with Some t => _ | None => true end); [|apply Hrest].
    destruct (getMovePriority p c src toPost g) as [pr g1].
    specialize (Hrest g1). destruct (postMoves p c src (S i) rest g1) as [ms g2].
    simpl in *. constructor; [|done].
    split; [done|]. split; [done|]. simpl. exists i, pile. split; [done|]. split; [|done].
    rewrite Hp, <- Hi. by rewrite list_lookup_middle.
Qed.

Lemma collectMoves_ok p d av g :
  Forall (fun a => av_card a ∈ availableCards p) av ->
  Forall (candidateOk p d) (collectMoves p d av g).1.
Proof.
  revert g. induction av as [|a rest IH]; intros g Hav; simpl.
  - constructor.
  - inversion Hav as [|? ? Ha Hrest]; subst.
    set (c := av_card a). set (src := SrcString (av_source a)).
    assert (Hd : Forall (candidateOk p d)
                   (if canPlayOn c (top (dutchPile d (color c)))
                    then let '(pr, g1) := getMovePriority p c src dutch g in
                         ([mkMove c src dutch None pr], g1)
                    else ([], g)).1).
    { destruct (canPlayOn c (top (dutchPile d (color c)))) eqn:E; [|constructor].
      destruct (getMovePriority p c src dutch g) as [pr g1]. simpl.
      constructor; [|constructor]. split; [by eexists|]. split; done. }
    destruct (if canPlayOn c (top (dutchPile d (color c))) then _ else _) as [dm g1].
    pose proof (postMoves_ok p d c src 0 (postPiles p) g1 [] eq_refl eq_refl
                  (ex_intro _ _ eq_refl) Ha) as Hp.
    destruct (postMoves p c src 0 (postPiles p) g1) as [pm g2].
    specialize (IH g2 Hrest). destruct (collectMoves p d rest g2) as [ms g3].
    simpl in *. rewrite !Forall_app. done.
Qed.

Lemma insertMove_elem m x l : x ∈ insertMove m l <-> x = m \/ x ∈ l.
Proof.
  induction l as [|y l IH]; simpl.
  - rewrite list_elem_of_singleton. split; [by left|].
    intros [H|H]; [done|]. by apply elem_of_nil in H.
  - destruct (Qle_bool (mv_priority y) (mv_priority m)).
    + by rewrite elem_of_cons.
    + rewrite !elem_of_cons, IH. tauto.
Qed.

Lemma sortMoves_elem x l : x ∈ sortMoves l <-> x ∈ l.
Proof.
  induction l as [|y l IH]; simpl; [done|].
  by rewrite insertMove_elem, elem_of_cons, IH.
Qed.

Lemma sortMoves_head l : l <> [] -> exists m, head (sortMoves l) = Some m /\ m ∈ l.
Proof.
  intros Hl. destruct (sortMoves l) as [|m s] eqn:E.
  - destruct l as [|y l]; [done|]. exfalso.
    assert (y ∈ sortMoves (y :: l)) as H by (apply sortMoves_elem; set_solver).
    rewrite E in H. set_solver.
  - exists m. split; [done|]. apply sortMoves_elem. rewrite E. set_solver.
Qed.

Lemma getAvailableCards_cards p :
  Forall (fun a => av_card a ∈ availableCards p) (getAvailableCards p).
Proof.
  apply Forall_forall. intros a Ha. unfold availableCards.
  apply list_elem_of_fmap. by exists a.
Qed.

(** [makeMove] always returns, and what it returns is one of the three
    outcomes of [MoveResult]. *)
Lemma makeMove_result p d g :
  exists b p' d' g', makeMove p d g = Some (b, p', d', g') /\ MoveResult p d b p' d'.
Proof.
  unfold makeMove. set (q := refreshed p).
  pose proof (collectMoves_ok q d (getAvailableCards q) g (getAvailableCards_cards q)) as Hok.
  destruct (collectMoves q d (getAvailableCards q) g) as [moves g1]. simpl in Hok.
  destruct moves as [|m0 ms].
  - simpl. destruct (drawCards q) as [b q'] eqn:E. exists b, q', d, g1. split; [done|].
    replace b with (drawCards q).1 by (by rewrite E).
    replace q' with (drawCards q).2 by (by rewrite E). constructor.
  - destruct (sortMoves_head (m0 :: ms)) as (m & Hh & Hin); [done|].
    cbn [length Nat.eqb]. rewrite Hh. cbn [mbind option_bind].
    rewrite Forall_forall in Hok. destruct (Hok m Hin) as ((t & Hs) & Hc & Ht).
    destruct (mv_target m).
    + unfold playCard. rewrite Ht, Hs. simpl.
      eexists _, _, _, _. split; [done|]. by apply mr_dutch.
    + destruct Ht as (i & pile & Hi & Hl & Hcp). rewrite Hi. simpl. unfold playCard.
      rewrite Hl. simpl. rewrite Hcp, Hs. simpl.
      eexists _, _, _, _. split; [done|]. by eapply mr_post.
Qed.

Lemma makeMove_total p d g : is_Some (makeMove p d g).
Proof. destruct (makeMove_result p d g) as (b & p' & d' & g' & -> & _). done. Qed.

Lemma makeMove_inv p d g b p' d' g' :
  makeMove p d g = Some (b, p', d', g') -> MoveResult p d b p' d'.
Proof.
  intros H. destruct (makeMove_result p d g) as (b0 & p0 & d0 & g0 & H0 & Hr).
  rewrite H in H0. by inversion H0; subst.
Qed.

Lemma refreshed_cases p :
  refreshed p = p \/ refreshed p = (drawCards p).2.
Proof. unfold refreshed. destruct (_ && _); auto. Qed.

Lemma drawCards_blitz p : blitzPile (drawCards p).2 = blitzPile p.
Proof. destruct (drawCards_cases p) as [[_ ->]|[_ (dp' & rv' & -> & _)]]; done. Qed.

Lemma drawCards_posts p : postPiles (drawCards p).2 = postPiles p.
Proof. destruct (drawCards_cases p) as [[_ ->]|[_ (dp' & rv' & -> & _)]]; done. Qed.

Lemma drawCards_name p : name (drawCards p).2 = name p.
Proof. destruct (drawCards_cases p) as [[_ ->]|[_ (dp' & rv' & -> & _)]]; done. Qed.

Lemma drawCards_plays p : playsThisRound (drawCards p).2 = playsThisRound p.
Proof. destruct (drawCards_cases p) as [[_ ->]|[_ (dp' & rv' & -> & _)]]; done. Qed.

Lemma drawCards_hand p : handCards (drawCards p).2 ≡ₚ handCards p.
Proof.
  destruct (drawCards_cases p) as [[_ ->]|[_ (dp' & rv' & -> & H)]]; [done|].
  unfold handCards. simpl. rewrite !app_assoc. do 1 f_equiv.
  rewrite <- !app_assoc. f_equiv. done.
Qed.

Lemma refreshed_blitz p : blitzPile (refreshed p) = blitzPile p.
Proof. destruct (refreshed_cases p) as [-> | ->]; [done|apply drawCards_blitz]. Qed.

Lemma refreshed_name p : name (refreshed p) = name p.
Proof. destruct (refreshed_cases p) as [-> | ->]; [done|apply drawCards_name]. Qed.

Lemma refreshed_hand p : handCards (refreshed p) ≡ₚ handCards p.
Proof. destruct (refreshed_cases p) as [-> | ->]; [done|apply drawCards_hand]. Qed.

(** No outcome of [makeMove] touches the Blitz pile: the card it places is
    pushed on its destination and never taken from its source. *)
Lemma makeMove_blitz p d g b p' d' g' :
  makeMove p d g = Some (b, p', d', g') -> blitzPile p' = blitzPile p.
Proof.
  intros H. apply makeMove_inv in H. destruct H; simpl.
  - by rewrite drawCards_blitz, refreshed_blitz.
  - apply refreshed_blitz.
  - apply refreshed_blitz.
Qed.

Lemma makeMove_name p d g b p' d' g' :
  makeMove p d g = Some (b, p', d', g') -> name p' = name p.
Proof.
  intros H. apply makeMove_inv in H. destruct H; simpl.
  - by rewrite drawCards_name, refreshed_name.
  - apply refreshed_name.
  - apply refreshed_name.
Qed.

Lemma drawCards_totalPlays p : totalPlays (drawCards p).2 = totalPlays p.
Proof. destruct (drawCards_cases p) as [[_ ->]|[_ (dp' & rv' & -> & _)]]; done. Qed.

Lemma refreshed_posts p : postPiles (refreshed p) = postPiles p.
Proof. destruct (refreshed_cases p) as [-> | ->]; [done|apply drawCards_posts]. Qed.

Lemma refreshed_plays p : playsThisRound (refreshed p) = playsThisRound p.
Proof. destruct (refreshed_cases p) as [-> | ->]; [done|apply drawCards_plays]. Qed.

Lemma refreshed_totalPlays p : totalPlays (refreshed p) = totalPlays p.
Proof. destruct (refreshed_cases p) as [-> | ->]; [done|apply drawCards_totalPlays]. Qed.

(** ** The entries of [getAvailableCards] *)

Lemma postTops_entry i piles a :
  a ∈ postTops i piles ->
  av_source a = post
  /\ exists j pile, av_pileIndex a = Some (i + j)%nat /\ piles !! j = Some pile
                    /\ last pile = Some (av_card a).
Proof.
  revert i. induction piles as [|pile rest IH]; intros i; simpl.
  - intros H. by apply elem_of_nil in H.
  - assert (Hrest : a ∈ postTops (S i) rest ->
              av_source a = post
              /\ exists j pile0, av_pileIndex a = Some (i + j)%nat
                   /\ (pile :: rest) !! j = Some pile0 /\ last pile0 = Some (av_card a)).
    { intros H. destruct (IH _ H) as (Hs & j & pile0 & Hj & Hl & Ht).
      split; [done|]. exists (S j), pile0. split; [|done].
      rewrite Hj. f_equal. lia. }
    destruct (top pile) as [c|] eqn:Et; [|done].
    rewrite elem_of_cons. intros [->|H]; [|by apply Hrest].
    split; [done|]. exists 0%nat, pile. simpl. split; [|done]. f_equal. lia.
Qed.

Lemma revealedFrom_entry i rv a :
  a ∈ revealedFrom i rv ->
  av_source a = draw
  /\ exists k, av_drawIndex a = Some (i + k)%nat /\ rv !! k = Some (av_card a).
Proof.
  revert i. induction rv as [|c rest IH]; intros i; simpl.
  - intros H. by apply elem_of_nil in H.
  - rewrite elem_of_cons. intros [->|H].
    + split; [done|]. exists 0%nat. simpl. split; [|done]. f_equal. lia.
    + destruct (IH _ H) as (Hs & k & Hk & Hl). split; [done|].
      exists (S k). split; [|done]. rewrite Hk. f_equal. lia.
Qed.

Lemma getAvailableCards_entry p a : a ∈ getAvailableCards p -> EntryOf p a.
Proof.
  unfold getAvailableCards. rewrite !elem_of_app. intros [H|[H|H]].
  - unfold getTopBlitzCard, top in H.
    destruct (last (blitzPile p)) as [c|] eqn:El; [|by apply elem_of_nil in H].
    apply list_elem_of_singleton in H as ->. by apply entry_blitz.
  - apply postTops_entry in H as (Hs & j & pile & Hj & Hl & Ht).
    by eapply entry_post.
  - apply revealedFrom_entry in H as (Hs & k & Hk & Hl).
    by eapply entry_draw.
Qed.

Lemma removeCardFromSource_entry p q a :
  EntryOf p a -> length (postPiles q) = length (postPiles p) ->
  exists q', removeCardFromSource q (av_card a) (SrcObject a) = Some q'
             /\ name q' = name q.
Proof.
  intros Ha Hlen. unfold removeCardFromSource. simpl.
  destruct Ha as [Hs _|j pile Hs Hj Hl _|k Hs Hk _]; rewrite Hs.
  - by eexists.
  - rewrite Hj. simpl.
    assert (is_Some (postPiles q !! j)) as [pile' ->].
    { apply lookup_lt_is_Some. rewrite Hlen. by eapply lookup_lt_Some. }
    simpl. by eexists.
  - by eexists.
Qed.

Lemma entryBot_total p d g : is_Some (entryBot p d g).
Proof.
  unfold entryBot. destruct (getAvailableCards p) as [|a rest] eqn:E; [done|].
  assert (Ha : EntryOf p a).
  { apply getAvailableCards_entry. rewrite E. by left. }
  unfold playCard. destruct (negb _); [done|].
  destruct (removeCardFromSource_entry p p a Ha eq_refl) as (q' & -> & _). done.
Qed.

Lemma entryBot_name p d g b p' d' g' :
  entryBot p d g = Some (b, p', d', g') -> name p' = name p.
Proof.
  unfold entryBot. destruct (getAvailableCards p) as [|a rest] eqn:E.
  - intros H. by inversion H.
  - assert (Ha : EntryOf p a).
    { apply getAvailableCards_entry. rewrite E. by left. }
    unfold playCard. destruct (negb _).
    + intros H. by inversion H.
    + destruct (removeCardFromSource_entry p p a Ha eq_refl) as (q' & -> & Hn).
      simpl. intros H. inversion H; subst. done.
Qed.

(** ** A placement made with the entry object *)

Lemma removelast_push (l : list Card) c : last l = Some c -> removelast l ++ [c] = l.
Proof. intros H. apply last_Some in H as [l' ->]. by rewrite removelast_last. Qed.

Lemma dutchCards_push_perm d c :
  dutchCards (setDutchPile d (color c) (push (dutchPile d (color c)) c))
  ≡ₚ c :: dutchCards d.
Proof. unfold dutchCards, push. destruct (color c); simpl; solve_Permutation. Qed.

Lemma concat_insert_pushed (l : list (list Card)) i x c :
  l !! i = Some x -> concat (<[i := push x c]> l) ≡ₚ c :: concat l.
Proof.
  revert i. induction l as [|y rest IH]; intros i Hi; [done|].
  destruct i as [|i]; simpl in *.
  - inversion Hi; subst. unfold push. solve_Permutation.
  - rewrite (IH i Hi). solve_Permutation.
Qed.

Lemma concat_insert_popped (l : list (list Card)) i x c :
  l !! i = Some x -> last x = Some c ->
  c :: concat (<[i := removelast x]> l) ≡ₚ concat l.
Proof.
  revert i. induction l as [|y rest IH]; intros i Hi Hc; [done|].
  destruct i as [|i]; simpl in *.
  - inversion Hi; subst. rewrite <- (removelast_push x c Hc) at 2. solve_Permutation.
  - rewrite <- (IH i Hi Hc). solve_Permutation.
Qed.

(** The removal [removeCardFromSource] performs when it is given the entry
    object: the entry's card leaves the hand. *)
Lemma removeCardFromSource_takes p q a q' :
  EntryOf p a ->
  blitzPile q = blitzPile p -> drawRevealed q = drawRevealed p ->
  (forall j pile, av_source a = post -> av_pileIndex a = Some j ->
                  postPiles p !! j = Some pile -> postPiles q !! j = Some pile) ->
  removeCardFromSource q (av_card a) (SrcObject a) = Some q' ->
  av_card a :: handCards q' ≡ₚ handCards q.
Proof.
  intros Ha Hb Hr Hpost. unfold removeCardFromSource. simpl.
  destruct Ha as [Hs Hl|j pile Hs Hj Hl Hc|k Hs Hk Hl]; rewrite Hs.
  - intros H; inversion H; subst; clear H. unfold handCards. simpl.
    rewrite <- Hb in Hl. rewrite <- (removelast_push _ _ Hl) at 2. solve_Permutation.
  - rewrite Hj. simpl. rewrite (Hpost j pile Hs Hj Hl). simpl.
    intros H; inversion H; subst; clear H. unfold handCards. simpl.
    rewrite <- (concat_insert_popped (postPiles q) j pile (av_card a));
      [solve_Permutation|by apply Hpost|done].
  - rewrite Hk. simpl. intros H; inversion H; subst; clear H.
    unfold handCards. simpl. rewrite <- Hr in Hl.
    rewrite (delete_Permutation (drawRevealed q) k (av_card a) Hl) at 2.
    solve_Permutation.
Qed.

(** X20: given the entry object of an available card, [playCard] relocates
    the card, whether it accepts it or not: the hand's piles and the Dutch piles together hold the same cards
    afterwards. *)
Lemma playCard_entry_conserves p a d dest ok p' d' :
  a ∈ getAvailableCards p ->
  playCard p (av_card a) (SrcObject a) d dest = Some (ok, p', d') ->
  handCards p' ++ dutchCards d' ≡ₚ handCards p ++ dutchCards d.
Proof.
  intros Hin. apply getAvailableCards_entry in Hin. unfold playCard.
  destruct dest as [i|].
  - destruct (postPiles p !! i) as [target|] eqn:Ei; simpl; [|done].
    destruct (canPostOn (av_card a) (top target)) eqn:Ec; simpl.
    + set (p1 := set_postPiles p (<[i:=push target (av_card a)]> (postPiles p))).
      destruct (removeCardFromSource p1 (av_card a) (SrcObject a)) as [q|] eqn:Er;
        simpl; [|done].
      intros H; inversion H; subst; clear H.
      apply removeCardFromSource_takes with (p := p) in Er; [|done..|].
      * change (handCards (countPlay q)) with (handCards q).
        apply (Permutation_cons_inv (a := av_card a)).
        rewrite app_comm_cons, Er. unfold p1, handCards. simpl.
        rewrite (concat_insert_pushed _ _ _ _ Ei). solve_Permutation.
      * intros j pile Hs Hj Hl. unfold p1. simpl.
        destruct (decide (i = j)) as [->|Hne]; [|by rewrite list_lookup_insert_ne].
        exfalso. rewrite Hl in Ei. inversion Ei; subst.
        destruct Hin as [Hs' _|j' pile' _ Hj' Hl' Hc|k Hs' _ _]; try congruence.
        rewrite Hj in Hj'. inversion Hj'; subst. rewrite Hl in Hl'. inversion Hl'; subst.
        unfold top in Ec. rewrite Hc in Ec. simpl in Ec.
        apply Z.eqb_eq in Ec. lia.
    + intros H; by inversion H.
  - destruct (canPlayOn (av_card a) (top (dutchPile d (color (av_card a))))); simpl.
    + destruct (removeCardFromSource p (av_card a) (SrcObject a)) as [q|] eqn:Er;
        simpl; [|done].
      intros H; inversion H; subst; clear H.
      apply removeCardFromSource_takes with (p := p) in Er; [|done..].
      change (handCards (countPlay q)) with (handCards q).
      rewrite dutchCards_push_perm, <- Er. solve_Permutation.
    + intros H; by inversion H.
Qed.

(** ** What a placement does to the cards *)

Lemma concat_insert_push (piles : list (list Card)) i pile c :
  piles !! i = Some pile ->
  length (concat (<[i := push pile c]> piles)) = S (length (concat piles)).
Proof.
  revert i. induction piles as [|x rest IH]; intros i Hi; [done|].
  destruct i as [|i]; simpl in *.
  - inversion Hi; subst. unfold push. rewrite !length_app. simpl. lia.
  - rewrite !length_app, (IH i Hi). lia.
Qed.

Lemma dutchCards_push d c :
  length (dutchCards (setDutchPile d (color c) (push (dutchPile d (color c)) c)))
  = S (length (dutchCards d)).
Proof.
  unfold dutchCards, push. destruct (color c); simpl; rewrite !length_app; simpl; lia.
Qed.


(** C1, evaluated: the first bot move of a freshly dealt hand.  The hand
    holds its 40 cards before the move; after it the hand holds 41, the
    blue 3 being both on a post pile and still among the revealed cards. *)
Lemma first_move_duplicates_a_card :
  match players freshRound.1 !! 0%nat with
  | Some p =>
      handCards p ≡ₚ freshDeck
      /\ match makeMove p (dutchPiles freshRound.1) freshRound.2 with
         | Some (ok, p', d', _) =>
             ok = true /\ dutchCards d' = []
             /\ length (handCards p') = 41%nat
             /\ postPiles p' = [[mkCard 3 blue]; []; []]
             /\ drawRevealed p' = drawRevealed p
             /\ mkCard 3 blue ∈ drawRevealed p'
         | None => False
         end
  | None => False
  end.
Proof.
  assert (match players freshRound.1 !! 0%nat with
          | Some p =>
              bool_decide (handCards p ≡ₚ freshDeck)
              && match makeMove p (dutchPiles freshRound.1) freshRound.2 with
                 | Some (ok, p', d', _) =>
                     ok
                     && bool_decide (dutchCards d' = [])
                     && bool_decide (length (handCards p') = 41%nat)
                     && bool_decide (postPiles p' = [[mkCard 3 blue]; []; []])
                     && bool_decide (drawRevealed p' = drawRevealed p)
                     && bool_decide (mkCard 3 blue ∈ drawRevealed p')
                 | None => false
                 end
          | None => false
          end = true) as Hc by (vm_compute; reflexivity).
  destruct (players freshRound.1 !! 0%nat) as [p|]; [|discriminate Hc].
  apply andb_true_iff in Hc as [Hperm Hc]. apply bool_decide_eq_true in Hperm.
  split; [exact Hperm|].
  destruct (makeMove p (dutchPiles freshRound.1) freshRound.2) as [[[[ok p'] d'] g']|];
    [|discriminate Hc].
  repeat (apply andb_true_iff in Hc as [Hc ?]).
  repeat match goal with H : bool_decide _ = true |- _ => apply bool_decide_eq_true in H end.
  destruct ok; [|discriminate Hc]. done.
Qed.

(** ** The last Blitz card *)

(** C9, evaluated on the hand of the example, a lone red 1 on the Blitz
    pile over empty Dutch piles.  An aggressive bot scores the placement of
    that card on the red Dutch pile 330, not 480: the bonuses for a Blitz
    source are never added.  It plays the card, after which the card is on
    the Dutch pile and still on the Blitz pile; the player has not won, and
    the [playTurn] call returns with the round running and no winner.  With
    a blue 1 revealed as well, the two placements tie at 330; a balanced bot
    whose random draw favours the blue 1 plays that one instead. *)
Lemma last_blitz_card_stays :
  priorities (candidates (lastCardHand "Bot 1" aggressive []) noDutch zeroRng)
  = [(330, 1%positive); (50, 1%positive); (50, 1%positive); (50, 1%positive)]
  /\ match makeMove (lastCardHand "Bot 1" aggressive []) noDutch zeroRng with
     | Some (ok, p', d', _) =>
         ok = true /\ dutchPile d' red = [mkCard 1 red]
         /\ blitzPile p' = [mkCard 1 red] /\ hasWon p' = false
     | None => False
     end
  /\ match botTurn 5000 (table [lastCardHand "Bot 1" aggressive []]) zeroRng with
     | Some (ret, t) =>
         ret = true /\ gameActive (t_game t) = true /\ winner (t_game t) = None
         /\ map blitzPile (players (t_game t)) = [[mkCard 1 red]]
     | None => False
     end
  /\ priorities (candidates (lastCardHand "Bot 1" aggressive [mkCard 1 blue]) noDutch zeroRng)
     = [(330, 1%positive); (50, 1%positive); (50, 1%positive); (50, 1%positive);
        (330, 1%positive); (50, 1%positive); (50, 1%positive); (50, 1%positive)]
  /\ match makeMove (lastCardHand "Bot 1" balanced [mkCard 1 blue]) noDutch
                    (mkRng fifthHalf 0) with
     | Some (ok, p', d', _) =>
         ok = true /\ dutchPile d' red = [] /\ dutchPile d' blue = [mkCard 1 blue]
         /\ blitzPile p' = [mkCard 1 red]
     | None => False
     end.
Proof. vm_compute. repeat split; reflexivity. Qed.

(** ** Ending a round *)

Lemma updateStats_inv s s' :
  updateStats s = Some s' -> exists st, s' = set_gameStats s st.
Proof.
  unfold updateStats. intros H.
  destruct (updatePlayerStats _ _ _) as [stats|]; simpl in H; [|done].
  inversion H. by eexists.
Qed.

Lemma endRound_inv now w s s' :
  endRound now w s = Some s' ->
  gameActive s' = false /\ winner s' = w /\ dutchPiles s' = dutchPiles s
  /\ moveCount s' = moveCount s /\ length (players s') = length (players s)
  /\ roundDuration s' = elapsedSeconds now (roundStartTime s).
Proof.
  unfold endRound. intros H. apply updateStats_inv in H as [st ->]. simpl.
  repeat split; try done.
  destruct w as [i|]; [|done]. destruct (players s !! i); [|done].
  by rewrite length_insert.
Qed.

(** ** Statistics *)

Lemma table_registered ps : registered (table ps).
Proof.
  intros p Hp. simpl.
  destruct (list_to_map (M := gmap string PlayerStats) _ !! name p) eqn:E; [done|].
  apply not_elem_of_list_to_map in E. exfalso. apply E.
  apply list_elem_of_fmap. exists (name p, mkPlayerStats 0 0 0). split; [done|].
  apply (list_elem_of_fmap_2 (fun p => (name p, mkPlayerStats 0 0 0))). done.
Qed.


Lemma updatePlayerStats_other ps n (stats stats' : gmap string PlayerStats) k :
  updatePlayerStats ps n stats = Some stats' -> k ∉ map name ps ->
  stats' !! k = stats !! k.
Proof.
  revert stats. induction ps as [|p rest IH]; intros stats; simpl.
  - intros H _. by inversion H.
  - destruct (stats !! name p) as [old|]; simpl; [|done].
    intros H Hk. rewrite not_elem_of_cons in Hk. destruct Hk as [Hne Hk].
    rewrite (IH _ H Hk). by rewrite lookup_insert_ne.
Qed.

Lemma updatePlayerStats_lookup ps n (stats stats' : gmap string PlayerStats) p :
  updatePlayerStats ps n stats = Some stats' -> NoDup (map name ps) -> p ∈ ps ->
  stats' !! name p
  = Some (mkPlayerStats (wins p) (totalPlays p)
            (Math_round (inject_Z (totalPlays p) / inject_Z n))).
Proof.
  revert stats. induction ps as [|q rest IH]; intros stats; simpl.
  - intros _ _ H. by apply elem_of_nil in H.
  - destruct (stats !! name q) as [old|]; simpl; [|done].
    intros H Hnd Hp. apply NoDup_cons in Hnd as [Hq Hnd].
    apply elem_of_cons in Hp as [->|Hp].
    + rewrite (updatePlayerStats_other _ _ _ _ _ H Hq). by rewrite lookup_insert_eq.
    + by eapply IH.
Qed.

Lemma updatePlayerStats_total ps n (stats : gmap string PlayerStats) :
  (forall p, p ∈ ps -> is_Some (stats !! name p)) ->
  is_Some (updatePlayerStats ps n stats).
Proof.
  revert stats. induction ps as [|q rest IH]; intros stats Hreg; simpl; [done|].
  destruct (Hreg q) as [old ->]; [by left|]. simpl. apply IH.
  intros p Hp. destruct (decide (name q = name p)) as [->|Hne].
  - rewrite lookup_insert_eq. done.
  - rewrite lookup_insert_ne by done. apply Hreg. by right.
Qed.

(** [Math.round] gives the integer nearest to its argument, the upper one
    at a tie. *)
Lemma Math_round_nearest x :
  (inject_Z (Math_round x) - (1 # 2) <= x)%Q /\ (x < inject_Z (Math_round x) + (1 # 2))%Q.
Proof.
  unfold Math_round. pose proof (Qfloor_le (x + (1 # 2))) as Hlo.
  pose proof (Qlt_floor (x + (1 # 2))) as Hhi.
  rewrite inject_Z_plus in Hhi. change (inject_Z 1) with 1%Q in Hhi.
  split; lra.
Qed.

(** A game after two rounds that lasted 10 and 20 seconds. *)
Lemma two_rounds_average :
  let s0 := (newGame 4 (mkRng lcg 0)).1 in
  let s1 := (startNewRound 1000 s0 (mkRng lcg 100)).1 in
  exists s2 s4,
    endRound 11000 None s1 = Some s2
    /\ roundDuration s2 = 10 /\ averageRoundDuration (gameStats s2) = 10
    /\ endRound 70000 None (startNewRound 50000 s2 (mkRng lcg 200)).1 = Some s4
    /\ roundDuration s4 = 20 /\ averageRoundDuration (gameStats s4) = 15.
Proof.
  assert (match endRound 11000 None
                  (startNewRound 1000 (newGame 4 (mkRng lcg 0)).1 (mkRng lcg 100)).1 with
          | Some s2 =>
              bool_decide (roundDuration s2 = 10)
              && bool_decide (averageRoundDuration (gameStats s2) = 10)
              && match endRound 70000 None
                         (startNewRound 50000 s2 (mkRng lcg 200)).1 with
                 | Some s4 =>
                     bool_decide (roundDuration s4 = 20)
                     && bool_decide (averageRoundDuration (gameStats s4) = 15)
                 | None => false
                 end
          | None => false
          end = true) as Hc by (vm_compute; reflexivity).
  intros s0 s1. subst s0 s1.
  destruct (endRound 11000 None _) as [s2|]; [|discriminate Hc].
  apply andb_true_iff in Hc as [H2 Hc]. apply andb_true_iff in H2 as [Hd2 H2].
  apply bool_decide_eq_true in H2. apply bool_decide_eq_true in Hd2.
  exists s2.
  destruct (endRound 70000 None _) as [s4|]; [|discriminate Hc].
  apply andb_true_iff in Hc as [Hd4 H4].
  apply bool_decide_eq_true in H4. apply bool_decide_eq_true in Hd4. by exists s4.
Qed.

Lemma updateStats_total s : registered s -> is_Some (updateStats s).
Proof.
  intros Hreg. unfold updateStats.
  destruct (updatePlayerStats_total (players s) (totalGames (gameStats s) + 1)
              (playerStats (gameStats s)) Hreg) as [stats ->].
  done.
Qed.

(** C8: on a game whose players have their statistics entries the
    statistics update returns; it adds one to [totalGames]; with [n] the new
    [totalGames], the new average round duration is
    [round((prevAvg * (n - 1) + roundDuration) / n)], and every player's
    entry gets that player's wins and total plays and the average
    [round(totalPlays / n)], [round] being the nearest integer (the upper
    one at a tie); two rounds of 10 and 20 seconds give the averages 10 and
    then 15. *)
Theorem updateStats_spec :
  (forall s, registered s ->
     exists s', updateStats s = Some s'
     /\ let n := totalGames (gameStats s) + 1 in
        totalGames (gameStats s') = n
        /\ averageRoundDuration (gameStats s')
           = Math_round (inject_Z (averageRoundDuration (gameStats s) * (n - 1)
                                   + roundDuration s) / inject_Z n)
        /\ (NoDup (map name (players s)) ->
            forall p, p ∈ players s ->
              playerStats (gameStats s') !! name p
              = Some (mkPlayerStats (wins p) (totalPlays p)
                        (Math_round (inject_Z (totalPlays p) / inject_Z n)))))
  /\ (forall x,
        (inject_Z (Math_round x) - (1 # 2) <= x)%Q
        /\ (x < inject_Z (Math_round x) + (1 # 2))%Q)
  /\ (let s0 := (newGame 4 (mkRng lcg 0)).1 in
      let s1 := (startNewRound 1000 s0 (mkRng lcg 100)).1 in
      exists s2 s4,
        endRound 11000 None s1 = Some s2
        /\ roundDuration s2 = 10 /\ averageRoundDuration (gameStats s2) = 10
        /\ endRound 70000 None (startNewRound 50000 s2 (mkRng lcg 200)).1 = Some s4
        /\ roundDuration s4 = 20 /\ averageRoundDuration (gameStats s4) = 15).
Proof.
  split; [|split; [apply Math_round_nearest|apply two_rounds_average]].
  intros s Hreg. destruct (updateStats_total s Hreg) as [s' H].
  exists s'. split; [done|]. intros n. unfold updateStats in H. fold n in H.
  destruct (updatePlayerStats (players s) n (playerStats (gameStats s)))
    as [stats|] eqn:Es; simpl in H; [|done].
  inversion H; subst; clear H. simpl. split; [done|]. split; [done|].
  intros Hnd p Hp. by eapply updatePlayerStats_lookup.
Qed.

Lemma updateStats_spec_witness :
  exists s', updateStats exhaustedTable = Some s'
    /\ totalGames (gameStats s') = 1
    /\ playerStats (gameStats s') !! "Bot 2" = Some (mkPlayerStats 0 0 0).
Proof.
  destruct (proj1 updateStats_spec exhaustedTable (table_registered _))
    as (s' & E & Hn & _ & Hp).
  exists s'. split; [exact E|]. split; [exact Hn|].
  assert (Hnd : NoDup (map name (players exhaustedTable))).
  { apply (bool_decide_eq_true_1 (NoDup (map name (players exhaustedTable)))).
    vm_compute. reflexivity. }
  assert (Hin : exhaustedHand "Bot 2" ∈ players exhaustedTable).
  { right. left. }
  exact (Hp Hnd _ Hin).
Defined.

(** ** The driver's loops *)

Lemma sameRound_refl s : sameRound s s.
Proof. by repeat split. Qed.

Lemma sameRound_trans s1 s2 s3 : sameRound s1 s2 -> sameRound s2 s3 -> sameRound s1 s3.
Proof. unfold sameRound. intros (?&?&?&?&?) (?&?&?&?&?). repeat split; congruence. Qed.

Lemma Progress_refl t : Progress 0 t t.
Proof.
  split; [apply sameRound_refl|]. split; [|lia].
  exists []. rewrite app_nil_r. simpl. by rewrite orb_false_r.
Qed.

Lemma Progress_trans a b t1 t2 t3 :
  Progress a t1 t2 -> Progress b t2 t3 -> Progress (a + b) t1 t3.
Proof.
  intros (Hs1 & (e1 & Hl1 & Hq1 & Hm1) & Hv1) (Hs2 & (e2 & Hl2 & Hq2 & Hm2) & Hv2).
  split; [by eapply sameRound_trans|]. split; [|lia].
  exists (e1 ++ e2). split; [by rewrite Hl2, Hl1, app_assoc|].
  split; [by apply Forall_app|].
  by rewrite Hm2, Hm1, existsb_app, orb_assoc.
Qed.

Lemma Progress_weaken a b t1 t2 : (a <= b)%nat -> Progress a t1 t2 -> Progress b t1 t2.
Proof. intros Hab (Hs & Hl & Hv). split; [done|]. split; [done|lia]. Qed.

Lemma Progress_Finish now a t1 t2 t3 :
  Progress a t1 t2 -> Finish now t2 t3 -> Finish now t1 t3.
Proof.
  intros (Hs1 & (e1 & Hl1 & Hq1 & Hm1) & Hv1) (e2 & ev & Hl2 & Hq2 & Hw & He).
  exists (e1 ++ e2), ev. split; [by rewrite Hl2, Hl1, !app_assoc|].
  split; [by apply Forall_app|]. done.
Qed.

Lemma flowOk_after now a b t1 t2 f :
  Progress a t1 t2 -> flowOk now b t2 f -> flowOk now (a + b) t1 f.
Proof.
  intros H12. destruct f as [t3|ret t3]; simpl.
  - by apply Progress_trans.
  - intros [-> Hf]. split; [done|]. by eapply Progress_Finish.
Qed.

Section RoundFacts.

Variable bot : Bot.
Variable now : Z.

(** A move attempt either ends the round by a win, or adds one invocation
    to the log and nothing else that the turn keeps track of. *)
Lemma tryMove_spec i t st :
  tryMove bot now i t = Some st ->
  match st with
  | StepWon t' => Finish now t t'
  | StepMade t' => Progress 0 t t' /\ anyPlayerMoved t' = true
  | StepFailed t' => Progress 0 t t'
  end.
Proof.
  unfold tryMove. destruct (players (t_game t) !! i) as [p|] eqn:Ep; simpl; [|done].
  destruct (bot p (dutchPiles (t_game t)) (t_rng t)) as [[[[made p'] d'] g']|]; [|done].
  assert (Hlook : <[i:=p']> (players (t_game t)) !! i = Some p').
  { apply list_lookup_insert_eq. by eapply lookup_lt_Some. }
  destruct made.
  - destruct (hasWon p') eqn:Ew.
    + destruct (endRound _ _ _) as [s3|] eqn:Ee; simpl; [|done].
      intros H; inversion H; subst; clear H.
      exists [], (mkEvent i true p
        (set_moveCount (set_table (t_game t) (<[i:=p']> (players (t_game t))) d')
           (moveCount (set_table (t_game t) (<[i:=p']> (players (t_game t))) d') + 1))).
      simpl. split; [done|]. split; [constructor|]. split; [|done].
      unfold ev_won. simpl. by rewrite Hlook.
    + intros H; inversion H; subst; clear H. split; [|done].
      split; [|split].
      * repeat split; simpl; try done. by rewrite length_insert.
      * eexists [_]. simpl. split; [done|]. split; [|by rewrite orb_true_r].
        constructor; [|constructor]. unfold ev_won. simpl. by rewrite Hlook.
      * simpl. lia.
  - intros H; inversion H; subst; clear H.
    split; [|split].
    + repeat split; simpl; try done. by rewrite length_insert.
    + eexists [_]. simpl. split; [done|]. split; [|by rewrite !orb_false_r].
      constructor; [|constructor]. done.
    + simpl. lia.
Qed.

Lemma drawAttempts_spec n i t f :
  drawAttempts bot now n i t = Some f -> flowOk now 1 t f.
Proof.
  revert t f. induction n as [|n IH]; intros t f; simpl.
  - intros H; inversion H; subst. simpl. apply Progress_weaken with 0%nat; [lia|].
    apply Progress_refl.
  - destruct (players (t_game t) !! i) as [p|] eqn:Ep; simpl; [|done].
    destruct (drawCards p) as [drew p'].
    set (t1 := mkTurn _ _ _ _ _).
    assert (H01 : Progress 0 t t1).
    { split; [|split].
      - repeat split; simpl; try done. by rewrite length_insert.
      - exists []. simpl. rewrite app_nil_r, orb_false_r. done.
      - simpl. lia. }
    destruct drew.
    + destruct (tryMove bot now i t1) as [st|] eqn:Et; simpl; [|done].
      apply tryMove_spec in Et. destruct st as [t2|t2|t2].
      * intros H; inversion H; subst. apply (flowOk_after now 0 1 t t1); [done|].
        simpl. done.
      * intros H; inversion H; subst. destruct Et as [Et _].
        apply (Progress_trans 0 1 t t1); [done|]. by apply Progress_weaken with 0%nat; [lia|].
      * intros H. apply IH in H.
        apply (flowOk_after now 0 1 t t2); [|done].
        by apply (Progress_trans 0 0 t t1).
    + intros H; inversion H; subst. simpl.
      destruct H01 as (Hs & Hl & Hv). split; [done|]. split; [done|]. simpl in *. lia.
Qed.

#[local] Arguments drawAttempts : simpl never.

Lemma moveLoop_spec rem m i t f :
  moveLoop bot now rem m i t = Some f -> flowOk now 1 t f.
Proof.
  revert m t f. induction rem as [|rem IH]; intros m t f; simpl.
  - intros H; inversion H; subst. simpl. apply Progress_weaken with 0%nat; [lia|].
    apply Progress_refl.
  - destruct ((m <? 3)%nat && gameActive (t_game t)).
    + destruct (tryMove bot now i t) as [st|] eqn:Et; simpl; [|done].
      apply tryMove_spec in Et. destruct st as [t1|t1|t1].
      * intros H; inversion H; subst. simpl. done.
      * intros H. apply IH in H. destruct Et as [Et _].
        by apply (flowOk_after now 0 1 t t1).
      * intros H. apply drawAttempts_spec in H.
        by apply (flowOk_after now 0 1 t t1).
    + intros H; inversion H; subst. simpl. apply Progress_weaken with 0%nat; [lia|].
      apply Progress_refl.
Qed.

#[local] Arguments moveLoop : simpl never.

Lemma eachPlayer_spec n i t f :
  eachPlayer bot now n i t = Some f -> flowOk now n t f.
Proof.
  revert i t f. induction n as [|n IH]; intros i t f; simpl.
  - intros H; inversion H; subst. simpl. apply Progress_refl.
  - destruct (players (t_game t) !! i) as [p|]; simpl; [|done].
    destruct (gameActive (t_game t) && negb (hasWon p)).
    + destruct (moveLoop bot now maxAttempts 0 i t) as [f1|] eqn:Em; simpl; [|done].
      apply moveLoop_spec in Em. destruct f1 as [t1|ret t1].
      * intros H. apply IH in H. by apply (flowOk_after now 1 n t t1).
      * intros H; inversion H; subst. simpl in *. done.
    + intros H. apply IH in H. apply (flowOk_after now 1 n t t); [|done].
      apply Progress_weaken with 0%nat; [lia|]. apply Progress_refl.
Qed.

End RoundFacts.

(** ** A whole turn *)

Section TurnFacts.

Variable bot : Bot.
Variable now : Z.

(** The three ways a [playTurn] call on an active round comes out: a win
    inside the loops, a stalemate after them, or a plain return. *)
Lemma playTurn_cases s g ret t :
  gameActive s = true -> playTurn bot now s g = Some (ret, t) ->
  (ret = true /\ Finish now (mkTurn s g false 0 []) t)
  \/ (exists t1,
        Progress (length (players s)) (mkTurn s g false 0 []) t1
        /\ t_log t = t_log t1 /\ staleMateCounter t = staleMateCounter t1
        /\ anyPlayerMoved t = anyPlayerMoved t1
        /\ ((anyPlayerMoved t1 = false
             /\ (length (players s) <= staleMateCounter t1)%nat
             /\ ret = true
             /\ endRound now None
                  (set_roundDuration (t_game t1)
                     (elapsedSeconds now (roundStartTime (t_game t1))))
                = Some (t_game t))
            \/ ((anyPlayerMoved t1 = true
                 \/ (staleMateCounter t1 < length (players s))%nat)
                /\ ret = anyPlayerMoved t1
                /\ t_game t
                   = set_roundDuration (t_game t1)
                       (elapsedSeconds now (roundStartTime (t_game t1)))))).
Proof.
  intros Ha. unfold playTurn. rewrite Ha. simpl.
  destruct (eachPlayer bot now (length (players s)) 0 _) as [f|] eqn:Ef; simpl; [|done].
  apply eachPlayer_spec in Ef. destruct f as [t1|r t1]; simpl in Ef.
  - assert (Hn : length (players (t_game t1)) = length (players s)).
    { destruct Ef as ((_&_&_&_&Hlen) & _). done. }
    rewrite Hn.
    destruct (anyPlayerMoved t1) eqn:Em; simpl.
    + intros H; inversion H; subst. right. exists t1. simpl.
      repeat (split; [done|]). right. by repeat split; [left|..].
    + destruct (length (players s) <=? staleMateCounter t1)%nat eqn:Ev.
      * apply Nat.leb_le in Ev.
        destruct (endRound now None _) as [s2|] eqn:Ee; simpl; [|done].
        intros H; inversion H; subst. right. exists t1. simpl.
        repeat (split; [done|]). left. done.
      * apply Nat.leb_gt in Ev.
        intros H; inversion H; subst. right. exists t1. simpl.
        repeat (split; [done|]). right. by repeat split; [right|..].
  - destruct Ef as [-> Hf]. intros H; inversion H; subst. by left.
Qed.

Lemma quiet_then_won (evs pre post : list Event) e ev :
  Forall (fun ev => ev_won ev = false) evs ->
  evs ++ [e] = pre ++ ev :: post -> ev_won ev = true ->
  post = [] /\ ev = e.
Proof.
  intros Hq Heq Hw. destruct post as [|x post _] using rev_ind.
  - apply app_inj_tail in Heq as [_ ->]. done.
  - rewrite app_comm_cons, app_assoc in Heq. apply app_inj_tail in Heq as [-> _].
    rewrite Forall_app, Forall_cons in Hq. destruct Hq as (_ & Hq & _). congruence.
Qed.

(** An invocation that returned true and left its player's Blitz pile
    empty is the last thing the call did: no invocation follows it, the call
    returned true, and the game is what [endRound] made, with that player as
    winner, of the game as the invocation left it. *)
Lemma won_event_is_last s g ret t pre ev post :
  gameActive s = true -> playTurn bot now s g = Some (ret, t) ->
  t_log t = pre ++ ev :: post -> ev_won ev = true ->
  post = [] /\ ret = true
  /\ endRound now (Some (ev_player ev)) (ev_game ev) = Some (t_game t)
  /\ gameActive (t_game t) = false /\ winner (t_game t) = Some (ev_player ev).
Proof.
  intros Ha Hp Hl Hw.
  destruct (playTurn_cases s g ret t Ha Hp) as [[-> Hf]|(t1 & Hpr & Hlog & _)].
  - destruct Hf as (evs & e & Hlf & Hq & Hwe & He). simpl in Hlf.
    rewrite Hl in Hlf. symmetry in Hlf.
    destruct (quiet_then_won _ _ _ _ _ Hq Hlf Hw) as [-> ->].
    split; [done|]. split; [done|]. split; [done|].
    apply endRound_inv in He as (? & ? & _). done.
  - exfalso. destruct Hpr as (_ & (evs & Hle & Hq & _) & _). simpl in Hle.
    rewrite Hlog, Hle in Hl. rewrite Hl in Hq.
    rewrite Forall_app, Forall_cons in Hq. destruct Hq as (_ & Hq & _). congruence.
Qed.

Lemma existsb_quiet_won (evs : list Event) e :
  ev_won e = true -> existsb ev_result (evs ++ [e]) = true.
Proof.
  intros Hw. rewrite existsb_app. simpl. unfold ev_won in Hw.
  apply andb_true_iff in Hw as [-> _]. by rewrite orb_true_r.
Qed.

(** The call ends the round as a stalemate exactly when no invocation
    returned true and every player voted. *)
Lemma stalemate_when s g ret t :
  gameActive s = true -> playTurn bot now s g = Some (ret, t) ->
  (gameActive (t_game t) = false /\ winner (t_game t) = None /\ ret = true)
  <-> (existsb ev_result (t_log t) = false
       /\ staleMateCounter t = length (players s)).
Proof.
  intros Ha Hp.
  destruct (playTurn_cases s g ret t Ha Hp)
    as [[-> Hf]|(t1 & Hpr & Hlog & Hvotes & _ & Hcase)].
  - destruct Hf as (evs & e & Hlf & Hq & Hwe & He). simpl in Hlf.
    apply endRound_inv in He as (_ & Hwin & _).
    split.
    + intros (_ & H & _). congruence.
    + intros (H & _). rewrite Hlf, (existsb_quiet_won _ _ Hwe) in H. done.
  - destruct Hpr as (Hsame & (evs & Hle & Hq & Hm) & Hv). simpl in *.
    rewrite Hlog, Hle, Hvotes.
    destruct Hcase as [(Hmoved & Hn & -> & He)|(Hnot & -> & Hg)].
    + apply endRound_inv in He as (Hact & Hwin & _).
      split; [|done]. intros _. split; [congruence|lia].
    + split.
      * intros (H & _). rewrite Hg in H. simpl in H.
        destruct Hsame as (Hact & _). simpl in Hact. congruence.
      * intros (H & Hn). destruct Hnot as [Hnot|Hnot]; [congruence|lia].
Qed.

(** A call that leaves the round active returns whether some invocation
    returned true. *)
Lemma result_when s g ret t :
  gameActive s = true -> playTurn bot now s g = Some (ret, t) ->
  gameActive (t_game t) = true ->
  ret = true <-> existsb ev_result (t_log t) = true.
Proof.
  intros Ha Hp Hstill.
  destruct (playTurn_cases s g ret t Ha Hp)
    as [[-> Hf]|(t1 & Hpr & Hlog & Hvotes & _ & Hcase)].
  - destruct Hf as (evs & e & _ & _ & _ & He).
    apply endRound_inv in He as (He & _). congruence.
  - destruct Hpr as (Hsame & (evs & Hle & Hq & Hm) & Hv). simpl in *.
    rewrite Hlog, Hle.
    destruct Hcase as [(_ & _ & _ & He)|(_ & -> & _)].
    + apply endRound_inv in He as (He & _). congruence.
    + by rewrite Hm.
Qed.

End TurnFacts.

(** ** A turn always returns *)

Lemma names_insert (ps : list Player) i p p' :
  ps !! i = Some p -> name p' = name p -> map name (<[i := p']> ps) = map name ps.
Proof.
  intros Hi Hn. rewrite list_fmap_insert, Hn. apply list_insert_id.
  by rewrite list_lookup_fmap, Hi.
Qed.

Lemma endRound_total now w s0 s :
  registered s0 -> sameNames s0 s -> is_Some (endRound now w s).
Proof.
  intros Hreg [Hn Hs]. unfold endRound, updateStats. simpl.
  set (ps := match w with Some i => _ | None => _ end).
  assert (Hps : map name ps = map name (players s0)).
  { subst ps. destruct w as [i|]; [|done].
    destruct (players s !! i) as [p|] eqn:Ei; [|done].
    by rewrite (names_insert _ _ p). }
  destruct (updatePlayerStats_total ps (totalGames (gameStats s) + 1)
              (playerStats (gameStats s))) as [stats ->]; [|done].
  intros p Hp. rewrite Hs.
  assert (name p ∈ map name (players s0)) as Hin.
  { rewrite <- Hps. apply list_elem_of_fmap. by exists p. }
  apply list_elem_of_fmap in Hin as (q & -> & Hq). by apply Hreg.
Qed.

Section Totality.

Variable bot : Bot.
Variable now : Z.
Hypothesis bot_total : forall p d g, is_Some (bot p d g).
Hypothesis bot_name : forall p d g b p' d' g',
  bot p d g = Some (b, p', d', g') -> name p' = name p.
Variable s0 : Game.
Hypothesis s0_registered : registered s0.

Lemma tryMove_total i t :
  sameNames s0 (t_game t) -> (i < length (players s0))%nat ->
  exists st, tryMove bot now i t = Some st
    /\ match st with
       | StepWon _ => True
       | StepMade t' | StepFailed t' => sameNames s0 (t_game t')
       end.
Proof.
  intros [Hn Hs] Hi. unfold tryMove.
  assert (is_Some (players (t_game t) !! i)) as [p Ep].
  { apply lookup_lt_is_Some. by rewrite <- (length_map name), Hn, length_map. }
  rewrite Ep. simpl.
  destruct (bot_total p (dutchPiles (t_game t)) (t_rng t)) as [[[[made p'] d'] g'] Eb].
  rewrite Eb. apply bot_name in Eb.
  assert (Hk : sameNames s0 (set_table (t_game t) (<[i:=p']> (players (t_game t))) d')).
  { split; [|done]. simpl. by rewrite (names_insert _ _ p). }
  destruct made.
  - destruct (hasWon p').
    + match goal with
      | |- context [endRound ?a ?b ?c] =>
          destruct (endRound_total a b s0 c s0_registered Hk) as [s3 ->]
      end.
      simpl. by eexists.
    + eexists. split; [done|]. done.
  - eexists. split; [done|]. done.
Qed.

Lemma drawAttempts_total n i t :
  sameNames s0 (t_game t) -> (i < length (players s0))%nat ->
  exists f, drawAttempts bot now n i t = Some f /\ flowNames s0 f.
Proof.
  revert t. induction n as [|n IH]; intros t Hk Hi; simpl.
  - by eexists.
  - assert (is_Some (players (t_game t) !! i)) as [p Ep].
    { destruct Hk as [Hn _]. apply lookup_lt_is_Some.
      by rewrite <- (length_map name), Hn, length_map. }
    rewrite Ep. simpl. pose proof (drawCards_name p) as Hname.
    destruct (drawCards p) as [drew p']. simpl in Hname.
    set (t1 := mkTurn _ _ _ _ _).
    assert (Hk1 : sameNames s0 (t_game t1)).
    { destruct Hk as [Hn Hs]. split; [|done]. simpl. by rewrite (names_insert _ _ p). }
    destruct drew.
    + destruct (tryMove_total i t1 Hk1 Hi) as (st & -> & Hst). simpl.
      destruct st as [t2|t2|t2].
      * by eexists.
      * by eexists.
      * by apply IH.
    + by eexists.
Qed.

#[local] Arguments drawAttempts : simpl never.

Lemma moveLoop_total rem m i t :
  sameNames s0 (t_game t) -> (i < length (players s0))%nat ->
  exists f, moveLoop bot now rem m i t = Some f /\ flowNames s0 f.
Proof.
  revert m t. induction rem as [|rem IH]; intros m t Hk Hi; simpl.
  - by eexists.
  - destruct ((m <? 3)%nat && gameActive (t_game t)); [|by eexists].
    destruct (tryMove_total i t Hk Hi) as (st & -> & Hst). simpl.
    destruct st as [t1|t1|t1].
    + by eexists.
    + by apply IH.
    + by apply drawAttempts_total.
Qed.

#[local] Arguments moveLoop : simpl never.

Lemma eachPlayer_total n i t :
  sameNames s0 (t_game t) -> (i + n <= length (players s0))%nat ->
  exists f, eachPlayer bot now n i t = Some f /\ flowNames s0 f.
Proof.
  revert i t. induction n as [|n IH]; intros i t Hk Hi; simpl.
  - by eexists.
  - assert (is_Some (players (t_game t) !! i)) as [p Ep].
    { destruct Hk as [Hn _]. apply lookup_lt_is_Some.
      rewrite <- (length_map name), Hn, length_map. lia. }
    rewrite Ep. simpl.
    destruct (gameActive (t_game t) && negb (hasWon p)).
    + destruct (moveLoop_total maxAttempts 0 i t Hk) as (f & -> & Hf); [lia|]. simpl.
      destruct f as [t1|ret t1]; [|by eexists].
      apply IH; [done|lia].
    + apply IH; [done|lia].
Qed.

(** With a statistics entry for every player and a bot that returns and
    keeps its player's name, [playTurn] returns. *)
Lemma playTurn_total g : is_Some (playTurn bot now s0 g).
Proof.
  unfold playTurn. destruct (gameActive s0); simpl; [|done].
  destruct (eachPlayer_total (length (players s0)) 0 (mkTurn s0 g false 0 []))
    as (f & -> & Hf); [done|simpl; lia|].
  simpl. destruct f as [t|ret t]; [|done].
  destruct (negb (anyPlayerMoved t) && _); [|done].
  match goal with
  | |- context [endRound ?a ?b ?c] =>
      destruct (endRound_total a b s0 c s0_registered) as [s2 ->]; [by destruct Hf|]
  end.
  done.
Qed.

End Totality.

(** The engine's [playTurn] returns on every game whose players have their
    statistics entries. *)
Lemma botTurn_total now s g : registered s -> is_Some (botTurn now s g).
Proof.
  intros Hreg. apply playTurn_total; [|apply makeMove_name|done].
  apply makeMove_total.
Qed.

(** ** What a turn returns *)

Lemma makeMove_wellBehaved : wellBehaved makeMove.
Proof. split; [apply makeMove_total|apply makeMove_name]. Qed.

Lemma entryBot_wellBehaved : wellBehaved entryBot.
Proof. split; [apply entryBot_total|apply entryBot_name]. Qed.

Lemma playTurn_returns bot now s g :
  wellBehaved bot -> registered s ->
  exists ret t, playTurn bot now s g = Some (ret, t).
Proof.
  intros [Ht Hn] Hreg.
  destruct (playTurn_total bot now Ht Hn s Hreg g) as [[ret t] E]. by exists ret, t.
Qed.

(** C2: a [playTurn] call on an active round returns, and an invocation of
    a player's move in it that returned true (every successful placement
    does) and left that player's Blitz pile empty is the last thing the call
    did: no invocation follows it, of that player or of a later one, the
    call returned true, and the game is what [endRound] made, with that
    player as winner, of the game as the invocation left it; the round is
    over and that player is the winner. *)
Theorem win_ends_turn bot now s g :
  wellBehaved bot -> registered s -> gameActive s = true ->
  exists ret t,
    playTurn bot now s g = Some (ret, t)
    /\ forall pre ev post,
         t_log t = pre ++ ev :: post -> ev_won ev = true ->
         post = [] /\ ret = true
         /\ endRound now (Some (ev_player ev)) (ev_game ev) = Some (t_game t)
         /\ gameActive (t_game t) = false /\ winner (t_game t) = Some (ev_player ev).
Proof.
  intros Hb Hreg Ha. destruct (playTurn_returns bot now s g Hb Hreg) as (ret & t & E).
  exists ret, t. split; [done|]. intros pre ev post. by apply (won_event_is_last bot now s g).
Qed.

Lemma win_ends_turn_witness :
  (exists ret t, botTurn 5000 lastCardTable zeroRng = Some (ret, t))
  /\ exists ret t,
       playTurn entryBot 5000 lastCardTable zeroRng = Some (ret, t)
       /\ ret = true /\ gameActive (t_game t) = false
       /\ winner (t_game t) = Some 0%nat.
Proof.
  assert (Ha : gameActive lastCardTable = true) by reflexivity.
  split.
  { destruct (win_ends_turn makeMove 5000 lastCardTable zeroRng makeMove_wellBehaved
                (table_registered _) Ha) as (ret & t & E & _).
    exists ret, t. exact E. }
  destruct (win_ends_turn entryBot 5000 lastCardTable zeroRng entryBot_wellBehaved
              (table_registered _) Ha) as (ret & t & E & H).
  assert (match playTurn entryBot 5000 lastCardTable zeroRng with
          | Some (_, t) =>
              match t_log t with
              | [ev] => ev_won ev && bool_decide (ev_player ev = 0%nat)
              | _ => false
              end
          | None => false
          end = true) as Hc by (vm_compute; reflexivity).
  rewrite E in Hc. exists ret, t. split; [exact E|].
  destruct (t_log t) as [|ev [|? ?]] eqn:Hl; [discriminate Hc| |discriminate Hc].
  apply andb_true_iff in Hc as [Hw Hi]. apply bool_decide_eq_true in Hi.
  destruct (H [] ev [] eq_refl Hw) as (_ & Hret & _ & Hact & Hwin).
  rewrite Hi in Hwin. repeat split; assumption.
Defined.

(** C3 as amended: a [playTurn] call on an active round returns, and it
    ends the round as a stalemate (round over, no winner, true returned)
    exactly when no invocation of a player's move returned true during the
    call, neither a placement nor a draw-cycle, and the stalemate votes
    equal the player count. *)
Theorem stalemate_iff bot now s g :
  wellBehaved bot -> registered s -> gameActive s = true ->
  exists ret t,
    playTurn bot now s g = Some (ret, t)
    /\ ((gameActive (t_game t) = false /\ winner (t_game t) = None /\ ret = true)
        <-> (existsb ev_result (t_log t) = false
             /\ staleMateCounter t = length (players s))).
Proof.
  intros Hb Hreg Ha. destruct (playTurn_returns bot now s g Hb Hreg) as (ret & t & E).
  exists ret, t. split; [done|]. by apply (stalemate_when bot now s g).
Qed.

Lemma stalemate_iff_witness :
  exists ret t,
    botTurn 5000 exhaustedTable zeroRng = Some (ret, t)
    /\ gameActive (t_game t) = false /\ winner (t_game t) = None /\ ret = true.
Proof.
  assert (Ha : gameActive exhaustedTable = true) by reflexivity.
  destruct (stalemate_iff makeMove 5000 exhaustedTable zeroRng makeMove_wellBehaved
              (table_registered _) Ha) as (ret & t & E & H).
  assert (match botTurn 5000 exhaustedTable zeroRng with
          | Some (_, t) =>
              negb (existsb ev_result (t_log t))
              && bool_decide (staleMateCounter t = length (players exhaustedTable))
          | None => false
          end = true) as Hc by (vm_compute; reflexivity).
  rewrite E in Hc. exists ret, t. split; [exact E|].
  apply andb_true_iff in Hc as [Hl Hv].
  apply negb_true_iff in Hl. apply bool_decide_eq_true in Hv.
  apply H. split; assumption.
Defined.

(** C3 as stated fails: in this call no card is placed and all four players
    cast their stalemate vote, yet the round goes on, because the first
    player cycled its draw pile once before it got stuck. *)
Lemma cycling_turn_not_stalemate :
  exists ret t,
    botTurn 5000 cyclingTable zeroRng = Some (ret, t)
    /\ ~ ((gameActive (t_game t) = false /\ winner (t_game t) = None /\ ret = true)
          <-> (placements (t_log t) = 0%nat
               /\ staleMateCounter t = length (players cyclingTable))).
Proof.
  assert (match botTurn 5000 cyclingTable zeroRng with
          | Some (_, t) =>
              gameActive (t_game t)
              && bool_decide (placements (t_log t) = 0%nat)
              && bool_decide (staleMateCounter t = length (players cyclingTable))
          | None => false
          end = true) as Hc by (vm_compute; reflexivity).
  destruct (botTurn 5000 cyclingTable zeroRng) as [[ret t]|] eqn:E;
    [|discriminate Hc].
  exists ret, t. split; [reflexivity|].
  apply andb_true_iff in Hc as [Hc Hv]. apply andb_true_iff in Hc as [Ha Hp].
  apply bool_decide_eq_true in Hv. apply bool_decide_eq_true in Hp.
  intros [_ H]. destruct H as [H _]; [split; assumption|]. congruence.
Qed.

(** C5 as amended: a [playTurn] call on an active round returns, and if it
    leaves the round active, the boolean it returns is true exactly when
    some invocation of a player's move returned true during the call, be it
    a placement or a draw-cycle. *)
Theorem turn_result_iff bot now s g :
  wellBehaved bot -> registered s -> gameActive s = true ->
  exists ret t,
    playTurn bot now s g = Some (ret, t)
    /\ (gameActive (t_game t) = true ->
        (ret = true <-> existsb ev_result (t_log t) = true)).
Proof.
  intros Hb Hreg Ha. destruct (playTurn_returns bot now s g Hb Hreg) as (ret & t & E).
  exists ret, t. split; [done|]. by apply (result_when bot now s g).
Qed.

Lemma turn_result_iff_witness :
  exists ret t,
    botTurn 5000 cyclingTable zeroRng = Some (ret, t)
    /\ gameActive (t_game t) = true /\ ret = true.
Proof.
  assert (Ha : gameActive cyclingTable = true) by reflexivity.
  destruct (turn_result_iff makeMove 5000 cyclingTable zeroRng makeMove_wellBehaved
              (table_registered _) Ha) as (ret & t & E & H).
  assert (match botTurn 5000 cyclingTable zeroRng with
          | Some (_, t) => gameActive (t_game t) && existsb ev_result (t_log t)
          | None => false
          end = true) as Hc by (vm_compute; reflexivity).
  rewrite E in Hc. exists ret, t. split; [exact E|].
  apply andb_true_iff in Hc as [Hact Hl]. split; [exact Hact|].
  apply (H Hact). exact Hl.
Defined.

(** ** A bot that leaves the Blitz pile alone never wins *)

Section NoWin.

Variable bot : Bot.
Variable now : Z.
Hypothesis bot_blitz : forall p d g b p' d' g',
  bot p d g = Some (b, p', d', g') -> blitzPile p' = blitzPile p.

Lemma tryMove_nowin i t st p :
  players (t_game t) !! i = Some p -> hasWon p = false ->
  tryMove bot now i t = Some st ->
  exists t' p', (st = StepMade t' \/ st = StepFailed t')
    /\ players (t_game t') !! i = Some p' /\ hasWon p' = false.
Proof.
  intros Ep Hw. unfold tryMove. rewrite Ep. simpl.
  destruct (bot p (dutchPiles (t_game t)) (t_rng t)) as [[[[made p'] d'] g']|] eqn:Eb;
    [|done].
  apply bot_blitz in Eb.
  assert (Hw' : hasWon p' = false) by (unfold hasWon in *; by rewrite Eb).
  assert (Hlook : <[i:=p']> (players (t_game t)) !! i = Some p').
  { apply list_lookup_insert_eq. by eapply lookup_lt_Some. }
  rewrite Hw'. destruct made; intros H; inversion H; subst; clear H.
  - eexists _, p'. split; [by left|]. done.
  - eexists _, p'. split; [by right|]. done.
Qed.

Lemma drawAttempts_nowin n i t f p :
  players (t_game t) !! i = Some p -> hasWon p = false ->
  drawAttempts bot now n i t = Some f -> exists t', f = Next t'.
Proof.
  revert t f p. induction n as [|n IH]; intros t f p Ep Hw; simpl.
  - intros H; inversion H. by eexists.
  - rewrite Ep. simpl. pose proof (drawCards_blitz p) as Hb.
    destruct (drawCards p) as [drew p']. simpl in Hb.
    set (t1 := mkTurn _ _ _ _ _).
    assert (Ep1 : players (t_game t1) !! i = Some p').
    { simpl. apply list_lookup_insert_eq. by eapply lookup_lt_Some. }
    assert (Hw1 : hasWon p' = false) by (unfold hasWon in *; by rewrite Hb).
    destruct drew.
    + destruct (tryMove bot now i t1) as [st|] eqn:Et; simpl; [|done].
      destruct (tryMove_nowin i t1 st p' Ep1 Hw1 Et) as (t2 & p2 & [->| ->] & Ep2 & Hw2).
      * intros H; inversion H. by eexists.
      * intros H. by eapply IH.
    + intros H; inversion H. by eexists.
Qed.

#[local] Arguments drawAttempts : simpl never.

Lemma moveLoop_nowin rem m i t f p :
  players (t_game t) !! i = Some p -> hasWon p = false ->
  moveLoop bot now rem m i t = Some f -> exists t', f = Next t'.
Proof.
  revert m t f p. induction rem as [|rem IH]; intros m t f p Ep Hw; simpl.
  - intros H; inversion H. by eexists.
  - destruct ((m <? 3)%nat && gameActive (t_game t)).
    + destruct (tryMove bot now i t) as [st|] eqn:Et; simpl; [|done].
      destruct (tryMove_nowin i t st p Ep Hw Et) as (t1 & p1 & [->| ->] & Ep1 & Hw1).
      * intros H. by eapply IH.
      * intros H. by eapply drawAttempts_nowin.
    + intros H; inversion H. by eexists.
Qed.

#[local] Arguments moveLoop : simpl never.

Lemma eachPlayer_nowin n i t f :
  eachPlayer bot now n i t = Some f -> exists t', f = Next t'.
Proof.
  revert i t f. induction n as [|n IH]; intros i t f; simpl.
  - intros H; inversion H. by eexists.
  - destruct (players (t_game t) !! i) as [p|] eqn:Ep; simpl; [|done].
    destruct (gameActive (t_game t) && negb (hasWon p)) eqn:Eg.
    + apply andb_true_iff in Eg as [_ Hw]. apply negb_true_iff in Hw.
      destruct (moveLoop bot now maxAttempts 0 i t) as [f1|] eqn:Em; simpl; [|done].
      destruct (moveLoop_nowin _ _ _ _ _ _ Ep Hw Em) as [t1 ->].
      intros H. by eapply IH.
    + intros H. by eapply IH.
Qed.

(** With such a bot a [playTurn] call on an active round never ends the
    round with a winner: it ends it as a stalemate or leaves it running. *)
Lemma playTurn_nowin s g ret t :
  gameActive s = true -> playTurn bot now s g = Some (ret, t) ->
  Forall (fun ev => ev_won ev = false) (t_log t)
  /\ (winner (t_game t) = None
      \/ (gameActive (t_game t) = true /\ winner (t_game t) = winner s)).
Proof.
  intros Ha Hp.
  destruct (playTurn_cases bot now s g ret t Ha Hp)
    as [[_ Hf]|(t1 & Hpr & Hlog & _ & _ & Hcase)].
  - exfalso. unfold playTurn in Hp. rewrite Ha in Hp. simpl in Hp.
    destruct (eachPlayer bot now (length (players s)) 0 _) as [f|] eqn:Ef;
      simpl in Hp; [|done].
    destruct (eachPlayer_nowin _ _ _ _ Ef) as [t1 ->].
    destruct Hf as (evs & e & Hl & Hq & Hw & He).
    apply eachPlayer_spec in Ef. simpl in Ef.
    destruct Ef as (_ & (evs' & Hl' & Hq' & _) & _). simpl in *.
    assert (t_log t = t_log t1) as Hlt.
    { destruct (negb (anyPlayerMoved t1) && _).
      - destruct (endRound now None _); simpl in Hp; [|done]. by inversion Hp.
      - by inversion Hp. }
    rewrite Hlt, Hl' in Hl. rewrite Hl in Hq'.
    rewrite Forall_app, Forall_singleton in Hq'. destruct Hq' as [_ Hq']. congruence.
  - destruct Hpr as (Hsame & (evs & Hle & Hq & _) & _). simpl in *.
    rewrite Hlog, Hle. split; [done|].
    destruct Hcase as [(_ & _ & _ & He)|(_ & _ & ->)].
    + apply endRound_inv in He as (_ & Hw & _). by left.
    + right. destruct Hsame as (Hact & Hwin & _). simpl. split; congruence.
Qed.

End NoWin.

(** X22: the engine's bots never win a round, from whatever state of an
    active round the turn is played: a bot move pushes the card it
    places and leaves it on its source, so no Blitz pile ever shrinks. *)
Lemma botTurn_nowin now s g ret t :
  gameActive s = true -> botTurn now s g = Some (ret, t) ->
  Forall (fun ev => ev_won ev = false) (t_log t)
  /\ (winner (t_game t) = None
      \/ (gameActive (t_game t) = true /\ winner (t_game t) = winner s)).
Proof. apply playTurn_nowin. apply makeMove_blitz. Qed.

(** ** Draw-cycling inside a turn *)

Lemma moveLoop_full bot now rem i t : moveLoop bot now rem 3 i t = Some (Next t).
Proof. by destruct rem. Qed.

(** C10: inside a [playTurn] call, take a player who has not won.  Every
    invocation of its [makeMove] that returns true is counted by one rule:
    [anyPlayerMoved] becomes true, [moveCount] grows by one, and the loop
    goes on with one more of the three moves made and one attempt fewer
    (with three moves made it stops).  An invocation that finds no candidate
    move while the draw pile holds a card is such an invocation: it returns
    true by draw-cycling alone, places nothing (the play counters, the Blitz
    pile, the post piles and the Dutch piles are unchanged) and keeps every
    card of the hand in the hand. *)
Theorem draw_cycle_counted now i t p :
  players (t_game t) !! i = Some p -> hasWon p = false ->
  (forall p' d' g' rem m,
      makeMove p (dutchPiles (t_game t)) (t_rng t) = Some (true, p', d', g') ->
      (m < 3)%nat -> gameActive (t_game t) = true ->
      exists t',
        tryMove makeMove now i t = Some (StepMade t')
        /\ anyPlayerMoved t' = true
        /\ moveCount (t_game t') = moveCount (t_game t) + 1
        /\ players (t_game t') = <[i := p']> (players (t_game t))
        /\ dutchPiles (t_game t') = d'
        /\ moveLoop makeMove now (S rem) m i t = moveLoop makeMove now rem (S m) i t'
        /\ moveLoop makeMove now rem 3 i t' = Some (Next t'))
  /\ (forall g1,
        collectMoves (refreshed p) (dutchPiles (t_game t))
                     (getAvailableCards (refreshed p)) (t_rng t) = ([], g1) ->
        drawPile (refreshed p) <> [] ->
        makeMove p (dutchPiles (t_game t)) (t_rng t)
        = Some (true, (drawCards (refreshed p)).2, dutchPiles (t_game t), g1)
        /\ blitzPile (drawCards (refreshed p)).2 = blitzPile p
        /\ postPiles (drawCards (refreshed p)).2 = postPiles p
        /\ handCards (drawCards (refreshed p)).2 ≡ₚ handCards p
        /\ playsThisRound (drawCards (refreshed p)).2 = playsThisRound p
        /\ totalPlays (drawCards (refreshed p)).2 = totalPlays p).
Proof.
  intros Ep Hw. split.
  - intros p' d' g' rem m Hm Hlt Ha.
    assert (Hw' : hasWon p' = false).
    { apply makeMove_blitz in Hm. unfold hasWon in *. by rewrite Hm. }
    assert (Et : tryMove makeMove now i t
                 = Some (StepMade
                     (mkTurn
                        (set_moveCount
                           (set_table (t_game t) (<[i:=p']> (players (t_game t))) d')
                           (moveCount (t_game t) + 1))
                        g' true (staleMateCounter t)
                        (t_log t ++
                           [mkEvent i true p
                              (set_moveCount
                                 (set_table (t_game t) (<[i:=p']> (players (t_game t))) d')
                                 (moveCount (t_game t) + 1))])))).
    { unfold tryMove. rewrite Ep. simpl. rewrite Hm, Hw'. done. }
    eexists. split; [exact Et|]. repeat (split; [done|]). split.
    + cbn [moveLoop]. apply Nat.ltb_lt in Hlt. rewrite Hlt, Ha, Et. done.
    + apply moveLoop_full.
  - intros g1 Hnone Hdraw. split.
    + unfold makeMove. rewrite Hnone. simpl.
      destruct (drawCards_cases (refreshed p)) as [[H _]|[_ (dp' & rv' & -> & _)]]; done.
    + rewrite drawCards_blitz, drawCards_posts, drawCards_hand, drawCards_plays,
        drawCards_totalPlays.
      by rewrite refreshed_blitz, refreshed_posts, refreshed_hand, refreshed_plays,
        refreshed_totalPlays.
Qed.

Lemma draw_cycle_counted_witness :
  exists t' p',
    tryMove makeMove 5000 0 (mkTurn cyclingTable zeroRng false 0 []) = Some (StepMade t')
    /\ anyPlayerMoved t' = true
    /\ moveCount (t_game t') = 1
    /\ players (t_game t') !! 0%nat = Some p'
    /\ playsThisRound p' = 0
    /\ blitzPile p' = blockedBlitz.
Proof.
  pose (t := mkTurn cyclingTable zeroRng false 0 []).
  pose (p := cyclingHand "Bot 1").
  assert (Ep : players (t_game t) !! 0%nat = Some p) by reflexivity.
  assert (Hw : hasWon p = false) by reflexivity.
  destruct (draw_cycle_counted 5000 0 t p Ep Hw) as [Hany Hdraw].
  assert (Hnone : collectMoves (refreshed p) (dutchPiles (t_game t))
                    (getAvailableCards (refreshed p)) (t_rng t) = ([], zeroRng))
    by (vm_compute; reflexivity).
  assert (Hpile : drawPile (refreshed p) <> []) by (vm_compute; discriminate).
  destruct (Hdraw zeroRng Hnone Hpile) as (Hm & Hb & _ & _ & Hplays & _).
  assert (Hlt : (0 < 3)%nat) by lia.
  assert (Ha : gameActive (t_game t) = true) by reflexivity.
  destruct (Hany _ _ _ 4%nat 0%nat Hm Hlt Ha) as (t' & Et & Hmoved & Hcount & Hps & _).
  exists t', (drawCards (refreshed p)).2.
  split; [exact Et|]. split; [exact Hmoved|]. split; [exact Hcount|].
  split; [by rewrite Hps|]. split; [exact Hplays|exact Hb].
Defined.

(** ** The Dutch piles are runs 1..k *)

Lemma run_snoc c k : run c (S k) = run c k ++ [mkCard (Z.of_nat (S k)) c].
Proof. unfold run. by rewrite seq_S, map_app. Qed.

Lemma top_run c k :
  top (run c k) = match k with
                  | O => None
                  | S _ => Some (mkCard (Z.of_nat k) c)
                  end.
Proof.
  destruct k as [|k]; [done|]. rewrite run_snoc. unfold top. by rewrite last_snoc.
Qed.

Lemma dutchPile_set_eq d k pile : dutchPile (setDutchPile d k pile) k = pile.
Proof. by destruct k. Qed.

Lemma dutchPile_set_ne d k k' pile :
  k <> k' -> dutchPile (setDutchPile d k pile) k' = dutchPile d k'.
Proof. by destruct k, k'. Qed.

Lemma foundation_push d c :
  foundationOk d -> validCard c ->
  canPlayOn c (top (dutchPile d (color c))) = true ->
  foundationOk (setDutchPile d (color c) (push (dutchPile d (color c)) c)).
Proof.
  intros Hd [Hlo Hhi] Hplay k.
  destruct (decide (color c = k)) as [<-|Hne]; [|rewrite dutchPile_set_ne by done; apply Hd].
  rewrite dutchPile_set_eq. destruct (Hd (color c)) as (n & Hn & Hpile).
  rewrite Hpile in *. rewrite top_run in Hplay. destruct c as [v col]. simpl in *.
  destruct n as [|n]; simpl in Hplay.
  - apply Z.eqb_eq in Hplay as ->. exists 1%nat. split; [lia|]. done.
  - apply andb_true_iff in Hplay as [_ Hv]. apply Z.eqb_eq in Hv.
    exists (S (S n)). split; [lia|]. rewrite (run_snoc col (S n)). unfold push.
    replace v with (Z.of_nat (S (S n))) by lia. done.
Qed.

Lemma postTops_hand i piles a : a ∈ postTops i piles -> av_card a ∈ concat piles.
Proof.
  revert i. induction piles as [|pile rest IH]; intros i; simpl; [set_solver|].
  destruct (top pile) as [c|] eqn:Et.
  - rewrite elem_of_cons. intros [->|H]; simpl.
    + apply elem_of_app. left. unfold top in Et. apply last_Some in Et as [l ->].
      apply elem_of_app. right. by apply list_elem_of_singleton.
    + apply elem_of_app. right. by eapply IH.
  - intros H. apply elem_of_app. right. by eapply IH.
Qed.

Lemma revealedFrom_hand i rv a : a ∈ revealedFrom i rv -> av_card a ∈ rv.
Proof.
  revert i. induction rv as [|c rest IH]; intros i; simpl; [set_solver|].
  rewrite !elem_of_cons. intros [->|H]; [by left|]. right. by eapply IH.
Qed.

Lemma availableCards_hand p c : c ∈ availableCards p -> c ∈ handCards p.
Proof.
  unfold availableCards, getAvailableCards, handCards. intros H.
  apply list_elem_of_fmap in H as (a & -> & Ha).
  rewrite !elem_of_app in Ha. rewrite !elem_of_app.
  destruct Ha as [Ha|[Ha|Ha]].
  - left. unfold getTopBlitzCard, top in Ha.
    destruct (last (blitzPile p)) as [b|] eqn:El; [|set_solver].
    apply list_elem_of_singleton in Ha as ->. simpl.
    apply last_Some in El as [l ->]. apply elem_of_app. right.
    by apply list_elem_of_singleton.
  - right. right. right. by eapply postTops_hand.
  - right. right. left. by eapply revealedFrom_hand.
Qed.

Lemma validHand_posts_push p i pile c :
  validHand p -> postPiles p !! i = Some pile -> validCard c ->
  validHand (countPlay (set_postPiles p (<[i := push pile c]> (postPiles p)))).
Proof.
  unfold validHand, handCards. simpl. rewrite !Forall_app, !Forall_concat.
  intros (Hb & Hd & Hr & Hp) Hi Hc. repeat split; try done.
  apply Forall_insert; [done|]. unfold push. apply Forall_app. split.
  - by eapply Forall_lookup_1 in Hp.
  - by constructor.
Qed.

Lemma validHand_drawCards p : validHand p -> validHand (drawCards p).2.
Proof. unfold validHand. by rewrite drawCards_hand. Qed.

Lemma validHand_refreshed p : validHand p -> validHand (refreshed p).
Proof. unfold validHand. by rewrite refreshed_hand. Qed.

(** A bot move keeps the cards valid and the Dutch piles well built. *)
Lemma makeMove_ok p d g b p' d' g' :
  validHand p -> foundationOk d -> makeMove p d g = Some (b, p', d', g') ->
  validHand p' /\ foundationOk d'.
Proof.
  intros Hp Hd H. apply makeMove_inv in H. apply validHand_refreshed in Hp.
  destruct H as [|c Hc Hplay|c i pile Hc Hi Hpost].
  - split; [by apply validHand_drawCards|done].
  - split; [done|]. apply foundation_push; [done| |done].
    apply availableCards_hand in Hc. unfold validHand in Hp.
    rewrite Forall_forall in Hp. by apply Hp.
  - split; [|done]. apply validHand_posts_push; [done..|].
    apply availableCards_hand in Hc. unfold validHand in Hp.
    rewrite Forall_forall in Hp. by apply Hp.
Qed.

Lemma validHand_countWin p : validHand p -> validHand (countWin p).
Proof. done. Qed.

Lemma tableOk_endRound now w s s' :
  tableOk s -> endRound now w s = Some s' -> tableOk s'.
Proof.
  intros [Hp Hd] H. unfold endRound in H. apply updateStats_inv in H as [st ->].
  split; [|done]. simpl. destruct w as [i|]; [|done].
  destruct (players s !! i) as [p|] eqn:Ei; [|done].
  apply Forall_insert; [done|]. apply validHand_countWin.
  by eapply Forall_lookup_1 in Hp.
Qed.

Section TableFacts.

Variable bot : Bot.
Variable now : Z.
Hypothesis bot_ok : forall p d g b p' d' g',
  validHand p -> foundationOk d -> bot p d g = Some (b, p', d', g') ->
  validHand p' /\ foundationOk d'.

Lemma tryMove_table i t st :
  tableOk (t_game t) -> tryMove bot now i t = Some st -> tableOk (t_game (stepTurn st)).
Proof.
  intros [Hp Hd]. unfold tryMove.
  destruct (players (t_game t) !! i) as [p|] eqn:Ep; simpl; [|done].
  destruct (bot p (dutchPiles (t_game t)) (t_rng t)) as [[[[made p'] d'] g']|] eqn:Eb;
    [|done].
  apply bot_ok in Eb as [Hp' Hd']; [|by eapply Forall_lookup_1 in Hp|done].
  assert (Ht : tableOk (set_table (t_game t) (<[i:=p']> (players (t_game t))) d')).
  { split; [|done]. simpl. by apply Forall_insert. }
  destruct made.
  - destruct (hasWon p').
    + destruct (endRound _ _ _) as [s3|] eqn:Ee; simpl; [|done].
      intros H; inversion H; subst; simpl. eapply tableOk_endRound; [|done]. done.
    + intros H; inversion H; subst; simpl. done.
  - intros H; inversion H; subst; simpl. done.
Qed.

Lemma drawAttempts_table n i t f :
  tableOk (t_game t) -> drawAttempts bot now n i t = Some f -> tableOk (t_game (flowTurn f)).
Proof.
  revert t f. induction n as [|n IH]; intros t f Ht; simpl.
  - intros H; by inversion H.
  - destruct (players (t_game t) !! i) as [p|] eqn:Ep; simpl; [|done].
    pose proof (validHand_drawCards p) as Hdraw.
    destruct (drawCards p) as [drew p']. simpl in Hdraw.
    set (t1 := mkTurn _ _ _ _ _).
    assert (Ht1 : tableOk (t_game t1)).
    { destruct Ht as [Hp Hd]. split; [|done]. simpl. apply Forall_insert; [done|].
      apply Hdraw. by eapply Forall_lookup_1 in Hp. }
    destruct drew.
    + destruct (tryMove bot now i t1) as [st|] eqn:Et; simpl; [|done].
      apply tryMove_table in Et; [|done]. destruct st as [t2|t2|t2].
      * intros H; by inversion H.
      * intros H; by inversion H.
      * intros H. by apply IH in H.
    + intros H; by inversion H.
Qed.

#[local] Arguments drawAttempts : simpl never.

Lemma moveLoop_table rem m i t f :
  tableOk (t_game t) -> moveLoop bot now rem m i t = Some f -> tableOk (t_game (flowTurn f)).
Proof.
  revert m t f. induction rem as [|rem IH]; intros m t f Ht; simpl.
  - intros H; by inversion H.
  - destruct ((m <? 3)%nat && gameActive (t_game t)).
    + destruct (tryMove bot now i t) as [st|] eqn:Et; simpl; [|done].
      apply tryMove_table in Et; [|done]. destruct st as [t1|t1|t1].
      * intros H; by inversion H.
      * intros H. by apply IH in H.
      * intros H. by apply drawAttempts_table in H.
    + intros H; by inversion H.
Qed.

#[local] Arguments moveLoop : simpl never.

Lemma eachPlayer_table n i t f :
  tableOk (t_game t) -> eachPlayer bot now n i t = Some f -> tableOk (t_game (flowTurn f)).
Proof.
  revert i t f. induction n as [|n IH]; intros i t f Ht; simpl.
  - intros H; by inversion H.
  - destruct (players (t_game t) !! i) as [p|]; simpl; [|done].
    destruct (gameActive (t_game t) && negb (hasWon p)).
    + destruct (moveLoop bot now maxAttempts 0 i t) as [f1|] eqn:Em; simpl; [|done].
      apply moveLoop_table in Em; [|done]. destruct f1 as [t1|ret t1].
      * intros H. by apply IH in H.
      * intros H; by inversion H.
    + intros H. by apply IH in H.
Qed.

Lemma playTurn_table s g ret t :
  tableOk s -> playTurn bot now s g = Some (ret, t) -> tableOk (t_game t).
Proof.
  intros Hs. unfold playTurn. destruct (gameActive s); simpl.
  - destruct (eachPlayer bot now (length (players s)) 0 _) as [f|] eqn:Ef; simpl; [|done].
    apply eachPlayer_table in Ef; [|done]. destruct f as [t1|r t1]; simpl in Ef.
    + destruct (negb (anyPlayerMoved t1) && _).
      * destruct (endRound now None _) as [s2|] eqn:Ee; simpl; [|done].
        intros H; inversion H; subst; simpl. eapply tableOk_endRound; [|done]. done.
      * intros H; inversion H; subst; simpl. done.
    + intros H; inversion H; subst. done.
  - intros H; inversion H; subst. done.
Qed.

End TableFacts.

(** ** Construction and dealing *)

Lemma freshDeck_valid : Forall validCard freshDeck.
Proof.
  unfold freshDeck. simpl.
  repeat (constructor; [unfold validCard; simpl; lia|]). constructor.
Qed.

Lemma swap_valid deck i j : Forall validCard deck -> Forall validCard (swap deck i j).
Proof.
  intros H. unfold swap.
  destruct (deck !! i) as [a|] eqn:Ei; [|done].
  destruct (deck !! j) as [b|] eqn:Ej; [|done].
  apply Forall_insert; [apply Forall_insert; [done|]|].
  - by eapply Forall_lookup_1 in H.
  - by eapply (Forall_lookup_1 _ _ i) in H.
Qed.

Lemma shuffleFrom_valid i deck g :
  Forall validCard deck -> Forall validCard (shuffleFrom i deck g).1.
Proof.
  revert deck g. induction i as [|i IH]; intros deck g H; simpl; [done|].
  apply IH. by apply swap_valid.
Qed.

Lemma initializeCards_valid p g : validHand (initializeCards p g).1.
Proof.
  unfold initializeCards, shuffle.
  pose proof (shuffleFrom_valid (length freshDeck - 1) freshDeck g freshDeck_valid) as H.
  destruct (shuffleFrom (length freshDeck - 1) freshDeck g) as [deck g']. simpl in *.
  apply validHand_drawCards. unfold validHand, handCards. simpl.
  rewrite !Forall_app. repeat split; try (by constructor).
  - by apply Forall_take.
  - by apply Forall_drop.
Qed.

Lemma initializeAll_valid ps g : Forall validHand (initializeAll ps g).1.
Proof.
  revert g. induction ps as [|p rest IH]; intros g; cbn [initializeAll]; [constructor|].
  pose proof (initializeCards_valid p g) as Hp.
  destruct (initializeCards p g) as [p' g1]. specialize (IH g1).
  destruct (initializeAll rest g1) as [rest' g2]. cbn [fst] in *. by constructor.
Qed.

Lemma foundationOk_empty : foundationOk noDutch.
Proof. intros c. exists 0%nat. split; [lia|]. by destruct c. Qed.

Lemma startNewRound_table now s g : tableOk (startNewRound now s g).1.
Proof.
  unfold startNewRound. pose proof (initializeAll_valid (players s) g) as H.
  destruct (initializeAll (players s) g) as [ps g']. split; [done|].
  apply foundationOk_empty.
Qed.

Lemma createPlayers_valid n i ps stats g :
  Forall validHand ps -> Forall validHand (createPlayers n i ps stats g).1.1.
Proof.
  revert i ps stats g. induction n as [|n IH]; intros i ps stats g H; simpl; [done|].
  apply IH. apply Forall_app. split; [done|]. constructor; [|constructor].
  unfold validHand, handCards. simpl. constructor.
Qed.

Lemma newGame_table n g : tableOk (newGame n g).1.
Proof.
  unfold newGame. pose proof (createPlayers_valid n 0 [] ∅ g (Forall_nil_2 _)) as H.
  destruct (createPlayers n 0 [] ∅ g) as [[ps stats] g']. split; [done|].
  apply foundationOk_empty.
Qed.

Lemma reachable_table s : reachable s -> tableOk s.
Proof.
  induction 1 as [n g|now s g _ _ _|now s g ret t _ IH Ht|s i p g ok p' d' g' _ IH Hi Hm].
  - apply newGame_table.
  - apply startNewRound_table.
  - eapply (playTurn_table makeMove now); [|done|done]. apply makeMove_ok.
  - destruct IH as [Hp Hd].
    destruct (makeMove_ok p (dutchPiles s) g ok p' d' g') as [Hp' Hd']; [|done|done|].
    { by eapply Forall_lookup_1 in Hp. }
    split; [|done]. simpl. by apply Forall_insert.
Qed.

(** C7: in every state reached from a newly constructed game by starting
    rounds, playing turns and single bot moves, each of the four Dutch piles
    is, bottom to top, the ranks 1..k of its own colour for some k from 0
    to 10. *)
Theorem reachable_foundation s :
  reachable s ->
  forall c, exists k, (k <= 10)%nat /\ dutchPile (dutchPiles s) c = run c k.
Proof. intros H. by apply reachable_table in H as [_ H]. Qed.

Lemma lcg_unit : unit_stream lcg.
Proof.
  intros k. unfold lcg.
  pose proof (Z.mod_pos_bound (Z.of_nat k * 37 + 11) 100 ltac:(lia)) as [Hlo Hhi].
  set (m := (Z.of_nat k * 37 + 11) mod 100) in *.
  unfold Qdiv, Qmult, Qinv, Qle, Qlt, inject_Z. simpl. lia.
Qed.

Lemma botTurns_reachable n now s g s' g' :
  reachable s -> botTurns n now s g = Some (s', g') -> reachable s'.
Proof.
  revert s g. induction n as [|n IH]; intros s g Hs; simpl.
  - intros H; by inversion H; subst.
  - destruct (botTurn now s g) as [[ret t]|] eqn:Et; [|done].
    intros H. eapply IH; [|done]. by eapply reach_turn.
Qed.

Lemma freshRound_reachable : reachable freshRound.1.
Proof.
  unfold freshRound.
  pose proof (reach_new 4 (mkRng lcg 0)) as H.
  destruct (newGame 4 (mkRng lcg 0)) as [s g] eqn:E. simpl in H.
  apply reach_start; [done|].
  replace (stream g) with lcg; [apply lcg_unit|].
  vm_compute in E. by inversion E.
Qed.

Lemma reachable_foundation_witness :
  exists s g, lateRound = Some (s, g)
    /\ forall c, exists k, (k <= 10)%nat /\ dutchPile (dutchPiles s) c = run c k.
Proof.
  destruct lateRound as [[s g]|] eqn:E; [|by vm_compute in E].
  exists s, g. split; [reflexivity|].
  apply reachable_foundation.
  exact (botTurns_reachable 17 2000 freshRound.1 freshRound.2 s g freshRound_reachable E).
Defined.

(** ** Turns that only draw-cycle *)

(** C5 as stated fails: seventeen turns into a game that was constructed
    and started in the ordinary way, a turn in which no card is placed,
    every player only cycling its draw pile, returns true and leaves the
    round running. *)
Lemma late_turn_only_cycles :
  exists s g ret t,
    lateRound = Some (s, g) /\ reachable s /\ gameActive s = true
    /\ botTurn 3000 s g = Some (ret, t)
    /\ gameActive (t_game t) = true
    /\ ~ (ret = true <-> (0 < placements (t_log t))%nat).
Proof.
  assert (match lateRound with
          | Some (s, g) =>
              gameActive s
              && match botTurn 3000 s g with
                 | Some (ret, t) =>
                     gameActive (t_game t) && ret
                     && bool_decide (placements (t_log t) = 0%nat)
                 | None => false
                 end
          | None => false
          end = true) as Hc by (vm_compute; reflexivity).
  destruct lateRound as [[s g]|] eqn:E; [|discriminate Hc].
  apply andb_true_iff in Hc as [Hs Hc].
  destruct (botTurn 3000 s g) as [[ret t]|] eqn:Et; [|discriminate Hc].
  apply andb_true_iff in Hc as [Hc Hp]. apply andb_true_iff in Hc as [Ha Hr].
  apply bool_decide_eq_true in Hp.
  exists s, g, ret, t. split; [reflexivity|]. split.
  { exact (botTurns_reachable 17 2000 freshRound.1 freshRound.2 s g freshRound_reachable E). }
  split; [exact Hs|]. split; [exact Et|]. split; [exact Ha|].
  intros [H _]. specialize (H Hr). lia.
Qed.


(** ** Revealing cards, in closed form *)

Lemma removelast_take (l : list Card) : removelast l = take (length l - 1) l.
Proof.
  induction l as [|c l IH] using rev_ind; [done|].
  rewrite removelast_last, length_app. simpl.
  replace (length l + 1 - 1)%nat with (length l) by lia.
  by rewrite take_app_length.
Qed.

Lemma revealLoop_closed n dp rv :
  revealLoop n dp rv
  = (take (length dp - n) dp, rv ++ reverse (drop (length dp - n) dp)).
Proof.
  revert dp rv. induction n as [|n IH]; intros dp rv; simpl.
  - rewrite Nat.sub_0_r, take_ge, drop_ge by lia. by rewrite app_nil_r.
  - destruct dp as [|c dp _] using rev_ind.
    + simpl. by rewrite app_nil_r.
    + rewrite last_snoc, removelast_last, IH. unfold push.
      rewrite length_app. simpl.
      replace (length dp + 1 - S n)%nat with (length dp - n)%nat by lia.
      rewrite take_app_le, drop_app_le by lia.
      rewrite (reverse_app _ [c]), <- app_assoc. done.
Qed.

Lemma drawCards_shape p :
  drawCards p
  = match drawPile p with
    | [] => (false, p)
    | _ :: _ =>
        let src := reverse (drawRevealed p) ++ drawPile p in
        (true, set_draw p (take (length src - 3) src)
                          (reverse (drop (length src - 3) src)))
    end.
Proof.
  unfold drawCards. destruct (drawPile p) as [|c dp] eqn:Edp.
  - by destruct (drawRevealed p).
  - destruct (drawRevealed p) as [|r rv] eqn:Erv;
      cbn [length Nat.eqb Nat.ltb Nat.leb andb]; by rewrite revealLoop_closed.
Qed.

Lemma drawCards_revealed p :
  (drawCards p).1 = true ->
  length (drawRevealed (drawCards p).2)
  = Nat.min (length (drawPile p) + length (drawRevealed p)) 3.
Proof.
  rewrite drawCards_shape. destruct (drawPile p) as [|c dp]; [done|].
  intros _. cbn [snd set_draw drawRevealed]. rewrite length_reverse, length_drop.
  rewrite length_app, length_reverse. simpl. lia.
Qed.

(** X4: [drawCards] in closed form.  With an empty draw pile it returns
    false and leaves the hand as it is.  Otherwise it returns true; the
    cards revealed before go back under the draw pile in reverse order, the
    top three cards of the result (all of them if there are fewer) become
    the revealed cards, topmost first, and the rest stays as the draw pile. *)
Theorem drawCards_closed p :
  let src := reverse (drawRevealed p) ++ drawPile p in
  drawCards p
  = match drawPile p with
    | [] => (false, p)
    | _ :: _ =>
        (true, set_draw p (take (length src - 3) src)
                          (reverse (drop (length src - 3) src)))
    end
  /\ ((drawCards p).1 = true ->
      length (drawRevealed (drawCards p).2)
      = Nat.min (length (drawPile p) + length (drawRevealed p)) 3).
Proof. split; [apply drawCards_shape|apply drawCards_revealed]. Qed.

Lemma drawCards_closed_witness :
  drawRevealed (drawCards (cyclingHand "Bot 1")).2
  = [mkCard 9 yellow; mkCard 7 yellow; mkCard 8 yellow]
  /\ length (drawRevealed (drawCards (cyclingHand "Bot 1")).2) = 3%nat.
Proof.
  destruct (drawCards_closed (cyclingHand "Bot 1")) as [H Hlen].
  split; [by rewrite H|]. rewrite Hlen; reflexivity.
Defined.

(** ** Shuffling and dealing *)

Lemma random_index_in_range (r : Q) (i : nat) :
  (0 <= r)%Q -> (r < 1)%Q ->
  (Z.to_nat (Math_floor (r * inject_Z (Z.of_nat i + 1))) <= i)%nat.
Proof.
  intros Hlo Hhi. unfold Math_floor.
  set (x := (r * inject_Z (Z.of_nat i + 1))%Q).
  assert (Hpos : (0 < inject_Z (Z.of_nat i + 1))%Q).
  { change 0%Q with (inject_Z 0). rewrite <- Zlt_Qlt. lia. }
  assert (Hx : (x < inject_Z (Z.of_nat i + 1))%Q).
  { subst x. rewrite <- (Qmult_1_l (inject_Z (Z.of_nat i + 1))) at 2.
    by apply Qmult_lt_compat_r. }
  pose proof (Qfloor_le x) as Hf.
  assert (Qfloor x < Z.of_nat i + 1) as Hlt.
  { rewrite Zlt_Qlt. eapply Qle_lt_trans; [exact Hf|exact Hx]. }
  lia.
Qed.

Lemma swap_perm deck i j : swap deck i j ≡ₚ deck.
Proof.
  unfold swap. destruct (deck !! i) as [a|] eqn:Ei; [|done].
  destruct (deck !! j) as [b|] eqn:Ej; [|done].
  by apply Permutation_insert_swap.
Qed.

Lemma shuffleFrom_perm i deck g : (shuffleFrom i deck g).1 ≡ₚ deck.
Proof.
  revert deck g. induction i as [|i IH]; intros deck g; simpl; [done|].
  by rewrite IH, swap_perm.
Qed.

Lemma shuffleFrom_pos i deck g : pos (shuffleFrom i deck g).2 = (pos g + i)%nat.
Proof.
  revert deck g. induction i as [|i IH]; intros deck g; simpl; [lia|].
  rewrite IH. simpl. lia.
Qed.

(** X1: the shuffle.  Reading [Math.random()] from a stream of values in
    the unit interval, the index [j] computed for position [i] is never
    above [i], so every exchange is between positions of the deck; the
    shuffled deck holds the cards of the deck it was given, each as often,
    and one random number is read per position from the last down to the
    second. *)
Theorem shuffle_permutes deck g :
  unit_stream (stream g) ->
  (forall k i, (Z.to_nat (Math_floor (stream g k * inject_Z (Z.of_nat i + 1))) <= i)%nat)
  /\ (shuffle deck g).1 ≡ₚ deck
  /\ pos (shuffle deck g).2 = (pos g + (length deck - 1))%nat.
Proof.
  intros Hu. split; [|split].
  - intros k i. destruct (Hu k) as [Hlo Hhi]. by apply random_index_in_range.
  - apply shuffleFrom_perm.
  - apply shuffleFrom_pos.
Qed.

Lemma shuffle_permutes_witness :
  (shuffle freshDeck (mkRng lcg 0)).1 ≡ₚ freshDeck
  /\ pos (shuffle freshDeck (mkRng lcg 0)).2 = 39%nat.
Proof.
  destruct (shuffle_permutes freshDeck (mkRng lcg 0) lcg_unit) as (_ & Hp & Hn).
  split; [exact Hp|exact Hn].
Defined.

Lemma shuffle_perm deck g : (shuffle deck g).1 ≡ₚ deck.
Proof. apply shuffleFrom_perm. Qed.

Lemma freshDeck_elem c : c ∈ freshDeck <-> validCard c.
Proof.
  split.
  - intros H. pose proof freshDeck_valid as Hv. rewrite Forall_forall in Hv. by apply Hv.
  - destruct c as [v col]. unfold validCard. simpl. intros Hv.
    assert (v = 1 \/ v = 2 \/ v = 3 \/ v = 4 \/ v = 5 \/ v = 6 \/ v = 7 \/ v = 8
            \/ v = 9 \/ v = 10) as Hcase by lia.
    repeat destruct Hcase as [->|Hcase]; try subst v;
      destruct col;
      match goal with |- ?P => apply (bool_decide_unpack P) end; vm_compute; exact I.
Qed.

Lemma freshDeck_NoDup : NoDup freshDeck.
Proof. apply (bool_decide_unpack (NoDup freshDeck)). vm_compute. exact I. Qed.

Lemma initializeCards_rng p g :
  stream (initializeCards p g).2 = stream g
  /\ pos (initializeCards p g).2 = (pos g + 39)%nat.
Proof.
  unfold initializeCards, shuffle.
  pose proof (shuffleFrom_pos (length freshDeck - 1) freshDeck g) as Hpos.
  assert (Hs : forall i deck g0, stream (shuffleFrom i deck g0).2 = stream g0).
  { induction i as [|i IH]; intros deck g0; simpl; [done|]. by rewrite IH. }
  specialize (Hs (length freshDeck - 1)%nat freshDeck g).
  destruct (shuffleFrom (length freshDeck - 1) freshDeck g) as [deck g']. simpl in *.
  split; [done|]. rewrite Hpos. reflexivity.
Qed.

Lemma initializeCards_dealt p g :
  dealt (initializeCards p g).1
  /\ blitzPile (initializeCards p g).1 = take 10 (shuffle freshDeck g).1
  /\ name (initializeCards p g).1 = name p
  /\ strategy (initializeCards p g).1 = strategy p
  /\ totalPlays (initializeCards p g).1 = totalPlays p
  /\ wins (initializeCards p g).1 = wins p.
Proof.
  unfold initializeCards.
  pose proof (shuffle_perm freshDeck g) as Hperm.
  destruct (shuffle freshDeck g) as [deck g']. cbn [fst snd] in *.
  assert (Hlen : length deck = 40%nat) by (by rewrite Hperm).
  set (d0 := mkPlayer (name p) (isBot p) (take 10 deck) [[]; []; []] (drop 10 deck) []
                      0 (totalPlays p) (wins p) (strategy p)).
  assert (Hhand : handCards (drawCards d0).2 ≡ₚ freshDeck).
  { rewrite drawCards_hand. unfold handCards, d0. cbn [blitzPile drawPile drawRevealed postPiles].
    cbn [concat app]. by rewrite app_nil_r, take_drop. }
  assert (Hdrop : length (drop 10 deck) = 30%nat) by (rewrite length_drop; lia).
  pose proof (drawCards_revealed d0) as Hl.
  destruct (drawCards_cases d0) as [[He _]|[_ (dp' & rv' & Hd & Hp)]].
  { exfalso. unfold d0 in He. cbn [drawPile] in He. rewrite He in Hdrop. done. }
  rewrite Hd in Hl, Hhand |- *. cbn [fst snd] in *.
  specialize (Hl eq_refl). unfold d0 in Hl, Hp. cbn [drawPile drawRevealed set_draw] in Hl, Hp.
  rewrite Hdrop in Hl. cbn [length] in Hl.
  apply Permutation_length in Hp. rewrite !length_app, Hdrop in Hp. cbn [length] in Hp.
  split; [|done].
  split; [done|]. unfold d0. cbn [set_draw blitzPile drawPile drawRevealed postPiles
                                      playsThisRound].
  rewrite length_take. repeat split; lia.
Qed.

(** X2: the deal.  Whatever the hand held before, after [initializeCards]
    it holds exactly the 40 cards of the deck (every rank 1..10 of every
    colour, each once): the first ten of the shuffled deck on the Blitz
    pile, three revealed, 27 left to draw, the three post piles empty;
    [playsThisRound] is zero, while the name, the strategy and the running
    totals [totalPlays] and [wins] are kept. *)
Theorem deal_full_hand p g :
  dealt (initializeCards p g).1
  /\ NoDup (handCards (initializeCards p g).1)
  /\ (forall c, c ∈ handCards (initializeCards p g).1 <-> validCard c)
  /\ blitzPile (initializeCards p g).1 = take 10 (shuffle freshDeck g).1
  /\ name (initializeCards p g).1 = name p
  /\ strategy (initializeCards p g).1 = strategy p
  /\ totalPlays (initializeCards p g).1 = totalPlays p
  /\ wins (initializeCards p g).1 = wins p.
Proof.
  destruct (initializeCards_dealt p g) as (Hd & Hrest).
  pose proof Hd as (Hhand & _).
  split; [done|]. split; [|split; [|done]].
  - rewrite Hhand. apply freshDeck_NoDup.
  - intros c0. rewrite Hhand. apply freshDeck_elem.
Qed.

Lemma initializeAll_names ps g : map name (initializeAll ps g).1 = map name ps.
Proof.
  revert g. induction ps as [|p rest IH]; intros g; cbn [initializeAll]; [done|].
  destruct (initializeCards_dealt p g) as (_ & _ & Hn & _).
  destruct (initializeCards p g) as [p' g1]. specialize (IH g1).
  destruct (initializeAll rest g1) as [rest' g2]. cbn [fst map] in *. by rewrite Hn, IH.
Qed.

Lemma initializeAll_dealt ps g : Forall dealt (initializeAll ps g).1.
Proof.
  revert g. induction ps as [|p rest IH]; intros g; cbn [initializeAll]; [constructor|].
  destruct (initializeCards_dealt p g) as (Hd & _).
  destruct (initializeCards p g) as [p' g1]. specialize (IH g1).
  destruct (initializeAll rest g1) as [rest' g2]. cbn [fst] in *. by constructor.
Qed.

Lemma initializeAll_totals ps g :
  map totalPlays (initializeAll ps g).1 = map totalPlays ps
  /\ map wins (initializeAll ps g).1 = map wins ps.
Proof.
  revert g. induction ps as [|p rest IH]; intros g; cbn [initializeAll]; [done|].
  destruct (initializeCards_dealt p g) as (_ & _ & _ & _ & Ht & Hw).
  destruct (initializeCards p g) as [p' g1]. specialize (IH g1).
  destruct (initializeAll rest g1) as [rest' g2]. cbn [fst map] in *.
  destruct IH as [IH1 IH2]. by rewrite Ht, Hw, IH1, IH2.
Qed.

(** X3: starting a round resets the table whatever state the game was in,
    so a round can be started again at any time: the round is active with no
    winner, the move count and the duration are zero, the round number is
    one higher, the four Dutch piles are empty and every player holds a
    freshly dealt hand; the players, their names, their running totals and
    the statistics are those from before. *)
Theorem startNewRound_resets now s g :
  let s' := (startNewRound now s g).1 in
  gameActive s' = true /\ winner s' = None /\ roundStartTime s' = Some now
  /\ roundDuration s' = 0 /\ moveCount s' = 0 /\ roundNumber s' = roundNumber s + 1
  /\ dutchPiles s' = noDutch /\ gameStats s' = gameStats s
  /\ Forall dealt (players s')
  /\ map name (players s') = map name (players s)
  /\ map totalPlays (players s') = map totalPlays (players s)
  /\ map wins (players s') = map wins (players s).
Proof.
  unfold startNewRound.
  pose proof (initializeAll_dealt (players s) g) as Hd.
  pose proof (initializeAll_names (players s) g) as Hn.
  pose proof (initializeAll_totals (players s) g) as [Ht Hw].
  destruct (initializeAll (players s) g) as [ps g']. simpl in *. done.
Qed.

(** ** Invariants of a turn *)

(** A property of the turn state that each step of [playTurn] keeps is kept
    by the whole call. *)
Section TurnInvariant.

Variable bot : Bot.
Variable now : Z.
Variable R : Turn -> Prop.

Hypothesis R_move : forall t i p b p' d' g',
  R t -> gameActive (t_game t) = true -> players (t_game t) !! i = Some p ->
  bot p (dutchPiles (t_game t)) (t_rng t) = Some (b, p', d', g') ->
  let s1 := set_table (t_game t) (<[i := p']> (players (t_game t))) d' in
  let s2 := if b then set_moveCount s1 (moveCount s1 + 1) else s1 in
  R (mkTurn s2 g' (b || anyPlayerMoved t) (staleMateCounter t)
            (t_log t ++ [mkEvent i b p s2])).
Hypothesis R_won : forall t i p s',
  R t -> gameActive (t_game t) = true -> players (t_game t) !! i = Some p ->
  hasWon p = true -> endRound now (Some i) (t_game t) = Some s' ->
  R (mkTurn s' (t_rng t) (anyPlayerMoved t) (staleMateCounter t) (t_log t)).
Hypothesis R_draw : forall t i p,
  R t -> gameActive (t_game t) = true -> players (t_game t) !! i = Some p ->
  R (mkTurn (set_players (t_game t) (<[i := (drawCards p).2]> (players (t_game t))))
            (t_rng t) (anyPlayerMoved t) (staleMateCounter t) (t_log t)).
Hypothesis R_vote : forall t,
  R t -> R (mkTurn (t_game t) (t_rng t) (anyPlayerMoved t) (S (staleMateCounter t)) (t_log t)).

Lemma tryMove_keeps i t st :
  R t -> gameActive (t_game t) = true -> tryMove bot now i t = Some st ->
  R (stepTurn st) /\ stepActive st.
Proof.
  intros HR Ha H. unfold tryMove in H.
  destruct (players (t_game t) !! i) as [p|] eqn:Ep; [|done]. simpl in H.
  destruct (bot p (dutchPiles (t_game t)) (t_rng t)) as [[[[made p'] d'] g']|] eqn:Eb; [|done].
  pose proof (R_move t i p made p' d' g' HR Ha Ep Eb) as HR'.
  destruct made; simpl in HR'.
  - destruct (hasWon p') eqn:Ew.
    + match type of H with (?e ≫= _) = _ => destruct e as [s3|] eqn:Ee; [|done] end.
      simpl in H. inversion H; subst st. split; [|done]. simpl.
      eapply (R_won _ i p' s3) in HR'; [exact HR'|exact Ha| |exact Ew|exact Ee].
      simpl. apply list_lookup_insert_eq. by eapply lookup_lt_Some.
    + inversion H; subst st. split; [exact HR'|exact Ha].
  - inversion H; subst st. split; [exact HR'|exact Ha].
Qed.

Lemma drawAttempts_keeps n i t f :
  R t -> gameActive (t_game t) = true -> drawAttempts bot now n i t = Some f ->
  R (flowTurn f) /\ flowActive f.
Proof.
  revert t. induction n as [|n IH]; intros t HR Ha H; simpl in H.
  - inversion H; subst f. done.
  - destruct (players (t_game t) !! i) as [p|] eqn:Ep; [|done]. simpl in H.
    pose proof (R_draw t i p HR Ha Ep) as HR1.
    destruct (drawCards p) as [drew p'] eqn:Ed. simpl in HR1. destruct drew.
    + match type of H with (?e ≫= _) = _ => destruct e as [st|] eqn:Et; [|done] end.
      simpl in H. apply tryMove_keeps in Et as [HR2 Ha2]; [|exact HR1|exact Ha].
      destruct st; simpl in *.
      * inversion H; subst f. done.
      * inversion H; subst f. done.
      * by apply IH in H.
    + inversion H; subst f. split; [|exact Ha]. simpl. by apply R_vote in HR1.
Qed.

#[local] Arguments drawAttempts : simpl never.

Lemma moveLoop_keeps rem m i t f :
  R t -> gameActive (t_game t) = true -> moveLoop bot now rem m i t = Some f ->
  R (flowTurn f) /\ flowActive f.
Proof.
  revert m t. induction rem as [|rem IH]; intros m t HR Ha H; simpl in H.
  - inversion H; subst f. done.
  - destruct ((m <? 3)%nat && gameActive (t_game t)).
    + match type of H with (?e ≫= _) = _ => destruct e as [st|] eqn:Et; [|done] end.
      simpl in H. apply tryMove_keeps in Et as [HR2 Ha2]; [|exact HR|exact Ha].
      destruct st; simpl in *.
      * inversion H; subst f. done.
      * by apply IH in H.
      * by apply drawAttempts_keeps in H.
    + inversion H; subst f. done.
Qed.

#[local] Arguments moveLoop : simpl never.

Lemma eachPlayer_keeps n i t f :
  R t -> gameActive (t_game t) = true -> eachPlayer bot now n i t = Some f ->
  R (flowTurn f) /\ flowActive f.
Proof.
  revert i t. induction n as [|n IH]; intros i t HR Ha H; simpl in H.
  - inversion H; subst f. done.
  - destruct (players (t_game t) !! i) as [p|] eqn:Ep; [|done]. simpl in H.
    destruct (gameActive (t_game t) && negb (hasWon p)).
    + match type of H with (?e ≫= _) = _ => destruct e as [f1|] eqn:Ef; [|done] end.
      simpl in H. apply moveLoop_keeps in Ef as [HR1 Ha1]; [|exact HR|exact Ha].
      destruct f1; simpl in *.
      * by apply IH in H.
      * inversion H; subst f. done.
    + by apply IH in H.
Qed.

Hypothesis R_duration : forall t n,
  R t -> gameActive (t_game t) = true ->
  R (mkTurn (set_roundDuration (t_game t) n) (t_rng t) (anyPlayerMoved t)
            (staleMateCounter t) (t_log t)).
Hypothesis R_stale : forall t s',
  R t -> gameActive (t_game t) = true -> endRound now None (t_game t) = Some s' ->
  R (mkTurn s' (t_rng t) (anyPlayerMoved t) (staleMateCounter t) (t_log t)).

Lemma playTurn_keeps s g ret t :
  R (mkTurn s g false 0 []) -> playTurn bot now s g = Some (ret, t) -> R t.
Proof.
  intros HR H. unfold playTurn in H. destruct (gameActive s) eqn:Ha; simpl in H.
  - match type of H with (?e ≫= _) = _ => destruct e as [f|] eqn:Ef; [|done] end.
    simpl in H. apply eachPlayer_keeps in Ef as [HR1 Ha1]; [|exact HR|exact Ha].
    destruct f as [t1|r t1]; simpl in *.
    + pose proof (R_duration t1 (elapsedSeconds now (roundStartTime (t_game t1))) HR1 Ha1)
        as HR2.
      destruct (negb (anyPlayerMoved t1)
                && (length (players (t_game t1)) <=? staleMateCounter t1)%nat).
      * match type of H with (?e ≫= _) = _ => destruct e as [s2|] eqn:Ee; [|done] end.
        simpl in H. inversion H; subst. by apply (R_stale _ s2) in HR2.
      * by inversion H; subst.
    + by inversion H; subst.
  - by inversion H; subst.
Qed.

End TurnInvariant.

(** ** What the engine's games have in common *)

Lemma builtDown_push pile c :
  builtDown pile -> canPostOn c (top pile) = true -> builtDown (push pile c).
Proof.
  intros Hb Hc i a b Ha Hb'. unfold push in *.
  pose proof (lookup_lt_Some _ _ _ Hb') as Hlt. rewrite length_app in Hlt. simpl in Hlt.
  rewrite lookup_app_l in Ha by lia.
  destruct (decide (S i < length pile)%nat) as [Hs|Hs].
  - rewrite lookup_app_l in Hb' by lia. eauto.
  - rewrite lookup_app_r in Hb' by lia.
    replace (S i - length pile)%nat with 0%nat in Hb' by lia. simpl in Hb'.
    inversion Hb'; subst b.
    unfold top in Hc. rewrite last_lookup in Hc.
    replace (pred (length pile)) with i in Hc by lia. rewrite Ha in Hc.
    simpl in Hc. lia.
Qed.

Lemma builtDown_nil : builtDown [].
Proof. intros i a b H. done. Qed.

Lemma inPlay_drawCards p : inPlay p -> (drawCards p).1 = true /\ inPlay (drawCards p).2.
Proof.
  intros (Hperm & Hb & Hd & Hr).
  pose proof (drawCards_revealed p) as Hl.
  destruct (drawCards_cases p) as [[He _]|[_ (dp' & rv' & Hdc & Hp)]].
  { rewrite He in Hd. done. }
  rewrite Hdc in *. cbn [fst snd] in *. split; [done|]. specialize (Hl eq_refl).
  rewrite Hd, Hr in Hl. cbn [set_draw drawRevealed] in Hl. simpl in Hl.
  pose proof (Permutation_length Hp) as Hlen. rewrite !length_app in Hlen.
  unfold inPlay. cbn [set_draw blitzPile drawPile drawRevealed].
  split; [by rewrite Hp|]. repeat split; [done|lia|done].
Qed.

Lemma inPlay_refreshed p : inPlay p -> refreshed p = p.
Proof. intros (_ & _ & _ & Hr). unfold refreshed. by rewrite Hr. Qed.

Lemma inPlay_not_won p : inPlay p -> hasWon p = false.
Proof. intros (_ & Hb & _). unfold hasWon. by rewrite Hb. Qed.

Lemma dealt_inPlay p : dealt p -> inPlay p.
Proof.
  intros (Hp & Hb & Hd & Hr & Hposts & _). unfold inPlay. repeat split; try done.
  unfold handCards in Hp. rewrite Hposts in Hp. simpl in Hp.
  by rewrite app_nil_r in Hp.
Qed.

(** A move of a bot on a hand in play returns true and leaves the hand in
    play: the Blitz pile, the draw pile and the revealed cards keep their
    cards. *)
Lemma makeMove_inPlay p d g b p' d' g' :
  inPlay p -> makeMove p d g = Some (b, p', d', g') -> b = true /\ inPlay p'.
Proof.
  intros Hp H. apply makeMove_inv in H.
  destruct H as [|c Hc Hplay|c i pile Hc Hi Hpost];
    rewrite (inPlay_refreshed p Hp) in *.
  - by apply inPlay_drawCards.
  - done.
  - done.
Qed.

Lemma makeMove_wins p d g b p' d' g' :
  makeMove p d g = Some (b, p', d', g') -> wins p' = wins p.
Proof.
  intros H. apply makeMove_inv in H.
  assert (Hr : wins (refreshed p) = wins p).
  { destruct (refreshed_cases p) as [-> | ->]; [done|].
    destruct (drawCards_cases p) as [[_ ->]|[_ (dp' & rv' & -> & _)]]; done. }
  destruct H; simpl; try done.
  destruct (drawCards_cases (refreshed p)) as [[_ ->]|[_ (dp' & rv' & -> & _)]]; done.
Qed.

Lemma makeMove_posts p d g b p' d' g' :
  makeMove p d g = Some (b, p', d', g') ->
  Forall builtDown (postPiles p) ->
  length (postPiles p') = length (postPiles p) /\ Forall builtDown (postPiles p').
Proof.
  intros H Hb. apply makeMove_inv in H.
  rewrite <- (refreshed_posts p) in Hb |- *.
  destruct H as [|c Hc Hplay|c i pile Hc Hi Hpost]; simpl.
  - by rewrite drawCards_posts.
  - done.
  - rewrite length_insert. split; [done|].
    apply Forall_insert; [done|]. apply builtDown_push; [|done].
    rewrite Forall_lookup in Hb. by eapply Hb.
Qed.

Lemma drawCards_wins p : wins (drawCards p).2 = wins p.
Proof. destruct (drawCards_cases p) as [[_ ->]|[_ (dp' & rv' & -> & _)]]; done. Qed.

Lemma engineOk_player s i p p' d' :
  engineOk s -> players s !! i = Some p ->
  name p' = name p -> wins p' = wins p ->
  (Forall builtDown (postPiles p) ->
   length (postPiles p') = length (postPiles p) /\ Forall builtDown (postPiles p')) ->
  (inPlay p -> inPlay p') ->
  engineOk (set_table s (<[i := p']> (players s)) d').
Proof.
  intros (Hn & Hreg & Hst & Hw & Hps & Hact) Hi Hname Hwins Hposts Hplay.
  unfold engineOk. cbn [set_table players gameStats winner gameActive].
  rewrite length_insert. split; [|split; [done|split; [done|split; [done|split]]]].
  - by rewrite (names_insert _ _ p).
  - apply Forall_insert; [done|]. rewrite Forall_lookup in Hps.
    destruct (Hps i p Hi) as (H1 & H2 & H3). destruct (Hposts H3) as [H4 H5].
    split; [lia|]. split; [lia|done].
  - intros Ha. specialize (Hact Ha). apply Forall_insert; [done|]. apply Hplay.
    rewrite Forall_lookup in Hact. by eapply Hact.
Qed.

Lemma engineOk_move s i p g b p' d' g' :
  engineOk s -> players s !! i = Some p ->
  makeMove p (dutchPiles s) g = Some (b, p', d', g') ->
  engineOk (set_table s (<[i := p']> (players s)) d').
Proof.
  intros Hs Hi Hm. apply (engineOk_player s i p); try done.
  - by eapply makeMove_name.
  - by eapply makeMove_wins.
  - by eapply makeMove_posts.
  - intros Hp. by eapply makeMove_inPlay.
Qed.

Lemma engineOk_draw s i p :
  engineOk s -> players s !! i = Some p ->
  engineOk (set_players s (<[i := (drawCards p).2]> (players s))).
Proof.
  intros Hs Hi.
  change (engineOk (set_table s (<[i := (drawCards p).2]> (players s)) (dutchPiles s))).
  apply (engineOk_player s i p); try done.
  - apply drawCards_name.
  - apply drawCards_wins.
  - by rewrite drawCards_posts.
  - intros Hp. by apply inPlay_drawCards.
Qed.

Lemma updatePlayerStats_dom ps n (stats stats' : gmap string PlayerStats) k :
  updatePlayerStats ps n stats = Some stats' ->
  is_Some (stats !! k) -> is_Some (stats' !! k).
Proof.
  revert stats. induction ps as [|p ps IH]; intros stats H Hk; simpl in H.
  - by inversion H; subst.
  - destruct (stats !! name p); [|done]. simpl in H. eapply IH; [exact H|].
    rewrite lookup_insert_is_Some. destruct (decide (name p = k)); auto.
Qed.

Lemma updatePlayerStats_wins ps n (stats stats' : gmap string PlayerStats) :
  updatePlayerStats ps n stats = Some stats' ->
  (forall k st, stats !! k = Some st -> st_wins st = 0) ->
  Forall (fun p => wins p = 0) ps ->
  forall k st, stats' !! k = Some st -> st_wins st = 0.
Proof.
  revert stats. induction ps as [|p ps IH]; intros stats H Hst Hps; simpl in H.
  - by inversion H; subst.
  - destruct (stats !! name p); [|done]. simpl in H. inversion Hps as [|? ? Hp Hps']; subst.
    eapply IH; [exact H| |exact Hps'].
    intros k st Hk. apply lookup_insert_Some in Hk as [[_ <-]|[_ Hk]]; [done|by eapply Hst].
Qed.

Lemma engineOk_stale now s s' :
  engineOk s -> endRound now None s = Some s' -> engineOk s'.
Proof.
  intros (Hn & Hreg & Hst & Hw & Hps & Hact) H.
  unfold endRound, updateStats in H. cbn [players gameStats] in H.
  match type of H with (?e ≫= _) = _ => destruct e as [stats'|] eqn:Eu; [|done] end.
  simpl in H. inversion H; subst s'. clear H.
  unfold engineOk. cbn [set_gameStats players gameStats winner gameActive playerStats].
  split; [done|]. split; [|split; [|split; [done|split; [done|done]]]].
  - intros i Hi. eapply updatePlayerStats_dom; [exact Eu|]. by apply Hreg.
  - eapply updatePlayerStats_wins; [exact Eu|exact Hst|].
    eapply Forall_impl; [exact Hps|]. by intros p (H1 & _).
Qed.

(** The engine's invariant is kept by a whole turn of the engine's bots. *)
Lemma botTurn_engineOk now s g ret t :
  engineOk s -> botTurn now s g = Some (ret, t) -> engineOk (t_game t).
Proof.
  intros Hs H.
  refine (playTurn_keeps makeMove now (fun t => engineOk (t_game t))
            _ _ _ _ _ _ s g ret t Hs H).
  - intros t0 i p b p' d' g' HR Ha Hi Hm. cbn [t_game].
    pose proof (engineOk_move _ _ _ _ _ _ _ _ HR Hi Hm) as Hok. by destruct b.
  - intros t0 i p s' HR Ha Hi Hw He. exfalso.
    destruct HR as (_ & _ & _ & _ & _ & Hact). specialize (Hact Ha).
    rewrite Forall_lookup in Hact. specialize (Hact i p Hi).
    apply inPlay_not_won in Hact. congruence.
  - intros t0 i p HR Ha Hi. cbn [t_game]. by apply engineOk_draw.
  - intros t0 HR. exact HR.
  - intros t0 n HR Ha. exact HR.
  - intros t0 s' HR Ha He. cbn [t_game]. by eapply engineOk_stale.
Qed.

(** ** The constructor *)

Lemma botName_inj i j : botName i = botName j -> i = j.
Proof.
  unfold botName. cbn [String.append]. intros H. injection H as H.
  cbn [String.append] in H. apply pretty_nat_inj in H. lia.
Qed.

Lemma botNames_NoDup i n : NoDup (map botName (seq i n)).
Proof.
  apply NoDup_fmap_2; [|apply NoDup_seq]. intros a b. apply botName_inj.
Qed.

Lemma createPlayers_spec n i ps (stats : gmap string PlayerStats) g :
  exists new,
    (createPlayers n i ps stats g).1.1 = ps ++ new
    /\ map name new = map botName (seq i n)
    /\ map strategy new
       = map (fun j => if Qlt_le_dec (stream g (pos g + j)) (1 # 2)
                       then aggressive else balanced) (seq 0 n)
    /\ Forall (fun p => isBot p = true /\ blitzPile p = [] /\ postPiles p = [[]; []; []]
                        /\ drawPile p = [] /\ drawRevealed p = []
                        /\ playsThisRound p = 0 /\ totalPlays p = 0 /\ wins p = 0) new
    /\ (forall k, (createPlayers n i ps stats g).1.2 !! k
                  = if bool_decide (k ∈ map botName (seq i n))
                    then Some (mkPlayerStats 0 0 0) else stats !! k)
    /\ stream (createPlayers n i ps stats g).2 = stream g
    /\ pos (createPlayers n i ps stats g).2 = (pos g + n)%nat.
Proof.
  revert i ps stats g. induction n as [|n IH]; intros i ps stats g.
  - exists []. simpl. rewrite app_nil_r. repeat split; try done; lia.
  - cbn [createPlayers]. unfold newSimpleBot, Math_random.
    set (b := mkPlayer _ _ _ _ _ _ _ _ _ _).
    destruct (IH (S i) (ps ++ [b]) (<[name b := mkPlayerStats 0 0 0]> stats)
                 (mkRng (stream g) (S (pos g))))
      as (new & E & Hn & Hs & Hf & Hl & Hst & Hp).
    exists (b :: new). rewrite E, <- app_assoc. cbn [stream pos] in *.
    split; [done|]. split; [cbn [map seq]; rewrite Hn; reflexivity|].
    split; [|split; [|split; [|split]]].
    + cbn [map seq]. rewrite Hs. rewrite Nat.add_0_r. f_equal.
      rewrite <- seq_shift, map_map. apply map_ext. intros j.
      by replace (S (pos g) + j)%nat with (pos g + S j)%nat by lia.
    + constructor; [done|exact Hf].
    + intros k. rewrite Hl. cbn [seq map].
      change (name b) with (botName i).
      destruct (decide (k = botName i)) as [->|Hne].
      * rewrite lookup_insert_eq.
        rewrite (bool_decide_eq_true_2 (botName i ∈ botName i :: _)) by apply list_elem_of_here.
        by destruct (bool_decide _).
      * rewrite lookup_insert_ne by done.
        destruct (bool_decide (k ∈ map botName (seq (S i) n))) eqn:Ek.
        -- apply bool_decide_eq_true_1 in Ek.
           rewrite bool_decide_eq_true_2; [done|]. by apply list_elem_of_further.
        -- apply bool_decide_eq_false_1 in Ek.
           rewrite bool_decide_eq_false_2; [done|]. intros Hin.
           apply elem_of_cons in Hin as [?|?]; done.
    + exact Hst.
    + rewrite Hp. lia.
Qed.

(** X5: the constructor.  [new DutchBlitzGame(n)] makes [n] bots named
    "Bot 1" to "Bot n", all different, each with empty piles, three empty
    post piles and counters at zero; bot [j] is aggressive exactly when the
    [j]-th random number drawn is below one half; the statistics hold one
    zeroed entry per bot and nothing else; no round is active, nobody has
    won, and round number, move count and totals are zero. *)
Theorem newGame_spec n g :
  let s := (newGame n g).1 in
  map name (players s) = map botName (seq 0 n)
  /\ NoDup (map name (players s))
  /\ length (players s) = n
  /\ map strategy (players s)
     = map (fun j => if Qlt_le_dec (stream g (pos g + j)) (1 # 2)
                     then aggressive else balanced) (seq 0 n)
  /\ Forall (fun p => isBot p = true /\ blitzPile p = [] /\ postPiles p = [[]; []; []]
                      /\ drawPile p = [] /\ drawRevealed p = []
                      /\ playsThisRound p = 0 /\ totalPlays p = 0 /\ wins p = 0)
            (players s)
  /\ (forall k, playerStats (gameStats s) !! k
                = if bool_decide (k ∈ map botName (seq 0 n))
                  then Some (mkPlayerStats 0 0 0) else None)
  /\ dutchPiles s = noDutch /\ gameActive s = false /\ winner s = None
  /\ roundStartTime s = None /\ roundDuration s = 0 /\ roundNumber s = 0
  /\ moveCount s = 0 /\ totalGames (gameStats s) = 0
  /\ averageRoundDuration (gameStats s) = 0
  /\ pos (newGame n g).2 = (pos g + n)%nat.
Proof.
  unfold newGame.
  destruct (createPlayers_spec n 0 [] ∅ g) as (new & E & Hn & Hs & Hf & Hl & Hst & Hp).
  destruct (createPlayers n 0 [] ∅ g) as [[ps stats] g'].
  cbn [fst snd players gameStats playerStats dutchPiles gameActive winner roundStartTime
       roundDuration roundNumber moveCount totalGames averageRoundDuration] in *.
  rewrite app_nil_l in E. subst ps.
  split; [done|]. split; [rewrite Hn; apply botNames_NoDup|].
  split; [by rewrite <- (length_map name), Hn, length_map, length_seq|].
  split; [done|]. split; [done|]. split; [|done].
  intros k. rewrite Hl. by rewrite lookup_empty.
Qed.

(** ** Every game the engine reaches *)

Lemma botName_listed i n : (i < n)%nat -> botName i ∈ map botName (seq 0 n).
Proof.
  intros Hi. apply (list_elem_of_fmap_2 botName). apply elem_of_seq. lia.
Qed.

Lemma newGame_engineOk n g : engineOk (newGame n g).1.
Proof.
  unfold newGame.
  destruct (createPlayers_spec n 0 [] ∅ g) as (new & E & Hn & Hs & Hf & Hl & Hst & Hp).
  destruct (createPlayers n 0 [] ∅ g) as [[ps stats] g'].
  cbn [fst snd] in *. rewrite app_nil_l in E. subst ps.
  assert (Hlen : length new = n) by (by rewrite <- (length_map name), Hn, length_map, length_seq).
  unfold engineOk. cbn [players gameStats playerStats winner gameActive].
  rewrite Hlen. split; [done|]. split; [|split; [|split; [done|split; [|done]]]].
  - intros i Hi. rewrite Hl. by rewrite bool_decide_eq_true_2 by by apply botName_listed.
  - intros k st. rewrite Hl. destruct (bool_decide _); [|by rewrite lookup_empty].
    by intros [= <-].
  - eapply Forall_impl; [exact Hf|]. intros p (_ & _ & Hposts & _ & _ & _ & _ & Hw).
    rewrite Hposts. split; [done|]. split; [done|]. repeat constructor; apply builtDown_nil.
Qed.

Lemma initializeAll_length ps g : length (initializeAll ps g).1 = length ps.
Proof. by rewrite <- (length_map name), initializeAll_names, length_map. Qed.

Lemma initializeAll_wins ps g :
  Forall (fun p => wins p = 0) ps -> Forall (fun p => wins p = 0) (initializeAll ps g).1.
Proof.
  revert g. induction ps as [|p rest IH]; intros g H; cbn [initializeAll]; [constructor|].
  inversion H as [|? ? Hp Hrest]; subst.
  destruct (initializeCards_dealt p g) as (_ & _ & _ & _ & _ & Hw).
  destruct (initializeCards p g) as [p' g1]. specialize (IH g1 Hrest).
  destruct (initializeAll rest g1) as [rest' g2]. cbn [fst] in *.
  constructor; [congruence|done].
Qed.

Lemma startNewRound_engineOk now s g : engineOk s -> engineOk (startNewRound now s g).1.
Proof.
  intros (Hn & Hreg & Hst & Hw & Hps & Hact). unfold startNewRound.
  pose proof (initializeAll_names (players s) g) as Hnames.
  pose proof (initializeAll_length (players s) g) as Hlen.
  pose proof (initializeAll_dealt (players s) g) as Hd.
  assert (Hwins : Forall (fun p => wins p = 0) (initializeAll (players s) g).1).
  { apply initializeAll_wins. eapply Forall_impl; [exact Hps|]. by intros p (H1 & _). }
  destruct (initializeAll (players s) g) as [ps g']. cbn [fst] in *.
  unfold engineOk. cbn [players gameStats playerStats winner gameActive].
  rewrite Hlen. split; [congruence|]. split; [done|]. split; [done|]. split; [done|].
  split.
  - rewrite Forall_lookup in Hd, Hwins |- *. intros i p Hi.
    destruct (Hd i p Hi) as (_ & _ & _ & _ & Hposts & _). rewrite Hposts.
    split; [by eapply Hwins|]. split; [done|]. repeat constructor; apply builtDown_nil.
  - intros _. eapply Forall_impl; [exact Hd|]. apply dealt_inPlay.
Qed.

Lemma reachable_engineOk s : reachable s -> engineOk s.
Proof.
  induction 1 as [n g|now s g _ IH _|now s g ret t _ IH Ht|s i p g ok p' d' g' _ IH Hi Hm].
  - apply newGame_engineOk.
  - by apply startNewRound_engineOk.
  - by eapply botTurn_engineOk.
  - by eapply engineOk_move.
Qed.

Lemma engineOk_registered s : engineOk s -> registered s.
Proof.
  intros (Hn & Hreg & _) p Hp. apply list_elem_of_lookup_1 in Hp as [i Hi].
  assert (Hname : map name (players s) !! i = Some (name p)).
  { change (map name (players s)) with (name <$> players s).
    by rewrite list_lookup_fmap, Hi. }
  rewrite Hn in Hname.
  change (map botName (seq 0 (length (players s))))
    with (botName <$> seq 0 (length (players s))) in Hname.
  rewrite list_lookup_fmap in Hname.
  pose proof (lookup_lt_Some _ _ _ Hi) as Hlt.
  rewrite lookup_seq_lt in Hname by done. simpl in Hname.
  assert (Hnm : name p = botName i) by congruence.
  rewrite Hnm. by apply Hreg.
Qed.

(** ** A round of the engine's bots goes on *)

Lemma Advanced_refl t :
  gameActive (t_game t) = true -> Forall inPlay (players (t_game t)) -> Advanced 0 t t.
Proof.
  intros Ha Hp. unfold Advanced. rewrite orb_false_r, Z.add_0_r.
  repeat split; try done. exists []. by rewrite app_nil_r.
Qed.

Lemma Advanced_trans a b t1 t2 t3 :
  Advanced a t1 t2 -> Advanced b t2 t3 -> Advanced (a + b) t1 t3.
Proof.
  intros (A1 & A2 & A3 & A4 & A5 & A6 & A7 & A8 & A9 & A10 & e1 & A11 & A12 & A13)
         (B1 & B2 & B3 & B4 & B5 & B6 & B7 & B8 & B9 & B10 & e2 & B11 & B12 & B13).
  unfold Advanced. repeat split; try congruence.
  - lia.
  - rewrite B10, A10, <- orb_assoc. f_equal.
    destruct a, b; simpl; try done; by rewrite orb_true_r.
  - exists (e1 ++ e2). rewrite B11, A11, app_assoc, length_app.
    split; [done|]. split; [lia|]. by apply Forall_app.
Qed.

Section GoesOn.

Variable now : Z.

Lemma tryMove_advances i t :
  gameActive (t_game t) = true -> Forall inPlay (players (t_game t)) ->
  (i < length (players (t_game t)))%nat ->
  exists t', tryMove makeMove now i t = Some (StepMade t') /\ Advanced 1 t t'.
Proof.
  intros Ha Hp Hi. unfold tryMove.
  destruct (lookup_lt_is_Some_2 _ _ Hi) as [p Ep]. rewrite Ep. simpl.
  assert (Hin : inPlay p) by (rewrite Forall_lookup in Hp; by eapply Hp).
  destruct (makeMove_total p (dutchPiles (t_game t)) (t_rng t)) as [[[[b p'] d'] g'] Em].
  rewrite Em. destruct (makeMove_inPlay _ _ _ _ _ _ _ Hin Em) as [-> Hin'].
  rewrite (inPlay_not_won p' Hin'). eexists. split; [reflexivity|].
  unfold Advanced. cbn [t_game t_log anyPlayerMoved staleMateCounter set_moveCount set_table
                        players gameActive moveCount winner gameStats roundNumber
                        roundStartTime].
  rewrite length_insert, orb_true_r. repeat split; try done.
  - by apply Forall_insert.
  - eexists. split; [reflexivity|]. split; [done|]. by repeat constructor.
Qed.

Lemma moveLoop_advances rem m i t :
  (m <= 3)%nat -> (3 - m <= rem)%nat ->
  gameActive (t_game t) = true -> Forall inPlay (players (t_game t)) ->
  (i < length (players (t_game t)))%nat ->
  exists t', moveLoop makeMove now rem m i t = Some (Next t') /\ Advanced (3 - m) t t'.
Proof.
  revert m t. induction rem as [|rem IH]; intros m t Hm Hrem Ha Hp Hi.
  - exists t. split; [done|]. replace (3 - m)%nat with 0%nat by lia. by apply Advanced_refl.
  - cbn [moveLoop]. rewrite Ha, andb_true_r.
    destruct (m <? 3)%nat eqn:Elt.
    + apply Nat.ltb_lt in Elt.
      destruct (tryMove_advances i t Ha Hp Hi) as (t1 & -> & H1). simpl.
      pose proof H1 as (A1 & A2 & A3 & _).
      destruct (IH (S m) t1) as (t2 & E2 & H2); try done; try lia.
      exists t2. split; [done|].
      pose proof (Advanced_trans _ _ _ _ _ H1 H2) as H3.
      assert (Hk : forall k, k = (1 + (3 - S m))%nat -> Advanced k t t2) by (by intros k ->).
      apply Hk. lia.
    + apply Nat.ltb_ge in Elt. exists t. split; [done|].
      replace (3 - m)%nat with 0%nat by lia. by apply Advanced_refl.
Qed.

#[local] Arguments moveLoop : simpl never.

Lemma eachPlayer_advances n i t :
  (i + n <= length (players (t_game t)))%nat ->
  gameActive (t_game t) = true -> Forall inPlay (players (t_game t)) ->
  exists t', eachPlayer makeMove now n i t = Some (Next t') /\ Advanced (3 * n) t t'.
Proof.
  revert i t. induction n as [|n IH]; intros i t Hi Ha Hp.
  - exists t. split; [done|]. by apply Advanced_refl.
  - cbn [eachPlayer].
    destruct (lookup_lt_is_Some_2 (players (t_game t)) i ltac:(lia)) as [p Ep].
    rewrite Ep. simpl.
    assert (Hin : inPlay p) by (rewrite Forall_lookup in Hp; by eapply Hp).
    rewrite Ha, (inPlay_not_won p Hin). simpl.
    destruct (moveLoop_advances maxAttempts 0 i t) as (t1 & -> & H1);
      try done; try (unfold maxAttempts; lia).
    simpl. pose proof H1 as (A1 & A2 & A3 & _).
    destruct (IH (S i) t1) as (t2 & E2 & H2); try done; try lia.
    exists t2. split; [done|].
    pose proof (Advanced_trans _ _ _ _ _ H1 H2) as H3.
    assert (Hk : forall k, k = (3 - 0 + 3 * n)%nat -> Advanced k t t2) by (by intros k ->).
    apply Hk. lia.
Qed.

Lemma botTurn_advances s g :
  gameActive s = true -> Forall inPlay (players s) -> players s <> [] ->
  exists t,
    botTurn now s g = Some (true, t)
    /\ roundDuration (t_game t) = elapsedSeconds now (roundStartTime s)
    /\ exists t1, Advanced (3 * length (players s)) (mkTurn s g false 0 []) t1
                  /\ t_game t = set_roundDuration (t_game t1) (roundDuration (t_game t))
                  /\ t_rng t = t_rng t1 /\ t_log t = t_log t1
                  /\ staleMateCounter t = staleMateCounter t1.
Proof.
  intros Ha Hp Hne. unfold playTurn. rewrite Ha. simpl.
  destruct (eachPlayer_advances (length (players s)) 0 (mkTurn s g false 0 []))
    as (t1 & -> & H1); try done.
  simpl. pose proof H1 as (A1 & A2 & A3 & A4 & A5 & A6 & A7 & A8 & A9 & A10 & _).
  cbn [t_game anyPlayerMoved staleMateCounter] in *.
  assert (Hmoved : anyPlayerMoved t1 = true).
  { rewrite A10. simpl. destruct (players s); [done|]. done. }
  rewrite Hmoved. simpl. eexists. split; [reflexivity|]. cbn [t_game set_roundDuration roundDuration].
  split; [by rewrite A8|]. exists t1. done.
Qed.

End GoesOn.

Lemma botTurns_advances k now s g :
  gameActive s = true -> Forall inPlay (players s) -> players s <> [] ->
  exists s' g',
    botTurns k now s g = Some (s', g')
    /\ gameActive s' = true /\ Forall inPlay (players s')
    /\ length (players s') = length (players s)
    /\ winner s' = winner s /\ gameStats s' = gameStats s
    /\ roundNumber s' = roundNumber s
    /\ moveCount s' = moveCount s + 3 * Z.of_nat (length (players s)) * Z.of_nat k.
Proof.
  revert s g. induction k as [|k IH]; intros s g Ha Hp Hne.
  - exists s, g. repeat split; try done. lia.
  - cbn [botTurns].
    destruct (botTurn_advances now s g Ha Hp Hne)
      as (t & -> & _ & t1 & (A1 & A2 & A3 & A4 & A5 & A6 & A7 & _) & Eg & Er & _ & _).
    cbn [t_game] in *.
    assert (B1 : gameActive (t_game t) = true) by (by rewrite Eg).
    assert (B2 : players (t_game t) = players (t_game t1)) by (by rewrite Eg).
    assert (B3 : players (t_game t) <> []).
    { rewrite B2. intros E. rewrite E in A3. destruct (players s); done. }
    destruct (IH (t_game t) (t_rng t) B1) as (s' & g' & E & C1 & C2 & C3 & C4 & C5 & C6 & C7);
      [by rewrite B2|done|].
    exists s', g'. split; [done|]. rewrite B2, A3 in C3, C7.
    rewrite Eg in C4, C5, C6, C7. cbn [set_roundDuration winner gameStats roundNumber
                                         moveCount] in *.
    repeat split; try congruence. lia.
Qed.

(** X9: with the engine's bots a turn of an active round always makes its
    three moves a player.  In every state the engine reaches, if a round is
    active and there is a player, [playTurn] returns true; three invocations
    a player were made and every one returned true; the move count went up
    by three a player; nobody voted for a stalemate; and the round is still
    active with no winner, every hand still holding its ten Blitz cards. *)
Theorem active_turn_three_moves now s g :
  reachable s -> gameActive s = true -> players s <> [] ->
  exists t,
    botTurn now s g = Some (true, t)
    /\ gameActive (t_game t) = true /\ winner (t_game t) = None
    /\ moveCount (t_game t) = moveCount s + 3 * Z.of_nat (length (players s))
    /\ length (t_log t) = (3 * length (players s))%nat
    /\ Forall (fun ev => ev_result ev = true) (t_log t)
    /\ staleMateCounter t = 0%nat
    /\ Forall (fun p => length (blitzPile p) = 10%nat) (players (t_game t)).
Proof.
  intros Hr Ha Hne. apply reachable_engineOk in Hr as (_ & _ & _ & Hw & _ & Hact).
  destruct (botTurn_advances now s g Ha (Hact Ha) Hne)
    as (t & E & _ & t1 & (A1 & A2 & A3 & A4 & A5 & A6 & A7 & A8 & A9 & A10
                          & evs & A11 & A12 & A13) & Eg & Er & El & Es).
  exists t. split; [exact E|]. cbn [t_game t_log staleMateCounter] in *.
  rewrite Eg. cbn [set_roundDuration gameActive winner moveCount players].
  rewrite El, A11, app_nil_l.
  repeat split; try done; try congruence; try lia.
  eapply Forall_impl; [exact A2|]. by intros p (_ & Hb & _).
Qed.

Lemma active_turn_three_moves_witness :
  exists t,
    botTurn 2000 freshRound.1 freshRound.2 = Some (true, t)
    /\ gameActive (t_game t) = true
    /\ moveCount (t_game t) = 12
    /\ length (t_log t) = 12%nat.
Proof.
  assert (Ha : gameActive freshRound.1 = true) by (vm_compute; reflexivity).
  assert (Hl : length (players freshRound.1) = 4%nat) by (vm_compute; reflexivity).
  assert (Hm : moveCount freshRound.1 = 0) by (vm_compute; reflexivity).
  assert (Hne : players freshRound.1 <> []).
  { intros E. rewrite E in Hl. discriminate Hl. }
  destruct (active_turn_three_moves 2000 freshRound.1 freshRound.2
              freshRound_reachable Ha Hne) as (t & E & H1 & _ & H3 & H4 & _).
  exists t. split; [exact E|]. split; [exact H1|].
  rewrite H3, H4, Hl, Hm. split; reflexivity.
Defined.

(** X10: a round of the engine's bots never ends.  From any state the
    engine reaches with a round active and at least one player, any number
    [k] of further [playTurn] calls all return, and after them the round is
    still active, nobody has won, the statistics and the round number are
    untouched, and [moveCount] has grown by exactly [3 * players * k]. *)
Theorem started_round_never_ends k now s g :
  reachable s -> gameActive s = true -> players s <> [] ->
  exists s' g',
    botTurns k now s g = Some (s', g')
    /\ gameActive s' = true /\ winner s' = None
    /\ gameStats s' = gameStats s /\ roundNumber s' = roundNumber s
    /\ moveCount s' = moveCount s + 3 * Z.of_nat (length (players s)) * Z.of_nat k.
Proof.
  intros Hr Ha Hne. apply reachable_engineOk in Hr as (_ & _ & _ & Hw & _ & Hact).
  destruct (botTurns_advances k now s g Ha (Hact Ha) Hne)
    as (s' & g' & E & C1 & C2 & C3 & C4 & C5 & C6 & C7).
  exists s', g'. repeat split; try done. congruence.
Qed.

Lemma started_round_never_ends_witness :
  exists s' g',
    botTurns 17 2000 freshRound.1 freshRound.2 = Some (s', g')
    /\ gameActive s' = true /\ winner s' = None /\ moveCount s' = 204.
Proof.
  assert (Ha : gameActive freshRound.1 = true) by (vm_compute; reflexivity).
  assert (Hl : length (players freshRound.1) = 4%nat) by (vm_compute; reflexivity).
  assert (Hm : moveCount freshRound.1 = 0) by (vm_compute; reflexivity).
  assert (Hne : players freshRound.1 <> []).
  { intros E. rewrite E in Hl. discriminate Hl. }
  destruct (started_round_never_ends 17 2000 freshRound.1 freshRound.2
              freshRound_reachable Ha Hne) as (s' & g' & E & H1 & H2 & _ & _ & H5).
  exists s', g'. split; [exact E|]. split; [exact H1|]. split; [exact H2|].
  rewrite H5, Hl, Hm. reflexivity.
Defined.

(** ** What holds of every game the engine reaches *)

Lemma engineOk_names_NoDup s : engineOk s -> NoDup (map name (players s)).
Proof. intros (Hn & _). rewrite Hn. apply botNames_NoDup. Qed.

(** X6: the driver never raises.  In every state the engine reaches the
    players carry the distinct names "Bot 1", "Bot 2", ... the constructor
    gave them and each has its statistics entry, so [updateStats] finds
    every entry it reads: [playTurn] returns a result, and so does
    [endRound], whoever is named as winner. *)
Theorem reachable_turn_returns now s g w :
  reachable s ->
  (exists ret t, botTurn now s g = Some (ret, t))
  /\ (exists s', endRound now w s = Some s')
  /\ map name (players s) = map botName (seq 0 (length (players s)))
  /\ NoDup (map name (players s))
  /\ forall p, p ∈ players s -> is_Some (playerStats (gameStats s) !! name p).
Proof.
  intros Hr. apply reachable_engineOk in Hr.
  pose proof (engineOk_registered s Hr) as Hreg.
  split; [|split; [|split; [|split]]].
  - destruct (botTurn_total now s g Hreg) as [[ret t] E]. by exists ret, t.
  - destruct (endRound_total now w s s Hreg) as [s' E]; [done|]. by exists s'.
  - by destruct Hr.
  - by apply engineOk_names_NoDup.
  - exact Hreg.
Qed.

Lemma reachable_turn_returns_witness :
  (exists ret t, botTurn 2000 freshRound.1 freshRound.2 = Some (ret, t))
  /\ exists s', endRound 2000 (Some 1%nat) freshRound.1 = Some s'.
Proof.
  destruct (reachable_turn_returns 2000 freshRound.1 freshRound.2 (Some 1%nat)
              freshRound_reachable) as (H1 & H2 & _).
  split; [exact H1|exact H2].
Defined.

Lemma winRate_zero games : winRate 0 games = 0.
Proof.
  unfold winRate. destruct (0 <? games); [|done]. unfold Math_round.
  assert (E : (inject_Z 0 / inject_Z games * 100 + (1 # 2) == 1 # 2)%Q).
  { unfold Qdiv. rewrite Qmult_0_l, Qmult_0_l. apply Qplus_0_l. }
  by rewrite E.
Qed.



(** X8: while a round is active every hand still has all it was dealt.  In
    every state the engine reaches with a round active, each player's Blitz
    pile, draw pile and revealed cards together are the 40 cards of the
    deck, ten on the Blitz pile, 27 to draw and three revealed: whatever
    lies on a post pile or a Dutch pile is a second copy of a card that is
    still in its owner's hand. *)
Theorem reachable_hands_keep_deck s :
  reachable s -> gameActive s = true ->
  Forall (fun p => blitzPile p ++ drawPile p ++ drawRevealed p ≡ₚ freshDeck
                   /\ length (blitzPile p) = 10%nat /\ length (drawPile p) = 27%nat
                   /\ length (drawRevealed p) = 3%nat
                   /\ forall c, c ∈ concat (postPiles p) ->
                        c ∈ blitzPile p ++ drawPile p ++ drawRevealed p) (players s)
  /\ forall c, c ∈ dutchCards (dutchPiles s) -> validCard c.
Proof.
  intros Hr Ha. pose proof (reachable_table s Hr) as [Hv Hf].
  apply reachable_engineOk in Hr as (_ & _ & _ & _ & _ & Hact). specialize (Hact Ha).
  split.
  - rewrite Forall_lookup in Hact, Hv |- *. intros i p Hi.
    destruct (Hact i p Hi) as (H1 & H2 & H3 & H4). repeat split; try done.
    intros c Hc. rewrite H1. apply freshDeck_elem.
    specialize (Hv i p Hi). unfold validHand in Hv. rewrite Forall_forall in Hv.
    apply Hv. unfold handCards. rewrite !elem_of_app. auto.
  - intros c Hc. unfold dutchCards in Hc. rewrite !elem_of_app in Hc.
    assert (Hrun : forall k, c ∈ dutchPile (dutchPiles s) k -> validCard c).
    { intros k Hk. destruct (Hf k) as (n & Hn & E). rewrite E in Hk.
      unfold run in Hk. apply list_elem_of_fmap in Hk as (v & -> & Hv').
      apply elem_of_seq in Hv'. unfold validCard. simpl. lia. }
    destruct Hc as [Hc|[Hc|[Hc|Hc]]];
      [apply (Hrun red)|apply (Hrun blue)|apply (Hrun green)|apply (Hrun yellow)]; exact Hc.
Qed.

Lemma reachable_hands_keep_deck_witness :
  Forall (fun p => length (blitzPile p) = 10%nat /\ length (drawPile p) = 27%nat)
         (players freshRound.1).
Proof.
  assert (Ha : gameActive freshRound.1 = true) by (vm_compute; reflexivity).
  destruct (reachable_hands_keep_deck freshRound.1 freshRound_reachable Ha) as [H _].
  eapply Forall_impl; [exact H|]. intros p (_ & H2 & H3 & _). split; [exact H2|exact H3].
Defined.

Lemma builtDown_value pile i a b :
  builtDown pile -> pile !! 0%nat = Some a -> pile !! i = Some b ->
  value b = value a - Z.of_nat i.
Proof.
  intros Hb H0. revert b. induction i as [|i IH]; intros b Hi.
  - rewrite H0 in Hi. inversion Hi. lia.
  - destruct (lookup_lt_is_Some_2 pile i) as [c Hc].
    { apply lookup_lt_Some in Hi. lia. }
    rewrite (Hb i c b Hc Hi), (IH c Hc). lia.
Qed.

Lemma builtDown_length pile :
  builtDown pile -> Forall validCard pile -> (length pile <= 10)%nat.
Proof.
  intros Hb Hv. destruct pile as [|a rest] eqn:E; [simpl; lia|]. rewrite <- E in *.
  assert (H0 : pile !! 0%nat = Some a) by (by rewrite E).
  destruct (lookup_lt_is_Some_2 pile (length pile - 1)) as [b Hl].
  { rewrite E. simpl. lia. }
  pose proof (builtDown_value pile _ a b Hb H0 Hl) as Hval.
  rewrite Forall_lookup in Hv.
  pose proof (Hv _ _ H0) as Ha. pose proof (Hv _ _ Hl) as Hb'.
  unfold validCard in *. lia.
Qed.

(** X11: the post piles are built down.  In every state the engine reaches
    every hand has its three post piles, on each of them every card is
    exactly one rank under the card it lies on, whatever the colours, and
    so no post pile holds more than ten cards. *)
Theorem reachable_posts_built_down s :
  reachable s ->
  Forall (fun p => length (postPiles p) = 3%nat
                   /\ Forall (fun pile =>
                                (forall i a b, pile !! i = Some a -> pile !! S i = Some b ->
                                               value b = value a - 1)
                                /\ (length pile <= 10)%nat) (postPiles p))
         (players s).
Proof.
  intros Hr. pose proof (reachable_table s Hr) as [Hv _].
  apply reachable_engineOk in Hr as (_ & _ & _ & _ & Hps & _).
  rewrite Forall_lookup in Hps, Hv |- *. intros i p Hi.
  destruct (Hps i p Hi) as (_ & H3 & Hb). split; [done|].
  rewrite Forall_lookup in Hb |- *. intros j pile Hj.
  split; [exact (Hb j pile Hj)|]. apply builtDown_length; [by eapply Hb|].
  specialize (Hv i p Hi). unfold validHand in Hv. rewrite Forall_forall in Hv |- *.
  intros c Hc. apply Hv. unfold handCards. rewrite !elem_of_app. right. right. right.
  apply list_elem_of_In, in_concat. exists pile.
  split; apply list_elem_of_In; [by eapply list_elem_of_lookup_2|done].
Qed.

Lemma reachable_posts_built_down_witness :
  exists s g, lateRound = Some (s, g)
              /\ Forall (fun p => length (postPiles p) = 3%nat) (players s).
Proof.
  assert (Hc : match lateRound with Some _ => true | None => false end = true)
    by (vm_compute; reflexivity).
  destruct lateRound as [[s g]|] eqn:E; [|discriminate Hc].
  assert (Hr : reachable s).
  { eapply botTurns_reachable; [exact freshRound_reachable|exact E]. }
  pose proof (reachable_posts_built_down s Hr) as H.
  exists s, g. split; [reflexivity|].
  eapply Forall_impl; [exact H|]. intros p (H1 & _). exact H1.
Defined.

(** ** The simulator page *)

(** X12: the page's timer plays one turn and stops.  After "Start New Game"
    on a game with at least one player, the first time the timer fires the
    turn played returns true, which the callback takes for "the game has
    ended": it clears the timer.  The round is still active with no winner
    and the status line still reads "Running", every player has made three
    moves, and no later firing of the timer plays a turn, while [stepGame]
    still does. *)
Theorem first_tick_stops_timer now now1 now2 a :
  players (game a) <> [] ->
  exists a1,
    tick now1 (startNewGame now a) = Some a1
    /\ gameInterval a1 = false /\ isPaused a1 = false
    /\ gameActive (game a1) = true /\ winner (game a1) = None
    /\ gameStatus a1 = "Running"
    /\ moveCount (game a1) = 3 * Z.of_nat (length (players (game a)))
    /\ tick now2 a1 = Some a1
    /\ exists a2, stepGame now2 a1 = Some a2
                  /\ moveCount (game a2) = 6 * Z.of_nat (length (players (game a)))
                  /\ gameActive (game a2) = true.
Proof.
  intros Hne. unfold startNewGame. cbn [stopGame game app_rng].
  pose proof (initializeAll_dealt (players (game a)) (app_rng a)) as Hd.
  pose proof (initializeAll_length (players (game a)) (app_rng a)) as Hlen.
  unfold startNewRound.
  destruct (initializeAll (players (game a)) (app_rng a)) as [ps g']. cbn [fst] in *.
  set (s0 := mkGame ps noDutch true None (Some now) 0 (roundNumber (game a) + 1) 0
                    (gameStats (game a))).
  assert (Hp : Forall inPlay (players s0)).
  { eapply Forall_impl; [exact Hd|]. apply dealt_inPlay. }
  assert (Hne0 : players s0 <> []).
  { cbn [s0 players]. intros E. rewrite E in Hlen. destruct (players (game a)); done. }
  destruct (botTurn_advances now1 s0 g' eq_refl Hp Hne0)
    as (t & E & _ & t1 & (A1 & A2 & A3 & A4 & A5 & A6 & A7 & _) & Eg & _).
  cbn [t_game] in *.
  unfold tick, intervalCallback, turnAndStop. cbn [gameInterval isPaused negb game app_rng].
  rewrite E. eexists. split; [reflexivity|].
  unfold stopGame. cbn [game app_rng gameInterval isPaused].
  assert (B1 : gameActive (t_game t) = true) by (by rewrite Eg).
  assert (B2 : players (t_game t) = players (t_game t1)) by (by rewrite Eg).
  assert (B3 : moveCount (t_game t) = 3 * Z.of_nat (length (players (game a)))).
  { rewrite Eg. cbn [set_roundDuration moveCount]. rewrite A4. cbn [s0 moveCount players].
    rewrite Hlen. lia. }
  split; [done|]. split; [done|]. split; [done|].
  split; [rewrite Eg; exact A5|].
  split; [unfold gameStatus; cbn [game isPaused]; by rewrite B1|].
  split; [done|]. split; [done|].
  assert (Hp1 : Forall inPlay (players (t_game t))) by (by rewrite B2).
  assert (Hne1 : players (t_game t) <> []).
  { rewrite B2. intros E1. rewrite E1 in A3. cbn [s0 players] in A3.
    destruct ps; [by apply Hne0|done]. }
  destruct (botTurn_advances now2 (t_game t) (t_rng t) B1 Hp1 Hne1)
    as (t' & E' & _ & t2 & (C1 & C2 & C3 & C4 & _) & Eg' & _).
  cbn [t_game] in *.
  unfold stepGame, turnAndStop. cbn [game app_rng gameInterval isPaused]. rewrite B1, E'.
  eexists. split; [reflexivity|]. unfold stopGame. cbn [game].
  rewrite Eg'. cbn [set_roundDuration moveCount gameActive]. split; [|done].
  rewrite C4, B3, B2, A3. cbn [s0 players]. rewrite Hlen. lia.
Qed.

Lemma first_tick_stops_timer_witness :
  exists a1,
    tick 1500 (startNewGame 1000 (newApp (mkRng lcg 0))) = Some a1
    /\ gameInterval a1 = false /\ gameActive (game a1) = true
    /\ moveCount (game a1) = 12.
Proof.
  assert (Hl : length (players (game (newApp (mkRng lcg 0)))) = 4%nat)
    by (vm_compute; reflexivity).
  assert (Hne : players (game (newApp (mkRng lcg 0))) <> []).
  { intros E. rewrite E in Hl. discriminate Hl. }
  destruct (first_tick_stops_timer 1000 1500 2000 (newApp (mkRng lcg 0)) Hne)
    as (a1 & E & H1 & _ & H3 & _ & _ & H6 & _).
  exists a1. split; [exact E|]. split; [exact H1|]. split; [exact H3|].
  rewrite H6, Hl. reflexivity.
Defined.

(** ** When the bot has no move *)

Lemma postMoves_none p c src i piles g :
  existsb (botPosts c) piles = false -> postMoves p c src i piles g = ([], g).
Proof.
  revert i g. induction piles as [|pile rest IH]; intros i g H; [done|].
  simpl in H. apply orb_false_elim in H as [H1 H2]. cbn [postMoves].
  unfold botPosts in H1. rewrite H1. by apply IH.
Qed.

Lemma postMoves_some p c src i piles g :
  existsb (botPosts c) piles = true -> (postMoves p c src i piles g).1 <> [].
Proof.
  revert i g. induction piles as [|pile rest IH]; intros i g H; [done|].
  simpl in H. cbn [postMoves]. unfold botPosts in H.
  destruct (canPostOn c (top pile) && _) eqn:E.
  - destruct (getMovePriority p c src toPost g) as [pr g1].
    destruct (postMoves p c src (S i) rest g1) as [ms g2]. done.
  - simpl in H. by apply IH.
Qed.

Lemma collectMoves_none p d av g :
  existsb (botWants p d) av = false -> collectMoves p d av g = ([], g).
Proof.
  revert g. induction av as [|a rest IH]; intros g H; [done|].
  simpl in H. apply orb_false_elim in H as [H1 H2]. cbn [collectMoves].
  unfold botWants in H1. apply orb_false_elim in H1 as [H3 H4].
  rewrite H3, (postMoves_none _ _ _ _ _ _ H4), (IH _ H2). done.
Qed.

Lemma collectMoves_some p d av g :
  existsb (botWants p d) av = true -> (collectMoves p d av g).1 <> [].
Proof.
  revert g. induction av as [|a rest IH]; intros g H; [done|].
  simpl in H. cbn [collectMoves]. unfold botWants in H.
  destruct (canPlayOn (av_card a) (top (dutchPile d (color (av_card a))))) eqn:E1.
  - destruct (getMovePriority p (av_card a) _ dutch g) as [pr g1].
    destruct (postMoves p (av_card a) _ 0 (postPiles p) g1) as [pm g2].
    destruct (collectMoves p d rest g2) as [ms g3]. done.
  - simpl in H.
    destruct (existsb (botPosts (av_card a)) (postPiles p)) eqn:E2.
    + pose proof (postMoves_some p (av_card a) (SrcString (av_source a)) 0 (postPiles p) g E2)
        as Hne.
      destruct (postMoves p (av_card a) _ 0 (postPiles p) g) as [pm g2].
      destruct (collectMoves p d rest g2) as [ms g3]. simpl in *.
      intros E. apply Hne. by destruct pm.
    + simpl in H. rewrite (postMoves_none _ _ _ _ _ _ E2).
      specialize (IH g H). destruct (collectMoves p d rest g) as [ms g3]. done.
Qed.

Lemma makeMove_stuck p d g :
  hasCandidate (refreshed p) d = false ->
  makeMove p d g
  = Some ((drawCards (refreshed p)).1, (drawCards (refreshed p)).2, d, g).
Proof.
  intros H. unfold makeMove. rewrite (collectMoves_none _ _ _ _ H). simpl.
  by destruct (drawCards (refreshed p)).
Qed.

Lemma makeMove_unstuck p d g :
  hasCandidate (refreshed p) d = true ->
  exists p' d' g', makeMove p d g = Some (true, p', d', g').
Proof.
  intros H. unfold makeMove. set (q := refreshed p) in *.
  pose proof (collectMoves_ok q d (getAvailableCards q) g (getAvailableCards_cards q)) as Hok.
  pose proof (collectMoves_some q d (getAvailableCards q) g H) as Hne.
  destruct (collectMoves q d (getAvailableCards q) g) as [moves g1]. simpl in Hok, Hne.
  destruct moves as [|m0 ms]; [done|].
  destruct (sortMoves_head (m0 :: ms)) as (m & Hh & Hin); [done|].
  cbn [length Nat.eqb]. rewrite Hh. cbn [mbind option_bind].
  rewrite Forall_forall in Hok. destruct (Hok m Hin) as ((t & Hs) & Hc & Ht).
  destruct (mv_target m).
  - unfold playCard. rewrite Ht, Hs. simpl. by eexists _, _, _.
  - destruct Ht as (i & pile & Hi & Hl & Hcp). rewrite Hi. simpl. unfold playCard.
    rewrite Hl. simpl. rewrite Hcp, Hs. simpl. by eexists _, _, _.
Qed.

Lemma botWants_canMakeMove p d : hasCandidate p d = true -> canMakeMove p d = true.
Proof.
  unfold hasCandidate, canMakeMove. rewrite !existsb_exists.
  intros (a & Hin & Hw). exists a. split; [done|]. unfold botWants in Hw.
  apply orb_true_iff in Hw as [Hw|Hw]; [by rewrite Hw|].
  apply orb_true_iff. right. apply existsb_exists in Hw as (pile & Hp & Hb).
  apply existsb_exists. exists pile. split; [done|].
  unfold botPosts in Hb. by apply andb_true_iff in Hb as [Hb _].
Qed.

Lemma refreshed_empty p : drawPile p = [] -> refreshed p = p.
Proof. intros H. unfold refreshed. rewrite H. simpl. by rewrite andb_false_r. Qed.

Lemma makeMove_false p d g p' d' g' :
  makeMove p d g = Some (false, p', d', g') ->
  hasCandidate (refreshed p) d = false
  /\ p' = refreshed p /\ d' = d /\ g' = g /\ drawPile p' = []
  /\ drawCards p' = (false, p').
Proof.
  intros H. destruct (hasCandidate (refreshed p) d) eqn:E.
  - destruct (makeMove_unstuck p d g E) as (p1 & d1 & g1 & E1). congruence.
  - rewrite (makeMove_stuck p d g E) in H. inversion H as [[Hb Hp Hd Hg]].
    destruct (drawCards_cases (refreshed p)) as [[He Hc]|[_ (dp' & rv' & Hc & _)]].
    + rewrite Hc. simpl. by rewrite He, Hc.
    + rewrite Hc in Hb. discriminate Hb.
Qed.

(** X13: [canMakeMove] is exact for [playCard].  It returns true exactly
    when some entry of [getAvailableCards] can be placed: when [playCard],
    given that entry, accepts its card on the Dutch pile of its colour or on
    one of the post piles. *)
Theorem canMakeMove_exact p d :
  canMakeMove p d = true
  <-> exists a dest p' d',
        a ∈ getAvailableCards p
        /\ playCard p (av_card a) (SrcObject a) d dest = Some (true, p', d').
Proof.
  unfold canMakeMove. rewrite existsb_exists. split.
  - intros (a & Hin & H). apply list_elem_of_In in Hin.
    pose proof (getAvailableCards_entry p a Hin) as He.
    apply orb_true_iff in H as [H|H].
    + destruct (removeCardFromSource_entry p p a He eq_refl) as (q' & Eq & _).
      exists a, None, (countPlay q'), (setDutchPile d (color (av_card a))
                                      (push (dutchPile d (color (av_card a))) (av_card a))).
      split; [done|]. unfold playCard. rewrite H. simpl. by rewrite Eq.
    + apply existsb_exists in H as (pile & Hp & Hc).
      apply list_elem_of_In, list_elem_of_lookup_1 in Hp as [i Hi].
      destruct (removeCardFromSource_entry p
                  (set_postPiles p (<[i := push pile (av_card a)]> (postPiles p))) a He)
        as (q' & Eq & _).
      { simpl. by rewrite length_insert. }
      exists a, (Some i), (countPlay q'), d. split; [done|].
      unfold playCard. rewrite Hi. simpl. rewrite Hc. simpl. by rewrite Eq.
  - intros (a & dest & p' & d' & Hin & H). exists a.
    split; [by apply list_elem_of_In|]. apply orb_true_iff.
    unfold playCard in H. destruct dest as [i|].
    + right. destruct (postPiles p !! i) as [pile|] eqn:Hi; [|done]. simpl in H.
      destruct (canPostOn (av_card a) (top pile)) eqn:Hc; [|done].
      apply existsb_exists. exists pile. split; [|done].
      apply list_elem_of_In. by eapply list_elem_of_lookup_2.
    + left. by destruct (canPlayOn (av_card a) _).
Qed.

(** X14: a hand that cannot move makes the bot draw.  If [canMakeMove]
    is false of the hand as [makeMove] looks at it, [makeMove] lists no
    candidate: it only calls [drawCards] and returns its result, the Dutch
    piles and the random source untouched.  The converse fails, because
    [makeMove] does not post an 8, 9 or 10 directly on the next rank: with a
    9 on the Blitz pile and a 10 on each post pile [canMakeMove] is true and
    [makeMove] returns false. *)
Theorem cannot_move_bot_draws :
  (forall p d g,
     canMakeMove (refreshed p) d = false ->
     makeMove p d g
     = Some ((drawCards (refreshed p)).1, (drawCards (refreshed p)).2, d, g))
  /\ (let p := hand "Bot 1" aggressive [mkCard 9 yellow]
                    [[mkCard 10 red]; [mkCard 10 blue]; [mkCard 10 green]] [] [] in
      canMakeMove p noDutch = true
      /\ forall g, makeMove p noDutch g = Some (false, p, noDutch, g)).
Proof.
  split.
  - intros p d g H. apply makeMove_stuck.
    destruct (hasCandidate (refreshed p) d) eqn:E; [|done].
    apply botWants_canMakeMove in E. congruence.
  - split; [reflexivity|]. intros g. by rewrite makeMove_stuck.
Qed.

(** X15: a move that fails is final.  When [makeMove] returns false it
    placed nothing and listed no candidate; the Dutch piles and the random
    source are as before, the hand is the one [makeMove] looked at, its
    draw pile is empty, so [drawCards] fails on it as well, and every later
    [makeMove] over the same Dutch piles fails in the same way and changes
    nothing. *)
Theorem failed_move_is_final p d g p' d' g' :
  makeMove p d g = Some (false, p', d', g') ->
  hasCandidate (refreshed p) d = false
  /\ p' = refreshed p /\ d' = d /\ g' = g
  /\ drawPile p' = [] /\ drawCards p' = (false, p')
  /\ forall g2, makeMove p' d g2 = Some (false, p', d, g2).
Proof.
  intros H. destruct (makeMove_false _ _ _ _ _ _ H) as (H1 & H2 & H3 & H4 & H5 & H6).
  repeat split; try done. intros g2.
  assert (Hr : refreshed p' = p') by (by apply refreshed_empty).
  rewrite makeMove_stuck; rewrite Hr; [by rewrite H6|by rewrite H2].
Qed.

Lemma failed_move_is_final_witness :
  makeMove (exhaustedHand "Bot 2") noDutch (mkRng lcg 7)
  = Some (false, exhaustedHand "Bot 2", noDutch, mkRng lcg 7).
Proof.
  assert (H : makeMove (exhaustedHand "Bot 2") noDutch zeroRng
              = Some (false, exhaustedHand "Bot 2", noDutch, zeroRng)) by reflexivity.
  destruct (failed_move_is_final _ _ _ _ _ _ H) as (_ & _ & _ & _ & _ & _ & H7).
  exact (H7 (mkRng lcg 7)).
Defined.

(** X16: in [playTurn], a bot whose move fails votes for a stalemate at once.
    After a failed [makeMove] the retry loop finds [drawCards] failing too,
    so it counts one stalemate vote and never tries a second move: the
    [while] loop is left with the game as the failed move left it. *)
Theorem failed_move_votes now rem m i t t1 :
  (m < 3)%nat -> gameActive (t_game t) = true ->
  tryMove makeMove now i t = Some (StepFailed t1) ->
  moveLoop makeMove now (S rem) m i t
  = Some (Next (mkTurn (t_game t1) (t_rng t1) (anyPlayerMoved t1)
                       (S (staleMateCounter t1)) (t_log t1)))
  /\ anyPlayerMoved t1 = anyPlayerMoved t
  /\ moveCount (t_game t1) = moveCount (t_game t)
  /\ dutchPiles (t_game t1) = dutchPiles (t_game t).
Proof.
  intros Hm Ha H. cbn [moveLoop]. apply Nat.ltb_lt in Hm. rewrite Hm, Ha, H. simpl.
  unfold tryMove in H. destruct (players (t_game t) !! i) as [p|] eqn:Ep; [|done].
  simpl in H.
  destruct (makeMove p (dutchPiles (t_game t)) (t_rng t)) as [[[[made p'] d'] g']|] eqn:Em;
    [|done].
  destruct made.
  { destruct (hasWon p'); [|done].
    match type of H with (?e ≫= _) = _ => destruct e; done end. }
  inversion H; subst t1. clear H.
  destruct (makeMove_false _ _ _ _ _ _ Em) as (_ & _ & -> & _ & _ & Hd).
  cbn [t_game t_rng anyPlayerMoved staleMateCounter t_log set_table players moveCount
       dutchPiles].
  split; [|done].
  rewrite list_lookup_insert_eq by (by eapply lookup_lt_Some). simpl. rewrite Hd.
  by rewrite list_insert_insert_eq.
Qed.

Lemma failed_move_votes_witness :
  exists t1,
    tryMove makeMove 5000 0 (mkTurn exhaustedTable zeroRng false 0 []) = Some (StepFailed t1)
    /\ moveLoop makeMove 5000 5 0 0 (mkTurn exhaustedTable zeroRng false 0 [])
       = Some (Next (mkTurn (t_game t1) (t_rng t1) (anyPlayerMoved t1)
                            (S (staleMateCounter t1)) (t_log t1))).
Proof.
  assert (Hc : match tryMove makeMove 5000 0 (mkTurn exhaustedTable zeroRng false 0 []) with
               | Some (StepFailed _) => true
               | _ => false
               end = true) by (vm_compute; reflexivity).
  destruct (tryMove makeMove 5000 0 (mkTurn exhaustedTable zeroRng false 0 []))
    as [[t1|t1|t1]|] eqn:E; try discriminate Hc.
  assert (Ha : gameActive (t_game (mkTurn exhaustedTable zeroRng false 0 [])) = true)
    by reflexivity.
  assert (Hm : (0 < 3)%nat) by lia.
  destruct (failed_move_votes 5000 4 0 0 (mkTurn exhaustedTable zeroRng false 0 []) t1
              Hm Ha E) as (H1 & _).
  exists t1. split; [reflexivity|exact H1].
Defined.

(** ** The statistics, in integers *)

Lemma Math_round_div a b :
  0 < b -> Math_round (inject_Z a / inject_Z b) = (2 * a + b) / (2 * b).
Proof.
  intros Hb. destruct b as [|b'|b']; try lia.
  unfold Math_round, Qfloor, Qdiv, Qinv, Qmult, Qplus, inject_Z. simpl.
  f_equal; lia.
Qed.

(** X17: the running average of the round durations stays between the old
    average and the duration of the round just ended.  With at least zero
    games on record, [updateStats] stores an average that is neither below
    the smaller nor above the larger of the two; after the first round it is
    that round's duration. *)
Theorem average_between s :
  registered s -> 0 <= totalGames (gameStats s) ->
  exists s',
    updateStats s = Some s'
    /\ Z.min (averageRoundDuration (gameStats s)) (roundDuration s)
       <= averageRoundDuration (gameStats s')
       <= Z.max (averageRoundDuration (gameStats s)) (roundDuration s)
    /\ (totalGames (gameStats s) = 0 ->
        averageRoundDuration (gameStats s') = roundDuration s).
Proof.
  intros Hreg Hn. destruct (updateStats_total s Hreg) as [s' E]. exists s'.
  split; [exact E|]. unfold updateStats in E.
  match type of E with (?e ≫= _) = _ => destruct e as [stats'|]; [|done] end.
  simpl in E. inversion E; subst s'. clear E.
  cbn [set_gameStats gameStats averageRoundDuration].
  set (n := totalGames (gameStats s)) in *.
  set (avg := averageRoundDuration (gameStats s)).
  set (dur := roundDuration s).
  rewrite Math_round_div by lia.
  replace (n + 1 - 1) with n by lia.
  split; [split|].
  - apply Z.div_le_lower_bound; [lia|]. nia.
  - apply Z.lt_succ_r. apply Z.div_lt_upper_bound; [lia|]. nia.
  - intros E. rewrite E. replace (2 * (avg * 0 + dur) + (0 + 1)) with (1 + dur * 2) by lia.
    change (2 * (0 + 1)) with 2. rewrite Z.div_add by lia. reflexivity.
Qed.

Lemma average_between_witness :
  exists s',
    updateStats exhaustedTable = Some s'
    /\ averageRoundDuration (gameStats s') = 0.
Proof.
  assert (Hn : 0 <= totalGames (gameStats exhaustedTable)) by (simpl; lia).
  destruct (average_between exhaustedTable (table_registered _) Hn) as (s' & E & _ & H).
  exists s'. split; [exact E|]. exact (H eq_refl).
Defined.

(** X18: ending a round with a winner.  For a player [p] at index [i] of a
    game whose players have distinct names and their statistics entries,
    [endRound(p)] returns; the round is over with [p] as winner, [p] has one
    more win and nothing else changed in the players, the duration is the
    whole seconds since the round started, one more game is on record, and
    the statistics entry of every player holds its wins, its total plays and
    the rounded plays per game, the winner's with the new win. *)
Theorem endRound_credits_winner now i s p :
  registered s -> NoDup (map name (players s)) -> players s !! i = Some p ->
  exists s',
    endRound now (Some i) s = Some s'
    /\ gameActive s' = false /\ winner s' = Some i
    /\ players s' = <[i := countWin p]> (players s)
    /\ roundDuration s' = (now - default 0 (roundStartTime s)) / 1000
    /\ dutchPiles s' = dutchPiles s /\ moveCount s' = moveCount s
    /\ roundNumber s' = roundNumber s
    /\ totalGames (gameStats s') = totalGames (gameStats s) + 1
    /\ forall j q, players s' !! j = Some q ->
         wins q = (if bool_decide (j = i) then wins p + 1 else wins q)
         /\ playerStats (gameStats s') !! name q
            = Some (mkPlayerStats (wins q) (totalPlays q)
                      (Math_round (inject_Z (totalPlays q)
                                   / inject_Z (totalGames (gameStats s) + 1)))).
Proof.
  intros Hreg Hnd Hi.
  destruct (endRound_total now (Some i) s s Hreg) as [s' E]; [done|].
  exists s'. split; [exact E|]. unfold endRound in E. rewrite Hi in E.
  unfold updateStats in E. cbn [players gameStats roundDuration] in E.
  match type of E with (?e ≫= _) = _ => destruct e as [stats'|] eqn:Eu; [|done] end.
  simpl in E. inversion E; subst s'. clear E.
  cbn [set_gameStats gameActive winner players roundDuration dutchPiles moveCount
       roundNumber gameStats totalGames playerStats].
  repeat split; try done.
  - destruct (decide (j = i)) as [->|Hne].
    + rewrite list_lookup_insert_eq in H by (by eapply lookup_lt_Some).
      inversion H; subst q. by rewrite bool_decide_eq_true_2.
    + by rewrite bool_decide_eq_false_2.
  - eapply updatePlayerStats_lookup; [exact Eu| |by eapply list_elem_of_lookup_2].
    by rewrite (names_insert _ _ p).
Qed.

Lemma endRound_credits_winner_witness :
  exists s',
    endRound 5000 (Some 0%nat) lastCardTable = Some s'
    /\ winner s' = Some 0%nat
    /\ totalGames (gameStats s') = 1.
Proof.
  assert (Hnd : NoDup (map name (players lastCardTable))).
  { apply (bool_decide_unpack (NoDup (map name (players lastCardTable)))).
    vm_compute. exact I. }
  assert (Hi : players lastCardTable !! 0%nat = Some (lastCardHand "Bot 1" aggressive []))
    by reflexivity.
  destruct (endRound_credits_winner 5000 0 lastCardTable _ (table_registered _) Hnd Hi)
    as (s' & E & _ & H2 & _ & _ & _ & _ & _ & H8 & _).
  exists s'. split; [exact E|]. split; [exact H2|exact H8].
Defined.

(** ** What [moveCount] counts *)

Lemma movesMadeIn_snoc log ev :
  movesMadeIn (log ++ [ev]) = (movesMadeIn log + if ev_result ev then 1 else 0)%nat.
Proof.
  unfold movesMadeIn. rewrite filter_app, length_app. f_equal.
  destruct (ev_result ev) eqn:E.
  - by rewrite filter_cons_True.
  - rewrite filter_cons_False; [done|]. by rewrite E.
Qed.

(** X19: [moveCount] counts the invocations of [makeMove] that returned
    true, whatever they did.  For any [makeMove] method, a [playTurn] call
    adds to [moveCount] exactly the number of invocations made during the
    call that returned true, a draw-cycle counting like a placement. *)
Theorem moves_counted bot now s g ret t :
  playTurn bot now s g = Some (ret, t) ->
  moveCount (t_game t) = moveCount s + Z.of_nat (movesMadeIn (t_log t)).
Proof.
  intros H.
  refine (playTurn_keeps bot now
            (fun t => moveCount (t_game t) = moveCount s + Z.of_nat (movesMadeIn (t_log t)))
            _ _ _ _ _ _ s g ret t _ H).
  - intros t0 i p b p' d' g' HR Ha Hi Hm. cbn [t_game t_log].
    rewrite movesMadeIn_snoc. cbn [ev_result].
    destruct b; cbn [set_moveCount set_table moveCount]; lia.
  - intros t0 i p s' HR Ha Hi Hw He. cbn [t_game t_log].
    apply endRound_inv in He as (_ & _ & _ & -> & _). exact HR.
  - intros t0 i p HR Ha Hi. exact HR.
  - intros t0 HR. exact HR.
  - intros t0 n HR Ha. exact HR.
  - intros t0 s' HR Ha He. cbn [t_game t_log].
    apply endRound_inv in He as (_ & _ & _ & -> & _). exact HR.
  - cbn [t_game t_log]. unfold movesMadeIn. simpl. lia.
Qed.

Lemma moves_counted_witness :
  exists ret t,
    botTurn 5000 cyclingTable zeroRng = Some (ret, t)
    /\ movesMadeIn (t_log t) = 1%nat /\ moveCount (t_game t) = 1.
Proof.
  assert (Hc : match botTurn 5000 cyclingTable zeroRng with
               | Some (_, t) => (movesMadeIn (t_log t) =? 1)%nat
               | None => false
               end = true) by (vm_compute; reflexivity).
  destruct (botTurn 5000 cyclingTable zeroRng) as [[ret t]|] eqn:E; [|discriminate Hc].
  pose proof (moves_counted makeMove 5000 cyclingTable zeroRng ret t E) as H.
  apply Nat.eqb_eq in Hc. exists ret, t. split; [reflexivity|]. split; [exact Hc|].
  rewrite H, Hc. reflexivity.
Defined.

(** ** Instances of the general facts about placements *)

Lemma playCard_entry_conserves_witness :
  exists p' d',
    playCard (lastCardHand "Bot 1" aggressive []) (mkCard 1 red)
             (SrcObject (mkAvailable (mkCard 1 red) blitz None None)) noDutch None
    = Some (true, p', d')
    /\ handCards p' ++ dutchCards d' ≡ₚ [mkCard 1 red].
Proof.
  assert (Hin : mkAvailable (mkCard 1 red) blitz None None
                ∈ getAvailableCards (lastCardHand "Bot 1" aggressive []))
    by apply list_elem_of_here.
  eexists _, _. split; [reflexivity|].
  exact (playCard_entry_conserves (lastCardHand "Bot 1" aggressive [])
           (mkAvailable (mkCard 1 red) blitz None None) noDutch None true _ _ Hin eq_refl).
Defined.


Lemma botTurn_nowin_witness :
  exists ret t,
    botTurn 5000 lastCardTable zeroRng = Some (ret, t)
    /\ Forall (fun ev => ev_won ev = false) (t_log t).
Proof.
  assert (Hc : match botTurn 5000 lastCardTable zeroRng with
               | Some _ => true
               | None => false
               end = true) by (vm_compute; reflexivity).
  destruct (botTurn 5000 lastCardTable zeroRng) as [[ret t]|] eqn:E; [|discriminate Hc].
  assert (Ha : gameActive lastCardTable = true) by reflexivity.
  destruct (botTurn_nowin 5000 lastCardTable zeroRng ret t Ha E) as [H _].
  exists ret, t. split; [reflexivity|exact H].
Defined.

(** ** What an aggressive bot plays *)

Lemma getMovePriority_aggressive p c t tg g :
  strategy p = aggressive ->
  getMovePriority p c (SrcString t) tg g
  = (match tg with
     | dutch => ((if value c =? 1 then 0 + 200 else 0) + 50
                 + inject_Z ((11 - value c) * 5) + 30)%Q
     | toPost => (0 + inject_Z ((11 - value c) * 5))%Q
     end, g).
Proof.
  intros Hs. unfold getMovePriority. rewrite Hs. by destruct tg.
Qed.

Lemma priority_dutch_low c :
  validCard c ->
  (85 <= (if value c =? 1 then 0 + 200 else 0) + 50
         + inject_Z ((11 - value c) * 5) + 30)%Q.
Proof.
  unfold validCard. intros Hv.
  destruct (value c =? 1); unfold Qle, Qplus, inject_Z; simpl; lia.
Qed.

Lemma priority_post_high c :
  validCard c -> (0 + inject_Z ((11 - value c) * 5) <= 50)%Q.
Proof.
  unfold validCard. intros Hv. unfold Qle, Qplus, inject_Z; simpl; lia.
Qed.

Lemma postMoves_aggressive p c t i piles g :
  strategy p = aggressive -> validCard c ->
  Forall aggressiveRank (postMoves p c (SrcString t) i piles g).1
  /\ (postMoves p c (SrcString t) i piles g).2 = g.
Proof.
  intros Hs Hv. revert i g. induction piles as [|pile rest IH]; intros i g; [done|].
  cbn [postMoves]. destruct (canPostOn c (top pile) && _).
  - rewrite (getMovePriority_aggressive p c t toPost g Hs).
    destruct (IH (S i) g) as [IH1 IH2].
    destruct (postMoves p c (SrcString t) (S i) rest g) as [ms g2]. simpl in *.
    split; [|done]. constructor; [|done]. unfold aggressiveRank. simpl.
    by apply priority_post_high.
  - apply IH.
Qed.

Lemma collectMoves_aggressive p d av g :
  strategy p = aggressive -> Forall (fun a => validCard (av_card a)) av ->
  Forall aggressiveRank (collectMoves p d av g).1
  /\ (collectMoves p d av g).2 = g.
Proof.
  intros Hs Hv. revert g. induction Hv as [|a rest Ha Hrest IH]; intros g; [done|].
  cbn [collectMoves].
  destruct (postMoves_aggressive p (av_card a) (av_source a) 0 (postPiles p) g Hs Ha)
    as [P1 P2].
  destruct (IH g) as [IH1 IH2].
  destruct (canPlayOn (av_card a) (top (dutchPile d (color (av_card a))))).
  - rewrite (getMovePriority_aggressive p (av_card a) (av_source a) dutch g Hs).
    destruct (postMoves p (av_card a) _ 0 (postPiles p) g) as [pm g2]. simpl in P2. subst g2.
    destruct (collectMoves p d rest g) as [ms g3]. simpl in *. split; [|done].
    constructor; [|by apply Forall_app].
    unfold aggressiveRank. simpl. by apply priority_dutch_low.
  - destruct (postMoves p (av_card a) _ 0 (postPiles p) g) as [pm g2]. simpl in P2. subst g2.
    destruct (collectMoves p d rest g) as [ms g3]. simpl in *. split; [|done].
    by apply Forall_app.
Qed.

Lemma collectMoves_has_dutch p d av g a :
  a ∈ av -> canPlayOn (av_card a) (top (dutchPile d (color (av_card a)))) = true ->
  exists m, m ∈ (collectMoves p d av g).1 /\ mv_target m = dutch.
Proof.
  intros Hin Hc. revert g. induction Hin as [a rest|a b rest Hin IH]; intros g;
    cbn [collectMoves].
  - rewrite Hc. destruct (getMovePriority p (av_card a) _ dutch g) as [pr g1].
    destruct (postMoves p (av_card a) _ 0 (postPiles p) g1) as [pm g2].
    destruct (collectMoves p d rest g2) as [ms g3]. simpl.
    eexists. split; [apply list_elem_of_here|done].
  - match goal with
    | |- context [let '(dm, g1) := ?e in _] => destruct e as [dm g1]
    end.
    destruct (postMoves p (av_card b) _ 0 (postPiles p) g1) as [pm g2].
    destruct (IH Hc g2) as (m & Hm & Ht).
    destruct (collectMoves p d rest g2) as [ms g3]. simpl in *.
    exists m. split; [|done]. rewrite !elem_of_app. auto.
Qed.

Lemma insertMove_head m l :
  head (insertMove m l)
  = match l with
    | [] => Some m
    | x :: _ => if Qle_bool (mv_priority x) (mv_priority m) then Some m else Some x
    end.
Proof. destruct l as [|x rest]; [done|]. simpl. by destruct (Qle_bool _ _). Qed.

Lemma sortMoves_head_max l m :
  head (sortMoves l) = Some m ->
  forall x, x ∈ l -> (mv_priority x <= mv_priority m)%Q.
Proof.
  revert m. induction l as [|a rest IH]; intros m Hh x Hx; [by apply elem_of_nil in Hx|].
  cbn [sortMoves] in Hh. rewrite insertMove_head in Hh.
  destruct (sortMoves rest) as [|h s'] eqn:Es.
  - inversion Hh; subst m. apply elem_of_cons in Hx as [->|Hx]; [apply Qle_refl|].
    apply sortMoves_elem in Hx. rewrite Es in Hx. by apply elem_of_nil in Hx.
  - specialize (IH h eq_refl).
    destruct (Qle_bool (mv_priority h) (mv_priority a)) eqn:El; inversion Hh; subst m.
    + apply Qle_bool_iff in El.
      apply elem_of_cons in Hx as [->|Hx]; [apply Qle_refl|].
      eapply Qle_trans; [by apply IH|done].
    + apply elem_of_cons in Hx as [->|Hx]; [|by apply IH].
      apply Qlt_le_weak, Qnot_le_lt. intros Hle. apply Qle_bool_iff in Hle. congruence.
Qed.

Lemma drawCards_strategy p : strategy (drawCards p).2 = strategy p.
Proof. destruct (drawCards_cases p) as [[_ ->]|[_ (dp' & rv' & -> & _)]]; done. Qed.

Lemma refreshed_strategy p : strategy (refreshed p) = strategy p.
Proof. destruct (refreshed_cases p) as [-> | ->]; [done|apply drawCards_strategy]. Qed.

(** X23: an aggressive bot never posts a card while a Dutch pile takes
    one.  If any card the hand can play from goes on the Dutch pile of its
    colour, the move of an aggressive bot is a placement on a Dutch pile:
    it returns true, the post piles and the random source are untouched, and
    a card the Dutch piles accept is pushed on its colour's pile. *)
Theorem aggressive_prefers_dutch p d g c :
  strategy p = aggressive -> validHand p ->
  c ∈ availableCards (refreshed p) ->
  canPlayOn c (top (dutchPile d (color c))) = true ->
  exists c',
    c' ∈ availableCards (refreshed p)
    /\ canPlayOn c' (top (dutchPile d (color c'))) = true
    /\ makeMove p d g
       = Some (true, countPlay (refreshed p),
               setDutchPile d (color c') (push (dutchPile d (color c')) c'), g).
Proof.
  intros Hs Hv Hc Hplay. unfold makeMove. set (q := refreshed p) in *.
  assert (Hsq : strategy q = aggressive) by (unfold q; by rewrite refreshed_strategy).
  assert (Hvq : Forall (fun a => validCard (av_card a)) (getAvailableCards q)).
  { apply validHand_refreshed in Hv. fold q in Hv. unfold validHand in Hv.
    apply Forall_forall. intros a Ha.
    pose proof (proj1 (Forall_forall _ _) Hv) as Hv'. apply Hv', availableCards_hand.
    unfold availableCards. by apply (list_elem_of_fmap_2 av_card). }
  pose proof (collectMoves_ok q d (getAvailableCards q) g (getAvailableCards_cards q)) as Hok.
  destruct (collectMoves_aggressive q d (getAvailableCards q) g Hsq Hvq) as [Hrank Hg].
  unfold availableCards in Hc. apply (list_elem_of_fmap_1 av_card) in Hc as (a & -> & Ha).
  destruct (collectMoves_has_dutch q d (getAvailableCards q) g a Ha Hplay) as (md & Hmd & Htd).
  destruct (collectMoves q d (getAvailableCards q) g) as [moves g1]. simpl in *. subst g1.
  destruct moves as [|m0 ms]; [by apply elem_of_nil in Hmd|].
  destruct (sortMoves_head (m0 :: ms)) as (m & Hh & Hin); [done|].
  cbn [length Nat.eqb]. rewrite Hh. cbn [mbind option_bind].
  pose proof (sortMoves_head_max _ _ Hh md Hmd) as Hmax.
  rewrite Forall_forall in Hok, Hrank.
  destruct (Hok m Hin) as ((t & Hsrc) & Hcard & Ht).
  pose proof (Hrank m Hin) as Hrm. pose proof (Hrank md Hmd) as Hrd.
  unfold aggressiveRank in Hrm, Hrd. rewrite Htd in Hrd.
  destruct (mv_target m).
  - exists (mv_card m). split; [done|]. split; [done|].
    unfold playCard. rewrite Ht, Hsrc. simpl. done.
  - exfalso. assert (H : (85 <= 50)%Q).
    { eapply Qle_trans; [exact Hrd|]. eapply Qle_trans; [exact Hmax|exact Hrm]. }
    by vm_compute in H.
Qed.

Lemma aggressive_prefers_dutch_witness :
  exists c',
    makeMove (lastCardHand "Bot 1" aggressive [mkCard 5 blue]) noDutch zeroRng
    = Some (true, countPlay (refreshed (lastCardHand "Bot 1" aggressive [mkCard 5 blue])),
            setDutchPile noDutch (color c') (push (dutchPile noDutch (color c')) c'),
            zeroRng).
Proof.
  assert (Hv : validHand (lastCardHand "Bot 1" aggressive [mkCard 5 blue])).
  { unfold validHand, validCard. simpl. repeat constructor; simpl; lia. }
  assert (Hc : mkCard 1 red
               ∈ availableCards (refreshed (lastCardHand "Bot 1" aggressive [mkCard 5 blue])))
    by apply list_elem_of_here.
  destruct (aggressive_prefers_dutch (lastCardHand "Bot 1" aggressive [mkCard 5 blue])
              noDutch zeroRng (mkCard 1 red) eq_refl Hv Hc eq_refl) as (c' & _ & _ & E).
  exists c'. exact E.
Defined.

(** ** A game without players *)

(** X24: with no players a round ends at its first turn.  Whatever the
    [makeMove] method, [playTurn] on an active round of a game with an empty
    player list invokes nobody, finds no move and as many stalemate votes
    as players, none, and ends the round in a stalemate: it returns true,
    the round is over without a winner and one more game is on record. *)
Theorem no_players_stalemate bot now s g :
  players s = [] -> gameActive s = true ->
  exists t,
    playTurn bot now s g = Some (true, t)
    /\ t_log t = [] /\ gameActive (t_game t) = false /\ winner (t_game t) = None
    /\ totalGames (gameStats (t_game t)) = totalGames (gameStats s) + 1
    /\ playerStats (gameStats (t_game t)) = playerStats (gameStats s).
Proof.
  intros Hp Ha. destruct s as [ps d a w st dur rn mc gs]. cbn [players gameActive] in Hp, Ha.
  subst ps a. eexists. split; [reflexivity|]. done.
Qed.

Lemma no_players_stalemate_witness :
  exists t,
    botTurn 2000 (startNewRound 1000 (newGame 0 zeroRng).1 zeroRng).1 zeroRng = Some (true, t)
    /\ gameActive (t_game t) = false /\ winner (t_game t) = None.
Proof.
  destruct (no_players_stalemate makeMove 2000
              (startNewRound 1000 (newGame 0 zeroRng).1 zeroRng).1 zeroRng eq_refl eq_refl)
    as (t & E & _ & H2 & H3 & _).
  exists t. split; [exact E|]. split; [exact H2|exact H3].
Defined.

(** ** What the play counters count *)

Lemma sumOf_insert f ps i p p' :
  ps !! i = Some p -> sumOf f (<[i := p']> ps) = sumOf f ps - f p + f p'.
Proof.
  revert i. induction ps as [|a rest IH]; intros i Hi; [done|].
  destruct i as [|i]; simpl in *.
  - inversion Hi; subst a. lia.
  - rewrite (IH i Hi). lia.
Qed.

Lemma playsOk_player s i p p' d' k :
  playsOk s -> players s !! i = Some p -> 0 <= k ->
  playsThisRound p' = playsThisRound p + k -> totalPlays p' = totalPlays p + k ->
  posted p' + Z.of_nat (length (dutchCards d'))
  = posted p + Z.of_nat (length (dutchCards (dutchPiles s))) + k ->
  playsOk (set_table s (<[i := p']> (players s)) d').
Proof.
  intros [Hsum Hall] Hi Hk Hplays Htotal Hcards. unfold playsOk.
  cbn [set_table players dutchPiles].
  rewrite (sumOf_insert playsThisRound _ _ p), (sumOf_insert posted _ _ p) by done.
  split; [lia|]. apply Forall_insert; [done|].
  rewrite Forall_lookup in Hall. specialize (Hall i p Hi). simpl in Hall. lia.
Qed.

Lemma drawCards_delta p :
  playsThisRound (drawCards p).2 = playsThisRound p
  /\ totalPlays (drawCards p).2 = totalPlays p /\ posted (drawCards p).2 = posted p.
Proof.
  unfold posted. by rewrite drawCards_plays, drawCards_totalPlays, drawCards_posts.
Qed.

Lemma refreshed_delta p :
  playsThisRound (refreshed p) = playsThisRound p
  /\ totalPlays (refreshed p) = totalPlays p /\ posted (refreshed p) = posted p.
Proof.
  unfold posted. by rewrite refreshed_plays, refreshed_totalPlays, refreshed_posts.
Qed.

Lemma makeMove_delta p d g b p' d' g' :
  makeMove p d g = Some (b, p', d', g') ->
  exists k, 0 <= k <= 1
    /\ playsThisRound p' = playsThisRound p + k /\ totalPlays p' = totalPlays p + k
    /\ posted p' + Z.of_nat (length (dutchCards d'))
       = posted p + Z.of_nat (length (dutchCards d)) + k.
Proof.
  intros H. apply makeMove_inv in H.
  destruct (refreshed_delta p) as (R1 & R2 & R3).
  destruct H as [|c Hc Hplay|c i pile Hc Hi Hpost].
  - exists 0. destruct (drawCards_delta (refreshed p)) as (D1 & D2 & D3).
    rewrite D1, D2, D3, R1, R2, R3. lia.
  - exists 1. rewrite dutchCards_push. unfold posted in *.
    cbn [countPlay playsThisRound totalPlays postPiles].
    rewrite R1, R2, refreshed_posts. lia.
  - exists 1. unfold posted in *.
    cbn [countPlay set_postPiles playsThisRound totalPlays postPiles].
    rewrite (concat_insert_push _ _ _ _ Hi), R1, R2, refreshed_posts. lia.
Qed.

Lemma playsOk_move s i p g b p' d' g' :
  playsOk s -> players s !! i = Some p ->
  makeMove p (dutchPiles s) g = Some (b, p', d', g') ->
  playsOk (set_table s (<[i := p']> (players s)) d').
Proof.
  intros Hs Hi Hm. destruct (makeMove_delta _ _ _ _ _ _ _ Hm) as (k & Hk & H1 & H2 & H3).
  apply (playsOk_player s i p p' d' k); try done. lia.
Qed.

Lemma playsOk_draw s i p :
  playsOk s -> players s !! i = Some p ->
  playsOk (set_players s (<[i := (drawCards p).2]> (players s))).
Proof.
  intros Hs Hi. destruct (drawCards_delta p) as (D1 & D2 & D3).
  change (playsOk (set_table s (<[i := (drawCards p).2]> (players s)) (dutchPiles s))).
  apply (playsOk_player s i p _ _ 0); try done; lia.
Qed.

Lemma playsOk_endRound now w s s' : playsOk s -> endRound now w s = Some s' -> playsOk s'.
Proof.
  intros Hs H. unfold endRound in H. apply updateStats_inv in H as [st ->].
  unfold playsOk. cbn [set_gameStats players dutchPiles].
  destruct w as [i|]; [|exact Hs].
  destruct (players s !! i) as [p|] eqn:Hi; [|exact Hs].
  change (playsOk (set_table s (<[i := countWin p]> (players s)) (dutchPiles s))).
  apply (playsOk_player s i p _ _ 0); try done;
    unfold posted; cbn [countWin playsThisRound totalPlays postPiles]; lia.
Qed.

Lemma botTurn_playsOk now s g ret t :
  playsOk s -> botTurn now s g = Some (ret, t) -> playsOk (t_game t).
Proof.
  intros Hs H.
  refine (playTurn_keeps makeMove now (fun t => playsOk (t_game t))
            _ _ _ _ _ _ s g ret t Hs H).
  - intros t0 i p b p' d' g' HR Ha Hi Hm. cbn [t_game].
    pose proof (playsOk_move _ _ _ _ _ _ _ _ HR Hi Hm) as Hok. by destruct b.
  - intros t0 i p s' HR Ha Hi Hw He. cbn [t_game]. by eapply playsOk_endRound.
  - intros t0 i p HR Ha Hi. cbn [t_game]. by apply playsOk_draw.
  - intros t0 HR. exact HR.
  - intros t0 n HR Ha. exact HR.
  - intros t0 s' HR Ha He. cbn [t_game]. by eapply playsOk_endRound.
Qed.

Lemma sumOf_zero f ps : Forall (fun p => f p = 0) ps -> sumOf f ps = 0.
Proof. induction 1 as [|p rest Hp _ IH]; simpl; [done|]. lia. Qed.

Lemma newGame_playsOk n g : playsOk (newGame n g).1.
Proof.
  unfold newGame.
  destruct (createPlayers_spec n 0 [] ∅ g) as (new & E & _ & _ & Hf & _).
  destruct (createPlayers n 0 [] ∅ g) as [[ps stats] g'].
  cbn [fst snd] in *. rewrite app_nil_l in E. subst ps.
  unfold playsOk. cbn [players dutchPiles]. split.
  - rewrite !sumOf_zero; [done| |].
    + eapply Forall_impl; [exact Hf|]. intros p (_ & _ & Hp & _). unfold posted.
      by rewrite Hp.
    + eapply Forall_impl; [exact Hf|]. by intros p (_ & _ & _ & _ & _ & -> & _).
  - eapply Forall_impl; [exact Hf|]. intros p (_ & _ & _ & _ & _ & -> & -> & _). lia.
Qed.

Lemma initializeAll_plays ps g :
  Forall (fun p => 0 <= totalPlays p) ps ->
  Forall (fun p => playsThisRound p = 0 /\ posted p = 0 /\ 0 <= totalPlays p)
         (initializeAll ps g).1.
Proof.
  revert g. induction ps as [|p rest IH]; intros g H; cbn [initializeAll]; [constructor|].
  inversion H as [|? ? Hp Hrest]; subst.
  destruct (initializeCards_dealt p g) as ((_ & _ & _ & _ & Hposts & Hplays) & _ & _ & _ & Ht & _).
  destruct (initializeCards p g) as [p' g1]. specialize (IH g1 Hrest).
  destruct (initializeAll rest g1) as [rest' g2]. cbn [fst] in *.
  constructor; [|done]. unfold posted. rewrite Hposts, Hplays, Ht. done.
Qed.

Lemma startNewRound_playsOk now s g : playsOk s -> playsOk (startNewRound now s g).1.
Proof.
  intros [_ Hall]. unfold startNewRound.
  assert (H : Forall (fun p => playsThisRound p = 0 /\ posted p = 0 /\ 0 <= totalPlays p)
                     (initializeAll (players s) g).1).
  { apply initializeAll_plays. eapply Forall_impl; [exact Hall|]. simpl. intros p Hp. lia. }
  destruct (initializeAll (players s) g) as [ps g']. cbn [fst] in *.
  unfold playsOk. cbn [players dutchPiles]. split.
  - rewrite !sumOf_zero; [done| |].
    + eapply Forall_impl; [exact H|]. by intros p (_ & -> & _).
    + eapply Forall_impl; [exact H|]. by intros p (-> & _).
  - eapply Forall_impl; [exact H|]. intros p (-> & _ & Hp). lia.
Qed.

Lemma reachable_playsOk s : reachable s -> playsOk s.
Proof.
  induction 1 as [n g|now s g _ IH _|now s g ret t _ IH Ht|s i p g ok p' d' g' _ IH Hi Hm].
  - apply newGame_playsOk.
  - by apply startNewRound_playsOk.
  - by eapply botTurn_playsOk.
  - by eapply playsOk_move.
Qed.

(** X25: the play counters count the cards laid on the table.  In every
    state the engine reaches, the players' [playsThisRound] add up to the
    number of cards lying on all post piles and Dutch piles, and no player
    has counted more placements this round than in total. *)
Theorem plays_count_table_cards s :
  reachable s ->
  sumOf playsThisRound (players s)
  = sumOf (fun p => Z.of_nat (length (concat (postPiles p)))) (players s)
    + Z.of_nat (length (dutchCards (dutchPiles s)))
  /\ Forall (fun p => 0 <= playsThisRound p <= totalPlays p) (players s).
Proof. intros Hr. exact (reachable_playsOk s Hr). Qed.

Lemma plays_count_table_cards_witness :
  exists s g, lateRound = Some (s, g)
    /\ sumOf playsThisRound (players s)
       = sumOf (fun p => Z.of_nat (length (concat (postPiles p)))) (players s)
         + Z.of_nat (length (dutchCards (dutchPiles s))).
Proof.
  assert (Hc : match lateRound with Some _ => true | None => false end = true)
    by (vm_compute; reflexivity).
  destruct lateRound as [[s g]|] eqn:E; [|discriminate Hc].
  assert (Hr : reachable s).
  { eapply botTurns_reachable; [exact freshRound_reachable|exact E]. }
  destruct (plays_count_table_cards s Hr) as [H _].
  exists s, g. split; [reflexivity|exact H].
Defined.

Lemma cannot_move_bot_draws_witness :
  makeMove (exhaustedHand "Bot 2") noDutch zeroRng
  = Some (false, exhaustedHand "Bot 2", noDutch, zeroRng).
Proof.
  assert (H : canMakeMove (refreshed (exhaustedHand "Bot 2")) noDutch = false)
    by reflexivity.
  rewrite (proj1 cannot_move_bot_draws (exhaustedHand "Bot 2") noDutch zeroRng H).
  reflexivity.
Defined.

(** ** The labels of the cards *)

Lemma append_char_inj (s1 s2 : string) (a b : Ascii.ascii) :
  s1 +:+ String a "" = s2 +:+ String b "" -> s1 = s2 /\ a = b.
Proof.
  revert s2. induction s1 as [|c s1 IH]; intros [|c' s2] H; simpl in H.
  - by inversion H.
  - inversion H as [[Hc Hs]]. by destruct s2.
  - inversion H as [[Hc Hs]]. by destruct s1.
  - inversion H as [[Hc Hs]]. destruct (IH s2 Hs) as [-> ->]. done.
Qed.

(** X26: the label of a card identifies it.  [toString] gives two cards
    the same label only if they are the same card, whatever their ranks. *)
Theorem toString_inj c1 c2 : toString c1 = toString c2 <-> c1 = c2.
Proof.
  split; [|by intros ->]. unfold toString. intros H.
  destruct c1 as [v1 k1], c2 as [v2 k2]. simpl in H.
  assert (Hk : exists a b, colorInitial k1 = String a "" /\ colorInitial k2 = String b ""
                           /\ (a = b -> k1 = k2)).
  { destruct k1, k2; eexists _, _; (split; [reflexivity|split; [reflexivity|]]);
      intros E; try done; discriminate E. }
  destruct Hk as (a & b & E1 & E2 & Hab). rewrite E1, E2 in H.
  apply append_char_inj in H as [Hv Hc]. apply pretty_Z_inj in Hv.
  by rewrite Hv, (Hab Hc).
Qed.
